(** * Video compression service: a shallow embedding and its properties

    The development follows the TypeScript sources of the service:

    - [lib/ffmpeg.ts]            probe, single-quality transcode, keyframe interval
    - [lib/hls-converter.ts]     segment duration, master playlist
    - [lib/video-compressor.ts]  download, URL guard, input validation
    - [lib/image-compressor.ts]  thumbnail download, URL guard
    - [lib/webhook.ts]           throttler and the three webhook senders
    - [lib/queue.ts]             job options handed to the broker
    - [workers/compression-worker.ts]  the job handler
    - [app/content/[...path]/route.ts] byte-range serving

    JavaScript numbers that hold integers (sizes, percentages, milliseconds,
    byte offsets) are [Z]; the probed duration, which is a fraction of a
    second, is [Q].  Strings are [string].  JavaScript [Map]s and string-keyed
    objects are [gmap string _].  The file system, the HTTP peer, the clock
    and the transcoder are explicit arguments of the functions that use
    them. *)

From Stdlib Require Import ZArith QArith Qround Lia Ascii String List Bool.
From stdpp Require Import base option list gmap strings.

Local Open Scope Z_scope.

(** ** Text: decimal rendering and parsing, as [String(n)] and [parseInt(s, 10)] *)

Module Text.

Definition digit_char (d : N) : ascii := ascii_of_N (48 + d).

Definition is_digit (c : ascii) : bool :=
  let n := N_of_ascii c in ((48 <=? n) && (n <=? 57))%N.

Definition digit_val (c : ascii) : N := (N_of_ascii c - 48)%N.

(** Digits of [n], most significant first; [fuel] bounds the number of digits. *)
Fixpoint dec_fuel (fuel : nat) (n : N) : string :=
  match fuel with
  | O => String (digit_char (n mod 10)) EmptyString
  | S f =>
      if (n <? 10)%N then String (digit_char n) EmptyString
      else dec_fuel f (n / 10) +:+ String (digit_char (n mod 10)) EmptyString
  end.

Definition dec (n : N) : string := dec_fuel (N.to_nat (N.size n)) n.

(** [String(z)] for an integer-valued number. *)
Definition Z_to_string (z : Z) : string :=
  if z <? 0 then String "-"%char (dec (Z.to_N (- z))) else dec (Z.to_N z).

(** [parseInt(s, 10)] on a string of decimal digits.  The digits are read
    exactly, as a double reads them up to 2^53. *)
Fixpoint parse_digits (acc : N) (s : string) : N :=
  match s with
  | EmptyString => acc
  | String c s' => parse_digits (10 * acc + digit_val c) s'
  end.

Definition parseInt (s : string) : Z := Z.of_N (parse_digits 0 s).

Fixpoint all_digits (s : string) : bool :=
  match s with
  | EmptyString => true
  | String c s' => is_digit c && all_digits s'
  end.

(** A string is falsy exactly when it is empty. *)
Definition is_empty (s : string) : bool :=
  match s with EmptyString => true | _ => false end.

Definition no_leading_digit (t : string) : bool :=
  match t with
  | EmptyString => true
  | String c _ => negb (is_digit c)
  end.

(** [s.startsWith(p)], [s.endsWith(p)], [s.toLowerCase()] (ASCII). *)
Fixpoint startsWith (p s : string) : bool :=
  match p, s with
  | EmptyString, _ => true
  | String a p', String b s' => if Ascii.eqb a b then startsWith p' s' else false
  | String _ _, EmptyString => false
  end.

Fixpoint drop (n : nat) (s : string) : string :=
  match n, s with
  | O, _ => s
  | S n', EmptyString => EmptyString
  | S n', String _ s' => drop n' s'
  end.

Definition endsWith (p s : string) : bool :=
  (String.length p <=? String.length s)%nat &&
  String.eqb (drop (String.length s - String.length p) s) p.

Definition lower_char (c : ascii) : ascii :=
  let n := N_of_ascii c in
  if ((65 <=? n) && (n <=? 90))%N then ascii_of_N (n + 32) else c.

Fixpoint toLowerCase (s : string) : string :=
  match s with
  | EmptyString => EmptyString
  | String c s' => String (lower_char c) (toLowerCase s')
  end.

End Text.

(** ** Configuration ([lib/config.ts])

    Only the fields the modelled functions read.  [hls_time] comes from
    [getEnvNumber], which is [parseInt] with a default, hence an integer. *)

Record Config := {
  base_url : string;
  hls_time : Z;
  allowed_download_domains : list string;
  wordpress_webhook_url : string
}.

(** ** JavaScript idioms *)

(** [x || d] on integers: a number is falsy exactly when it is zero (or NaN,
    which an integer field never is). *)
Definition or_default (x d : Z) : Z := if x =? 0 then d else x.

(** How a call ends: with a value, or with a thrown error. *)
Inductive Outcome (A : Type) :=
| Returned (a : A)
| Threw (message : string).
Arguments Returned {A} a.
Arguments Threw {A} message.

(** ** Numbers with a fractional part

    A duration or a size in MB is a double in the source.  Every double is a
    rational, and [<], [<=], [>] on doubles agree with the order of the
    rationals they denote, so these values are [Q] here. *)

Module Num.

Definition Qgtb (a b : Q) : bool := negb (Qle_bool a b).

(** [Math.round(x)]: the nearest integer, halves upwards. *)
Definition Math_round (x : Q) : Z := Qfloor (x + (1 # 2))%Q.

(** [Math.round(x * 100) / 100]. *)
Definition round2 (x : Q) : Q := (inject_Z (Math_round (x * 100)) / 100)%Q.

Definition two_digits (n : Z) : string :=
  String (Text.digit_char (Z.to_N (n / 10)))
    (String (Text.digit_char (Z.to_N (n mod 10))) EmptyString).

(** [x.toFixed(2)] for [x >= 0]. *)
Definition toFixed2 (x : Q) : string :=
  let h := Math_round (x * 100) in
  Text.Z_to_string (h / 100) +:+ "." +:+ two_digits (h mod 100).

(** [String(x)] for [x >= 0] with at most two decimals. *)
Definition to_string (x : Q) : string :=
  let h := Math_round (x * 100) in
  let f := h mod 100 in
  if f =? 0 then Text.Z_to_string (h / 100)
  else if f mod 10 =? 0
       then Text.Z_to_string (h / 100) +:+ "." +:+
            String (Text.digit_char (Z.to_N (f / 10))) EmptyString
       else Text.Z_to_string (h / 100) +:+ "." +:+ two_digits f.

End Num.

(** ** The file system

    A path maps to the size of the regular file stored there.  [locked] holds
    the paths whose removal the operating system refuses ([unlinkSync] throws,
    for instance EPERM or EBUSY). *)

Record FileSystem := {
  files : gmap string Z;
  locked : gset string
}.

Module Fs.

Definition existsSync (fs : FileSystem) (p : string) : bool :=
  match files fs !! p with Some _ => true | None => false end.

(** [statSync(p).size]; [None] when the call throws. *)
Definition statSize (fs : FileSystem) (p : string) : option Z := files fs !! p.

(** [unlinkSync(p)]; [None] when the call throws. *)
Definition unlinkSync (fs : FileSystem) (p : string) : option FileSystem :=
  match files fs !! p with
  | None => None
  | Some _ =>
      if bool_decide (p ∈ locked fs) then None
      else Some {| files := delete p (files fs); locked := locked fs |}
  end.

(** A write that leaves [p] with [sz] bytes. *)
Definition write (fs : FileSystem) (p : string) (sz : Z) : FileSystem :=
  {| files := <[p := sz]> (files fs); locked := locked fs |}.

End Fs.

(** [path.basename] and [path.extname] on POSIX paths. *)
Module Path.

Fixpoint after_last (sep : ascii) (s : string) (acc : option string) : option string :=
  match s with
  | EmptyString => acc
  | String c s' =>
      if Ascii.eqb c sep then after_last sep s' (Some s') else after_last sep s' acc
  end.

Definition basename (p : string) : string :=
  match after_last "/"%char p None with Some b => b | None => p end.

(** The extension with its dot, or the empty string; a leading dot of the
    base name does not start an extension. *)
Definition extname (p : string) : string :=
  match basename p with
  | EmptyString => EmptyString
  | String c rest =>
      match after_last "."%char rest None with
      | Some e => String "."%char e
      | None => EmptyString
      end
  end.

End Path.

(** ** Types ([types/index.ts]) *)

Record VideoInfo := {
  vi_valid : bool;
  vi_corrupted : bool;
  vi_error : option string;
  vi_duration : Q;
  vi_video_codec : option string;
  vi_audio_codec : option string;
  vi_container : option string;
  vi_width : Z;
  vi_height : Z;
  vi_file_size : Z
}.

Record ValidationResult := {
  vr_valid : bool;
  vr_errors : list string;
  vr_error_code : option string;
  vr_video_info : option VideoInfo
}.

Module VIDEO_VALIDATION.
Definition MAX_DURATION : Z := 300.
Definition MAX_SIZE_MB : Z := 100.
Definition ALLOWED_CODECS : list string :=
  ["h264"; "hevc"; "h265"; "vp8"; "vp9"; "prores"; "mpeg4"; "av1"].
Definition ALLOWED_CONTAINERS : list string := ["mp4"; "mov"; "webm"; "mkv"].
End VIDEO_VALIDATION.

Module ERROR_CODES.
Definition DURATION_TOO_LONG : string := "DURATION_TOO_LONG".
Definition FILE_TOO_LARGE : string := "FILE_TOO_LARGE".
Definition INVALID_CODEC : string := "INVALID_CODEC".
Definition VIDEO_CORRUPTED : string := "VIDEO_CORRUPTED".
Definition FILE_NOT_FOUND : string := "FILE_NOT_FOUND".
Definition INVALID_CONTAINER : string := "INVALID_CONTAINER".
Definition DOWNLOAD_FAILED : string := "DOWNLOAD_FAILED".
End ERROR_CODES.

(** [xs.includes(x)] on an array of strings. *)
Fixpoint includes (xs : list string) (x : string) : bool :=
  match xs with
  | [] => false
  | y :: ys => String.eqb y x || includes ys x
  end.

(** ** The probe ([getVideoInfo] of [lib/ffmpeg.ts])

    What [ffprobe] reports for a path is given by the environment. *)

Record FfprobeStream := {
  codec_type : string;
  codec_name : option string;
  st_width : option Z;
  st_height : option Z
}.

Record FfprobeFormat := {
  fmt_duration : option Q;
  fmt_format_name : option string
}.

Record FfprobeData := {
  format : option FfprobeFormat;
  streams : option (list FfprobeStream)
}.

Inductive FfprobeOutcome :=
| ProbeError (message : string)
| ProbeData (metadata : option FfprobeData).

Module Probe.

(** [s.split(',')[0]]. *)
Fixpoint first_field (s : string) : string :=
  match s with
  | EmptyString => EmptyString
  | String c s' => if Ascii.eqb c ","%char then EmptyString else String c (first_field s')
  end.

(** An optional string as a condition: absent and empty are both falsy. *)
Definition nonempty (o : option string) : option string :=
  match o with
  | Some EmptyString => None
  | _ => o
  end.

Definition blank_info : VideoInfo :=
  {| vi_valid := false; vi_corrupted := false; vi_error := None;
     vi_duration := 0%Q; vi_video_codec := None; vi_audio_codec := None;
     vi_container := None; vi_width := 0; vi_height := 0; vi_file_size := 0 |}.

Definition set_corrupted (i : VideoInfo) (e : string) : VideoInfo :=
  {| vi_valid := vi_valid i; vi_corrupted := true; vi_error := Some e;
     vi_duration := vi_duration i; vi_video_codec := vi_video_codec i;
     vi_audio_codec := vi_audio_codec i; vi_container := vi_container i;
     vi_width := vi_width i; vi_height := vi_height i;
     vi_file_size := vi_file_size i |}.

(** One turn of the loop over [metadata.streams]; the boolean is
    [hasVideoStream]. *)
Definition stream_step (acc : VideoInfo * bool) (s : FfprobeStream) : VideoInfo * bool :=
  let '(i, hasVideo) := acc in
  let '(i1, hasVideo1) :=
    if String.eqb (codec_type s) "video" && negb (bool_decide (is_Some (vi_video_codec i)))
    then ({| vi_valid := vi_valid i; vi_corrupted := vi_corrupted i;
             vi_error := vi_error i; vi_duration := vi_duration i;
             vi_video_codec := nonempty (Text.toLowerCase <$> codec_name s);
             vi_audio_codec := vi_audio_codec i; vi_container := vi_container i;
             vi_width := default 0 (st_width s);
             vi_height := default 0 (st_height s);
             vi_file_size := vi_file_size i |}, true)
    else (i, hasVideo) in
  if String.eqb (codec_type s) "audio" && negb (bool_decide (is_Some (vi_audio_codec i1)))
  then ({| vi_valid := vi_valid i1; vi_corrupted := vi_corrupted i1;
           vi_error := vi_error i1; vi_duration := vi_duration i1;
           vi_video_codec := vi_video_codec i1;
           vi_audio_codec := nonempty (Text.toLowerCase <$> codec_name s);
           vi_container := vi_container i1;
           vi_width := vi_width i1; vi_height := vi_height i1;
           vi_file_size := vi_file_size i1 |}, hasVideo1)
  else (i1, hasVideo1).

Definition apply_format (i : VideoInfo) (f : option FfprobeFormat) : VideoInfo :=
  match f with
  | None => i
  | Some f =>
      {| vi_valid := vi_valid i; vi_corrupted := vi_corrupted i;
         vi_error := vi_error i;
         vi_duration := Num.round2 (default 0%Q (fmt_duration f));
         vi_video_codec := vi_video_codec i; vi_audio_codec := vi_audio_codec i;
         vi_container :=
           match nonempty (fmt_format_name f) with
           | Some n => Some (Text.toLowerCase (first_field n))
           | None => vi_container i
           end;
         vi_width := vi_width i; vi_height := vi_height i;
         vi_file_size := vi_file_size i |}
  end.

Definition getVideoInfo (fs : FileSystem) (ffprobe : string -> FfprobeOutcome)
    (filePath : string) : VideoInfo :=
  match Fs.statSize fs filePath with
  | None => set_corrupted blank_info "File not found"
  | Some size =>
      let info :=
        {| vi_valid := false; vi_corrupted := false; vi_error := None;
           vi_duration := 0%Q; vi_video_codec := None; vi_audio_codec := None;
           vi_container :=
             Some (Text.toLowerCase (Text.drop 1 (Path.extname filePath)));
           vi_width := 0; vi_height := 0; vi_file_size := size |} in
      match ffprobe filePath with
      | ProbeError m => set_corrupted info ("ffprobe failed: " +:+ m)
      | ProbeData None => set_corrupted info "No streams found in video"
      | ProbeData (Some md) =>
          match streams md with
          | None => set_corrupted info "No streams found in video"
          | Some ss =>
              let '(i, hasVideoStream) :=
                fold_left stream_step ss (apply_format info (format md), false) in
              if negb hasVideoStream
              then set_corrupted i "No video stream found in file"
              else if Qle_bool (vi_duration i) 0 || (vi_width i <=? 0) || (vi_height i <=? 0)
              then set_corrupted i "Invalid video metadata (zero duration or dimensions)"
              else {| vi_valid := true; vi_corrupted := vi_corrupted i;
                      vi_error := vi_error i; vi_duration := vi_duration i;
                      vi_video_codec := vi_video_codec i;
                      vi_audio_codec := vi_audio_codec i;
                      vi_container := vi_container i;
                      vi_width := vi_width i; vi_height := vi_height i;
                      vi_file_size := vi_file_size i |}
          end
      end
  end.

End Probe.

(** ** Single-quality transcode ([compressVideo] of [lib/ffmpeg.ts]) *)

(** How a run of the transcoder ends: with its [end] event or with its
    [error] event, and the size of the output file it wrote, if it wrote one. *)
Inductive TranscoderRun :=
| RunEnd (written : option Z)
| RunError (message : string) (written : option Z).

Record CompressOutcome := {
  co_success : bool;
  co_error : option string
}.

Module Ffmpeg.

(** [getHlsKeyframeInterval] of [lib/ffmpeg.ts]. *)
Definition getHlsKeyframeInterval (cfg : Config) : Z :=
  let duration := or_default (hls_time cfg) 2 in
  Z.min (Z.max duration 2) 3.

(** The [-force_key_frames] option [compressVideo] passes to the transcoder. *)
Definition force_key_frames_option (cfg : Config) : string :=
  "-force_key_frames expr:gte(t,n_forced*" +:+
  Text.Z_to_string (getHlsKeyframeInterval cfg) +:+ ")".

Definition after_run (fs : FileSystem) (outputPath : string) (written : option Z)
  : FileSystem :=
  match written with
  | Some sz => Fs.write fs outputPath sz
  | None => fs
  end.

Definition failure (e : string) : CompressOutcome :=
  {| co_success := false; co_error := Some e |}.

(** [compressVideo]: the outcome it resolves with and the file system it
    leaves.  The elapsed time of the outcome is left out. *)
Definition compressVideo (fs : FileSystem)
    (transcoder : string -> string -> string -> TranscoderRun)
    (inputPath outputPath quality : string) : CompressOutcome * FileSystem :=
  if negb (Fs.existsSync fs inputPath) then
    (failure ("Input file not found: " +:+ inputPath), fs)
  else
    match transcoder inputPath outputPath quality with
    | RunEnd written =>
        let fs1 := after_run fs outputPath written in
        match Fs.statSize fs1 outputPath with
        | Some size =>
            if size <? 1024 then (failure "Output file too small", fs1)
            else ({| co_success := true; co_error := None |}, fs1)
        | None => (failure "Output file not created", fs1)
        end
    | RunError message written =>
        let fs1 := after_run fs outputPath written in
        let fs2 :=
          if Fs.existsSync fs1 outputPath then
            match Fs.unlinkSync fs1 outputPath with
            | Some fs' => fs'
            | None => fs1             (* cleanup errors are ignored *)
            end
          else fs1 in
        (failure message, fs2)
    end.

End Ffmpeg.

(** ** Input validation ([validateInputVideo] of [lib/video-compressor.ts]) *)

Module VideoValidation.

Definition fail (errors : list string) (code : string) (vi : option VideoInfo)
  : ValidationResult :=
  {| vr_valid := false; vr_errors := errors; vr_error_code := Some code;
     vr_video_info := vi |}.

Definition validateInputVideo (fs : FileSystem) (ffprobe : string -> FfprobeOutcome)
    (filePath : string) : ValidationResult :=
  match Fs.statSize fs filePath with
  | None =>
      fail ["Video file not found: " +:+ filePath] ERROR_CODES.FILE_NOT_FOUND None
  | Some size =>
      let fileSizeMB := (inject_Z size / inject_Z (1024 * 1024))%Q in
      if Num.Qgtb fileSizeMB (inject_Z VIDEO_VALIDATION.MAX_SIZE_MB) then
        fail ["File size " +:+ Num.toFixed2 fileSizeMB +:+ " MB exceeds maximum " +:+
              Text.Z_to_string VIDEO_VALIDATION.MAX_SIZE_MB +:+ " MB"]
             ERROR_CODES.FILE_TOO_LARGE None
      else
        let videoInfo := Probe.getVideoInfo fs ffprobe filePath in
        if vi_corrupted videoInfo || negb (vi_valid videoInfo) then
          fail ["Video file is corrupted: " +:+ default "null" (vi_error videoInfo)]
               ERROR_CODES.VIDEO_CORRUPTED (Some videoInfo)
        else if Num.Qgtb (vi_duration videoInfo) (inject_Z VIDEO_VALIDATION.MAX_DURATION) then
          fail ["Duration " +:+ Num.to_string (vi_duration videoInfo) +:+
                "s exceeds maximum " +:+
                Text.Z_to_string VIDEO_VALIDATION.MAX_DURATION +:+ "s"]
               ERROR_CODES.DURATION_TOO_LONG (Some videoInfo)
        else
          match Probe.nonempty (vi_video_codec videoInfo) with
          | Some codec =>
              if negb (includes VIDEO_VALIDATION.ALLOWED_CODECS codec) then
                fail ["Codec '" +:+ codec +:+ "' not supported"]
                     ERROR_CODES.INVALID_CODEC (Some videoInfo)
              else
                {| vr_valid := true; vr_errors := []; vr_error_code := None;
                   vr_video_info := Some videoInfo |}
          | None =>
              {| vr_valid := true; vr_errors := []; vr_error_code := None;
                 vr_video_info := Some videoInfo |}
          end
  end.

End VideoValidation.

(** What the probe must report for validation to get past the corruption and
    codec checks. *)
Definition probe_acceptable (vi : VideoInfo) : Prop :=
  vi_valid vi = true /\ vi_corrupted vi = false /\
  match Probe.nonempty (vi_video_codec vi) with
  | Some codec => includes VIDEO_VALIDATION.ALLOWED_CODECS codec = true
  | None => True
  end.

Definition accepted (r : ValidationResult) : Prop :=
  vr_valid r = true /\ vr_error_code r = None.

Definition rejected_with (code : string) (r : ValidationResult) : Prop :=
  vr_valid r = false /\ vr_error_code r = Some code.

(** Sample environments: a file system holding one file, and a probe that
    reports one video stream. *)
Definition one_file (p : string) (size : Z) : FileSystem :=
  {| files := {[ p := size ]}; locked := ∅ |}.

Definition one_video_stream (d : Q) (fmt codec : string) : string -> FfprobeOutcome :=
  fun _ =>
    ProbeData (Some
      {| format := Some {| fmt_duration := Some d; fmt_format_name := Some fmt |};
         streams := Some [ {| codec_type := "video"; codec_name := Some codec;
                              st_width := Some 1280; st_height := Some 720 |} ] |}).

(** ** Byte-range serving ([app/content/[...path]/route.ts]) *)

Module ContentRoute.

Definition STREAMABLE_EXTENSIONS : list string := [".mp4"; ".webm"; ".ts"].
Definition CHUNK_SIZE : Z := 64 * 1024.

(** The longest prefix of digits, and what follows it: a greedy [\d*].  What
    follows in the pattern is never a digit, so the greedy choice is the only
    one that can match. *)
Fixpoint take_digits (s : string) : string * string :=
  match s with
  | EmptyString => (EmptyString, EmptyString)
  | String c s' =>
      if Text.is_digit c
      then let '(d, r) := take_digits s' in (String c d, r)
      else (EmptyString, s)
  end.

(** The range pattern (the text bytes= followed by digits, a dash and
    digits, each group of digits possibly empty) tried at the start of [s];
    the two groups. *)
Definition match_range_here (s : string) : option (string * string) :=
  if Text.startsWith "bytes=" s then
    let '(g1, r) := take_digits (Text.drop 6 s) in
    match r with
    | String "-"%char r' => let '(g2, _) := take_digits r' in Some (g1, g2)
    | _ => None
    end
  else None.

(** [rangeHeader.match] with the range pattern: the leftmost match. *)
Fixpoint match_range (s : string) : option (string * string) :=
  match match_range_here s with
  | Some m => Some m
  | None =>
      match s with
      | EmptyString => None
      | String _ s' => match_range s'
      end
  end.

Definition check_bounds (start end_ fileSize : Z) : option (Z * Z) :=
  if (start <? 0) || (end_ <? 0) || (end_ <? start) || (fileSize <=? start)
  then None
  else Some (start, Z.min end_ (fileSize - 1)).

Definition parseRangeHeader (rangeHeader : string) (fileSize : Z) : option (Z * Z) :=
  match match_range rangeHeader with
  | None => None
  | Some (g1, g2) =>
      let hasStart := negb (Text.is_empty g1) in
      let hasEnd := negb (Text.is_empty g2) in
      if negb hasStart && hasEnd then
        let suffixLength := Text.parseInt g2 in
        if suffixLength <=? 0 then None
        else check_bounds (Z.max 0 (fileSize - suffixLength)) (fileSize - 1) fileSize
      else if hasStart && negb hasEnd then
        check_bounds (Text.parseInt g1) (fileSize - 1) fileSize
      else if hasStart && hasEnd then
        check_bounds (Text.parseInt g1) (Text.parseInt g2) fileSize
      else None
  end.

Inductive Body :=
| RangeNotSatisfiable                (* the text 'Range Not Satisfiable' *)
| FileSlice (start end_ : Z)         (* createReadStream(path, {start, end}) *)
| WholeFile.                         (* the stream or buffer of the whole file *)

Record Response := {
  status : Z;
  content_length : option string;
  content_range : option string;
  body : Body
}.

(** [GET] from the point where the file is known to exist and to be a regular
    file of [size] bytes with extension [ext]; [range] is the request's Range
    header. *)
Definition GET_file (ext : string) (size : Z) (range : option string) : Response :=
  let isStreamable := includes STREAMABLE_EXTENSIONS ext in
  let ranged :=
    match range with
    | Some h => if negb (Text.is_empty h) && isStreamable then Some h else None
    | None => None
    end in
  match ranged with
  | Some rangeHeader =>
      match parseRangeHeader rangeHeader size with
      | None =>
          {| status := 416; content_length := None;
             content_range := Some ("bytes */" +:+ Text.Z_to_string size);
             body := RangeNotSatisfiable |}
      | Some (start, end_) =>
          let chunkSize := end_ - start + 1 in
          {| status := 206;
             content_length := Some (Text.Z_to_string chunkSize);
             content_range :=
               Some ("bytes " +:+ Text.Z_to_string start +:+ "-" +:+
                     Text.Z_to_string end_ +:+ "/" +:+ Text.Z_to_string size);
             body := FileSlice start end_ |}
      end
  | None =>
      {| status := 200; content_length := Some (Text.Z_to_string size);
         content_range := None; body := WholeFile |}
  end.

(** The Range header values of the three request shapes. *)
Definition range_explicit (a b : Z) : string :=
  "bytes=" +:+ Text.Z_to_string a +:+ "-" +:+ Text.Z_to_string b.
Definition range_open (a : Z) : string := "bytes=" +:+ Text.Z_to_string a +:+ "-".
Definition range_suffix (n : Z) : string := "bytes=-" +:+ Text.Z_to_string n.

End ContentRoute.

(** ** Job data and results ([types/index.ts]) *)

Inductive JobStatus := pending | processing | completed | failed | dead_letter.

Record VideoUrls := {
  url_compressed_480p : option string;
  url_compressed_360p : option string;
  url_compressed_240p : option string;
  url_compressed_144p : option string;
  url_thumbnail_webp : option string
}.

Record VideoPaths := {
  path_source : string;
  path_original : string;
  path_output_dir : string;
  path_compressed_480p : option string;
  path_compressed_360p : option string;
  path_compressed_240p : option string;
  path_compressed_144p : option string
}.

Record VideoStats := {
  original_size : Z;
  compressed_size : Z;
  compression_ratio : Q;
  stat_duration : Q;
  processing_time : Q
}.

Record HLSUrls := {
  hls_master : string;
  hls_480p : option string;
  hls_360p : option string;
  hls_240p : option string;
  hls_144p : option string
}.

Record ThumbnailStats := {
  ts_originalSize : Z;
  ts_compressedSize : Z;
  ts_compressionRatio : Q
}.

Record JobResult := {
  jr_success : bool;
  jr_message : option string;
  jr_error : option string;
  jr_urls : option VideoUrls;
  jr_paths : option VideoPaths;
  jr_stats : option VideoStats;
  jr_hlsUrls : option HLSUrls;
  jr_thumbnailUrl : option string;
  jr_thumbnailStats : option ThumbnailStats;
  jr_jobId : string;
  jr_postId : Z
}.

Record VideoJobData := {
  jobId : string;
  postId : Z;
  wpMediaPath : string;
  wpVideoUrl : string;
  wpThumbnailPath : option string;
  wpThumbnailUrl : option string;
  year : Z;
  month : Z
}.

Record WebhookPayload := {
  wp_jobId : string;
  wp_postId : Z;
  wp_status : JobStatus;
  wp_progress : Z;
  wp_stage : string;
  wp_result : option JobResult;
  wp_error : option string;
  wp_compressed480pUrl : option string;
  wp_compressed360pUrl : option string;
  wp_compressed240pUrl : option string;
  wp_compressed144pUrl : option string;
  wp_compressedThumbnailWebp : option string;
  wp_hlsMasterUrl : option string;
  wp_hls_480p : option string;
  wp_hls_360p : option string;
  wp_hls_240p : option string;
  wp_hls_144p : option string;
  wp_stats : option VideoStats;
  wp_thumbnail_stats : option ThumbnailStats
}.

(** ** Webhooks ([lib/webhook.ts]) *)

(** What one HTTP POST to the endpoint comes back with. *)
Inductive HttpReply :=
| HttpStatus (code : Z) (responseData : string)
| HttpFailure (message : string)
| HttpTimeout.

Record WebhookResponse := {
  wr_success : bool;
  wr_statusCode : option Z;
  wr_error : option string
}.

(** The two maps of the [WebhookThrottler] instance. *)
Record Throttler := {
  lastProgress : gmap string Z;
  lastSentTime : gmap string Z
}.

(** The state the webhook module acts on: its throttler, and the POST
    requests issued so far, oldest first. *)
Record WebhookState := {
  throttler : Throttler;
  posts : list WebhookPayload
}.

Module Webhook.

Definition WEBHOOK_MAX_RETRIES : nat := 3.
Definition WEBHOOK_RETRY_DELAY : Z := 2000.

(** [WebhookThrottler.shouldSend]; [now] is [Date.now()].  A missing entry
    reads as 0, as [get(jobId) || 0] does. *)
Definition shouldSend (t : Throttler) (now : Z) (jobId : string) (newProgress : Z)
  : bool * Throttler :=
  let lastProg := or_default (default 0 (lastProgress t !! jobId)) 0 in
  let lastTime := or_default (default 0 (lastSentTime t !! jobId)) 0 in
  if (newProgress - lastProg >=? 5)
     || (now - lastTime >? 3000)
     || (newProgress =? 100)
     || ((newProgress =? 0) && (lastProg =? 0))
  then (true, {| lastProgress := <[jobId := newProgress]> (lastProgress t);
                 lastSentTime := <[jobId := now]> (lastSentTime t) |})
  else (false, t).

(** [WebhookThrottler.cleanup]. *)
Definition cleanup (t : Throttler) (jobId : string) : Throttler :=
  {| lastProgress := delete jobId (lastProgress t);
     lastSentTime := delete jobId (lastSentTime t) |}.

Fixpoint take (n : nat) (s : string) : string :=
  match n, s with
  | O, _ => EmptyString
  | S _, EmptyString => EmptyString
  | S n', String c s' => String c (take n' s')
  end.

(** [sendWebhookOnce]: the reply of the endpoint turned into a response. *)
Definition sendWebhookOnce (reply : HttpReply) : WebhookResponse :=
  match reply with
  | HttpStatus statusCode responseData =>
      if (200 <=? statusCode) && (statusCode <? 300)
      then {| wr_success := true; wr_statusCode := Some statusCode; wr_error := None |}
      else {| wr_success := false; wr_statusCode := Some statusCode;
              wr_error := Some ("HTTP " +:+ Text.Z_to_string statusCode +:+ ": " +:+
                                take 100 responseData) |}
  | HttpFailure m =>
      {| wr_success := false; wr_statusCode := None; wr_error := Some m |}
  | HttpTimeout =>
      {| wr_success := false; wr_statusCode := None; wr_error := Some "Request timeout" |}
  end.

(** The retry loop of [sendWebhook], with [remaining] attempts left.  The
    endpoint's reply may depend on how many requests it has seen. *)
Fixpoint send_attempts (endpoint : nat -> WebhookPayload -> HttpReply)
    (remaining : nat) (lastError : option string)
    (payload : WebhookPayload) (sent : list WebhookPayload)
  : WebhookResponse * list WebhookPayload :=
  match remaining with
  | O =>
      ({| wr_success := false; wr_statusCode := None;
          wr_error := Some ("Failed after 3 attempts: " +:+ default "undefined" lastError) |},
       sent)
  | S k =>
      let result := sendWebhookOnce (endpoint (length sent) payload) in
      let sent' := sent ++ [payload] in
      if wr_success result then (result, sent')
      else send_attempts endpoint k (wr_error result) payload sent'
  end.

(** [sendWebhook] with the configured endpoint URL. *)
Definition sendWebhook (cfg : Config) (endpoint : nat -> WebhookPayload -> HttpReply)
    (payload : WebhookPayload) (st : WebhookState) : WebhookResponse * WebhookState :=
  if Text.is_empty (wordpress_webhook_url cfg)
  then ({| wr_success := true; wr_statusCode := None; wr_error := None |}, st)
  else
    let '(r, sent) :=
      send_attempts endpoint WEBHOOK_MAX_RETRIES None payload (posts st) in
    (r, {| throttler := throttler st; posts := sent |}).

Definition basic_payload (jobId : string) (postId : Z) (status : JobStatus)
    (progress : Z) (stage : string) : WebhookPayload :=
  {| wp_jobId := jobId; wp_postId := postId; wp_status := status;
     wp_progress := progress; wp_stage := stage;
     wp_result := None; wp_error := None;
     wp_compressed480pUrl := None; wp_compressed360pUrl := None;
     wp_compressed240pUrl := None; wp_compressed144pUrl := None;
     wp_compressedThumbnailWebp := None; wp_hlsMasterUrl := None;
     wp_hls_480p := None; wp_hls_360p := None; wp_hls_240p := None;
     wp_hls_144p := None; wp_stats := None; wp_thumbnail_stats := None |}.

(** [sendProgressUpdate]. *)
Definition sendProgressUpdate (cfg : Config) (endpoint : nat -> WebhookPayload -> HttpReply)
    (now : Z) (jobId : string) (postId : Z) (status : JobStatus) (progress : Z)
    (stage : string) (st : WebhookState) : WebhookResponse * WebhookState :=
  let '(ok, t') := shouldSend (throttler st) now jobId progress in
  let st' := {| throttler := t'; posts := posts st |} in
  if negb ok
  then ({| wr_success := true; wr_statusCode := None; wr_error := None |}, st')
  else sendWebhook cfg endpoint (basic_payload jobId postId status progress stage) st'.

Definition completion_payload (jobId : string) (postId : Z) (result : JobResult)
  : WebhookPayload :=
  let urls := if jr_success result then jr_urls result else None in
  let hls := if jr_success result then jr_hlsUrls result else None in
  {| wp_jobId := jobId; wp_postId := postId;
     wp_status := if jr_success result then completed else failed;
     wp_progress := 100; wp_stage := "complete";
     wp_result := Some result; wp_error := None;
     wp_compressed480pUrl := urls ≫= url_compressed_480p;
     wp_compressed360pUrl := urls ≫= url_compressed_360p;
     wp_compressed240pUrl := urls ≫= url_compressed_240p;
     wp_compressed144pUrl := urls ≫= url_compressed_144p;
     wp_compressedThumbnailWebp :=
       urls ≫= (fun u =>
         match Probe.nonempty (url_thumbnail_webp u) with
         | Some t => Some t
         | None => jr_thumbnailUrl result
         end);
     wp_hlsMasterUrl := hls_master <$> hls;
     wp_hls_480p := hls ≫= hls_480p;
     wp_hls_360p := hls ≫= hls_360p;
     wp_hls_240p := hls ≫= hls_240p;
     wp_hls_144p := hls ≫= hls_144p;
     wp_stats := if jr_success result then jr_stats result else None;
     wp_thumbnail_stats :=
       if jr_success result then jr_thumbnailStats result else None |}.

(** [sendCompletionWebhook]. *)
Definition sendCompletionWebhook (cfg : Config) (endpoint : nat -> WebhookPayload -> HttpReply)
    (jobId : string) (postId : Z) (result : JobResult) (st : WebhookState)
  : WebhookResponse * WebhookState :=
  let st' := {| throttler := cleanup (throttler st) jobId; posts := posts st |} in
  sendWebhook cfg endpoint (completion_payload jobId postId result) st'.

Definition failure_payload (jobId : string) (postId : Z) (error : string)
  : WebhookPayload :=
  {| wp_jobId := jobId; wp_postId := postId; wp_status := failed;
     wp_progress := 0; wp_stage := "error";
     wp_result := None; wp_error := Some error;
     wp_compressed480pUrl := None; wp_compressed360pUrl := None;
     wp_compressed240pUrl := None; wp_compressed144pUrl := None;
     wp_compressedThumbnailWebp := None; wp_hlsMasterUrl := None;
     wp_hls_480p := None; wp_hls_360p := None; wp_hls_240p := None;
     wp_hls_144p := None; wp_stats := None; wp_thumbnail_stats := None |}.

(** [sendFailureWebhook]. *)
Definition sendFailureWebhook (cfg : Config) (endpoint : nat -> WebhookPayload -> HttpReply)
    (jobId : string) (postId : Z) (error : string) (st : WebhookState)
  : WebhookResponse * WebhookState :=
  let st' := {| throttler := cleanup (throttler st) jobId; posts := posts st |} in
  sendWebhook cfg endpoint (failure_payload jobId postId error) st'.

End Webhook.

(** ** HLS packaging ([lib/hls-converter.ts]) *)

Record HLSQuality := {
  hq_resolution : string;
  hq_bandwidth : Z;
  hq_avg_bandwidth : Z;
  hq_codecs : string
}.

(** [HLS_QUALITIES] of [types/index.ts]. *)
Definition HLS_QUALITIES : gmap string HLSQuality :=
  list_to_map
    [ ("480p", {| hq_resolution := "854x480"; hq_bandwidth := 1300000;
                  hq_avg_bandwidth := 900000; hq_codecs := "avc1.4d001f,mp4a.40.2" |});
      ("360p", {| hq_resolution := "640x360"; hq_bandwidth := 850000;
                  hq_avg_bandwidth := 600000; hq_codecs := "avc1.4d001f,mp4a.40.2" |});
      ("240p", {| hq_resolution := "426x240"; hq_bandwidth := 550000;
                  hq_avg_bandwidth := 400000; hq_codecs := "avc1.4d0015,mp4a.40.2" |});
      ("144p", {| hq_resolution := "256x144"; hq_bandwidth := 325000;
                  hq_avg_bandwidth := 250000; hq_codecs := "avc1.4d000d,mp4a.40.2" |}) ].

Record HLSConversionResult := {
  hc_success : bool;
  hc_hls_master_url : option string;
  hc_hls_urls : option HLSUrls;
  hc_hls_dir : option string;
  hc_qualities : option (list string);
  hc_segment_duration : option Z;
  hc_error : option string
}.

(** What [convertToHLS] of [lib/ffmpeg.ts] resolves with. *)
Record SegmentResult := {
  sr_success : bool;
  sr_playlist : option string;
  sr_segmentCount : option Z;
  sr_error : option string
}.

Record ConvertedQuality := {
  cq_playlist : string;
  cq_segmentCount : Z;
  cq_mp4Path : string
}.

(** The result of [generateMasterPlaylist]; [mp_content] is the text handed
    to [writeFileSync] for [mp_path], and the write is taken to succeed. *)
Record MasterPlaylistResult := {
  mp_success : bool;
  mp_path : option string;
  mp_content : option string;
  mp_error : option string
}.

Module HlsConverter.

Definition nl : string := String "010"%char EmptyString.
Definition dq : string := String "034"%char EmptyString.

(** [getHlsSegmentDuration]. *)
Definition getHlsSegmentDuration (cfg : Config) : Z :=
  let duration := or_default (hls_time cfg) 2 in
  Z.min (Z.max duration 2) 3.

Definition HLS_REENCODE_SEGMENTS : bool := false.

Definition qualities : list string := ["480p"; "360p"; "240p"; "144p"].
Definition qualityOrder : list string := ["144p"; "240p"; "360p"; "480p"].

(** [paths[`compressed_${quality}`]]; a quality outside the four has no such
    field. *)
Definition compressed_path (paths : VideoPaths) (quality : string) : option string :=
  if String.eqb quality "480p" then path_compressed_480p paths
  else if String.eqb quality "360p" then path_compressed_360p paths
  else if String.eqb quality "240p" then path_compressed_240p paths
  else if String.eqb quality "144p" then path_compressed_144p paths
  else None.

(** [s.padStart(n, '0')]. *)
Definition padStart0 (n : nat) (s : string) : string :=
  fold_right (fun _ acc => "0" +:+ acc) s (seq 0 (n - String.length s)).

Fixpoint strip_trailing_slash (s : string) : string :=
  match s with
  | EmptyString => EmptyString
  | String c EmptyString => if Ascii.eqb c "/"%char then EmptyString else s
  | String c s' => String c (strip_trailing_slash s')
  end.

(** [buildHLSUrl]. *)
Definition buildHLSUrl (cfg : Config) (postId year month : Z) (filename : string) : string :=
  strip_trailing_slash (base_url cfg) +:+ "/content/" +:+
  padStart0 4 (Text.Z_to_string year) +:+ "/" +:+
  padStart0 2 (Text.Z_to_string month) +:+ "/" +:+
  Text.Z_to_string postId +:+ "/hls/" +:+ filename.

(** The resolution advertised for a variant: that of the encoded file when
    the probe gives one, the table's otherwise. *)
Definition actualResolution (fs : FileSystem) (ffprobe : string -> FfprobeOutcome)
    (hlsConfig : HLSQuality) (qualityData : ConvertedQuality) : string :=
  let videoInfo := Probe.getVideoInfo fs ffprobe (cq_mp4Path qualityData) in
  if vi_valid videoInfo && (0 <? vi_width videoInfo) && (0 <? vi_height videoInfo)
  then Text.Z_to_string (vi_width videoInfo) +:+ "x" +:+
       Text.Z_to_string (vi_height videoInfo)
  else hq_resolution hlsConfig.

(** One turn of the loop over [qualityOrder]: [content] grows by the two
    lines of the variant, or stays as it is when the quality was not
    converted.  A missing table entry would be a thrown TypeError. *)
Definition master_step (fs : FileSystem) (ffprobe : string -> FfprobeOutcome)
    (convertedQualities : gmap string ConvertedQuality)
    (acc : Outcome string) (quality : string) : Outcome string :=
  match acc with
  | Threw m => Threw m
  | Returned content =>
      match convertedQualities !! quality with
      | None => Returned content
      | Some qualityData =>
          match HLS_QUALITIES !! quality with
          | None => Threw "Cannot read properties of undefined (reading 'resolution')"
          | Some hlsConfig =>
              let content1 := content +:+ "#EXT-X-STREAM-INF:BANDWIDTH=" +:+
                              Text.Z_to_string (hq_bandwidth hlsConfig) +:+ "," in
              let content2 := content1 +:+ "AVERAGE-BANDWIDTH=" +:+
                              Text.Z_to_string (hq_avg_bandwidth hlsConfig) +:+ "," in
              let content3 := content2 +:+ "RESOLUTION=" +:+
                              actualResolution fs ffprobe hlsConfig qualityData +:+ "," in
              let content4 := content3 +:+ "CODECS=" +:+ dq +:+
                              hq_codecs hlsConfig +:+ dq +:+ "," in
              let content5 := content4 +:+ "NAME=" +:+ dq +:+ quality +:+ dq +:+ nl in
              Returned (content5 +:+ quality +:+ ".m3u8" +:+ nl)
          end
      end
  end.

(** [generateMasterPlaylist]. *)
Definition generateMasterPlaylist (fs : FileSystem) (ffprobe : string -> FfprobeOutcome)
    (hlsDir : string) (convertedQualities : gmap string ConvertedQuality)
  : MasterPlaylistResult :=
  let masterPath := hlsDir +:+ "/master.m3u8" in
  let content0 := ("#EXTM3U" +:+ nl) +:+ ("#EXT-X-VERSION:3" +:+ nl) +:+ nl in
  match fold_left (master_step fs ffprobe convertedQualities) qualityOrder
          (Returned content0) with
  | Returned content =>
      {| mp_success := true; mp_path := Some masterPath;
         mp_content := Some content; mp_error := None |}
  | Threw m =>
      {| mp_success := false; mp_path := None; mp_content := None;
         mp_error := Some m |}
  end.

(** One turn of the loop over [qualities] in [convertToHLSStreaming]: the
    converted qualities and the list of available ones. *)
Definition convert_step (fs : FileSystem)
    (convertToHLS : string -> string -> string -> Z -> bool -> SegmentResult)
    (paths : VideoPaths) (hlsDir : string) (segmentDuration : Z)
    (acc : gmap string ConvertedQuality * list string) (quality : string)
  : gmap string ConvertedQuality * list string :=
  let '(convertedQualities, availableQualities) := acc in
  match Probe.nonempty (compressed_path paths quality) with
  | None => acc
  | Some mp4Path =>
      if negb (Fs.existsSync fs mp4Path) then acc
      else
        let result :=
          convertToHLS mp4Path hlsDir quality segmentDuration HLS_REENCODE_SEGMENTS in
        match sr_success result, Probe.nonempty (sr_playlist result),
              sr_segmentCount result with
        | true, Some playlist, Some segmentCount =>
            if segmentCount =? 0 then acc
            else (<[quality := {| cq_playlist := playlist;
                                  cq_segmentCount := segmentCount;
                                  cq_mp4Path := mp4Path |}]> convertedQualities,
                  availableQualities ++ [quality])
        | _, _, _ => acc
        end
  end.

Definition converted (fs : FileSystem)
    (convertToHLS : string -> string -> string -> Z -> bool -> SegmentResult)
    (cfg : Config) (paths : VideoPaths) : gmap string ConvertedQuality * list string :=
  fold_left
    (convert_step fs convertToHLS paths (path_output_dir paths +:+ "/hls")
       (getHlsSegmentDuration cfg))
    qualities (∅, []).

Definition hls_failure (m : string) : HLSConversionResult :=
  {| hc_success := false; hc_hls_master_url := None; hc_hls_urls := None;
     hc_hls_dir := None; hc_qualities := None; hc_segment_duration := None;
     hc_error := Some m |}.

(** [convertToHLSStreaming]: its result and the master playlist it wrote. *)
Definition convertToHLSStreaming (fs : FileSystem) (ffprobe : string -> FfprobeOutcome)
    (convertToHLS : string -> string -> string -> Z -> bool -> SegmentResult)
    (cfg : Config) (paths : VideoPaths) (postId year month : Z)
  : HLSConversionResult * option string :=
  let hlsDir := path_output_dir paths +:+ "/hls" in
  let '(convertedQualities, availableQualities) := converted fs convertToHLS cfg paths in
  match availableQualities with
  | [] => (hls_failure "No quality levels were successfully converted to HLS", None)
  | _ =>
      let masterResult := generateMasterPlaylist fs ffprobe hlsDir convertedQualities in
      if negb (mp_success masterResult) then
        (hls_failure ("Failed to generate master playlist: " +:+
                      default "undefined" (mp_error masterResult)), None)
      else
        let hlsMasterUrl := buildHLSUrl cfg postId year month "master.m3u8" in
        let url q :=
          if includes availableQualities q
          then Some (buildHLSUrl cfg postId year month (q +:+ ".m3u8")) else None in
        ({| hc_success := true; hc_hls_master_url := Some hlsMasterUrl;
            hc_hls_urls := Some {| hls_master := hlsMasterUrl;
                                   hls_480p := url "480p"; hls_360p := url "360p";
                                   hls_240p := url "240p"; hls_144p := url "144p" |};
            hc_hls_dir := Some hlsDir; hc_qualities := Some availableQualities;
            hc_segment_duration := Some (getHlsSegmentDuration cfg);
            hc_error := None |},
         mp_content masterResult)
  end.

End HlsConverter.

(** ** The job handler ([workers/compression-worker.ts]) *)

Record ImageCompressionResult := {
  ic_success : bool;
  ic_publicUrl : option string;
  ic_originalSize : option Z;
  ic_compressedSize : option Z;
  ic_compressionRatio : option Q;
  ic_error : option string
}.

(** How a promise that is awaited ends: it settles, by resolving or by
    rejecting, or it never does. *)
Inductive Promise (A : Type) :=
| Settles (outcome : Outcome A)
| Pending.
Arguments Settles {A} outcome.
Arguments Pending {A}.

(** The three pipeline stages the handler awaits.  [compressVideoJob] comes
    with the progress callbacks it makes, in the order in which it makes
    them; it calls them and does not await them. *)
Record Stages := {
  run_compressVideoJob : VideoJobData -> list (Z * string) * Promise JobResult;
  run_convertToHLSStreaming : VideoPaths -> Z -> Z -> Z -> Promise HLSConversionResult;
  run_compressThumbnail :
    Z -> Z -> Z -> string -> option string -> Promise ImageCompressionResult
}.

Record Env := {
  env_cfg : Config;
  env_endpoint : nat -> WebhookPayload -> HttpReply;
  env_clock : nat -> Z;                    (* the n-th reading of [Date.now()] *)
  env_stages : Stages
}.

(** An asynchronous function of the handler, as the steps it takes on the
    state it shares with the others and what follows each of them.  A step
    runs without interruption; between two steps of one function, that is
    while it awaits, steps of the others may run.

    - [WriteProgress]: the progress value reaches the job ([updateJobProgress]);
    - [ShouldSend]: [webhookThrottler.shouldSend], which reads the clock;
    - [Cleanup]: [webhookThrottler.cleanup];
    - [Post]: one [sendWebhookOnce];
    - [Start]: a progress callback is called and not awaited;
    - [Never]: the function awaits a promise that never settles. *)
Inductive Prog (A : Type) : Type :=
| Ret (a : A)
| Throw (message : string)
| Never
| WriteProgress (percent : Z) (next : Prog A)
| ShouldSend (jobId : string) (percent : Z) (next : bool -> Prog A)
| Cleanup (jobId : string) (next : Prog A)
| Post (payload : WebhookPayload) (next : WebhookResponse -> Prog A)
| Start (percent : Z) (stage : string) (next : Prog A).
Arguments Ret {A} a.
Arguments Throw {A} message.
Arguments Never {A}.
Arguments WriteProgress {A} percent next.
Arguments ShouldSend {A} jobId percent next.
Arguments Cleanup {A} jobId next.
Arguments Post {A} payload next.
Arguments Start {A} percent stage next.

(** What the handler acts on: the webhook module's state, the progress values
    written to the broker (oldest first), how often the clock was read, and
    the progress callbacks that were started, each with what is left of it. *)
Record WorkerState := {
  webhook : WebhookState;
  progress_updates : list Z;
  clock_reads : nat;
  detached : list (Prog unit)
}.

Module Worker.

Fixpoint bind {A B : Type} (c : Prog A) (k : A -> Prog B) : Prog B :=
  match c with
  | Ret a => k a
  | Throw m => Throw m
  | Never => Never
  | WriteProgress p next => WriteProgress p (bind next k)
  | ShouldSend j p next => ShouldSend j p (fun ok => bind (next ok) k)
  | Cleanup j next => Cleanup j (bind next k)
  | Post w next => Post w (fun r => bind (next r) k)
  | Start p s next => Start p s (bind next k)
  end.

(** [try { c } catch (error) { h(error.message) }]. *)
Fixpoint try_catch {A : Type} (c : Prog A) (h : string -> Prog A) : Prog A :=
  match c with
  | Ret a => Ret a
  | Throw m => h m
  | Never => Never
  | WriteProgress p next => WriteProgress p (try_catch next h)
  | ShouldSend j p next => ShouldSend j p (fun ok => try_catch (next ok) h)
  | Cleanup j next => Cleanup j (try_catch next h)
  | Post w next => Post w (fun r => try_catch (next r) h)
  | Start p s next => Start p s (try_catch next h)
  end.

(** [await p]. *)
Definition await {A : Type} (p : Promise A) : Prog A :=
  match p with
  | Settles (Returned a) => Ret a
  | Settles (Threw m) => Throw m
  | Pending => Never
  end.

Notation "x <- c ;; k" := (bind c (fun x => k))
  (at level 63, c at next level, right associativity).
Notation "c ;;; k" := (bind c (fun _ => k))
  (at level 63, right associativity).

(** [updateJobProgress] of [lib/queue.ts]: the value is written to the job; a
    failure to reach the broker is logged and swallowed there.  The broker
    the job was claimed from is taken to answer. *)
Definition updateJobProgress (jobId : string) (percent : Z) : Prog unit :=
  WriteProgress percent (Ret tt).

(** The retry loop of [sendWebhook], one step for each request. *)
Fixpoint send_attempts (remaining : nat) (lastError : option string)
    (payload : WebhookPayload) : Prog WebhookResponse :=
  match remaining with
  | O =>
      Ret {| wr_success := false; wr_statusCode := None;
             wr_error := Some ("Failed after 3 attempts: " +:+
                               default "undefined" lastError) |}
  | S k =>
      Post payload (fun result =>
        if wr_success result then Ret result
        else send_attempts k (wr_error result) payload)
  end.

Definition sendWebhook (cfg : Config) (payload : WebhookPayload) : Prog WebhookResponse :=
  if Text.is_empty (wordpress_webhook_url cfg)
  then Ret {| wr_success := true; wr_statusCode := None; wr_error := None |}
  else send_attempts Webhook.WEBHOOK_MAX_RETRIES None payload.

Definition sendProgressUpdate (e : Env) (jobId : string) (postId : Z)
    (status : JobStatus) (percent : Z) (stage : string) : Prog WebhookResponse :=
  ShouldSend jobId percent (fun ok =>
    if negb ok
    then Ret {| wr_success := true; wr_statusCode := None; wr_error := None |}
    else sendWebhook (env_cfg e) (Webhook.basic_payload jobId postId status percent stage)).

Definition sendCompletionWebhook (e : Env) (jobId : string) (postId : Z)
    (result : JobResult) : Prog WebhookResponse :=
  Cleanup jobId (sendWebhook (env_cfg e) (Webhook.completion_payload jobId postId result)).

Definition sendFailureWebhook (e : Env) (jobId : string) (postId : Z)
    (error : string) : Prog WebhookResponse :=
  Cleanup jobId (sendWebhook (env_cfg e) (Webhook.failure_payload jobId postId error)).

(** The [progressCallback] closure of [processJob]. *)
Definition progressCallback (e : Env) (job : VideoJobData) (percent : Z) (stage : string)
  : Prog unit :=
  updateJobProgress (jobId job) percent ;;;
  sendProgressUpdate e (jobId job) (postId job) processing percent stage ;;;
  Ret tt.

(** The calls of the callback that a stage makes before it settles. *)
Fixpoint start_callbacks {A : Type} (events : list (Z * string)) (next : Prog A) : Prog A :=
  match events with
  | [] => next
  | (percent, stage) :: rest => Start percent stage (start_callbacks rest next)
  end.

Definition set_hlsUrls (r : JobResult) (h : HLSUrls) : JobResult :=
  {| jr_success := jr_success r; jr_message := jr_message r; jr_error := jr_error r;
     jr_urls := jr_urls r; jr_paths := jr_paths r; jr_stats := jr_stats r;
     jr_hlsUrls := Some h; jr_thumbnailUrl := jr_thumbnailUrl r;
     jr_thumbnailStats := jr_thumbnailStats r;
     jr_jobId := jr_jobId r; jr_postId := jr_postId r |}.

Definition empty_urls : VideoUrls :=
  {| url_compressed_480p := None; url_compressed_360p := None;
     url_compressed_240p := None; url_compressed_144p := None;
     url_thumbnail_webp := None |}.

Definition set_thumbnail (r : JobResult) (t : ImageCompressionResult) (publicUrl : string)
  : JobResult :=
  let u := default empty_urls (jr_urls r) in
  {| jr_success := jr_success r; jr_message := jr_message r; jr_error := jr_error r;
     jr_urls := Some {| url_compressed_480p := url_compressed_480p u;
                        url_compressed_360p := url_compressed_360p u;
                        url_compressed_240p := url_compressed_240p u;
                        url_compressed_144p := url_compressed_144p u;
                        url_thumbnail_webp := Some publicUrl |};
     jr_paths := jr_paths r; jr_stats := jr_stats r;
     jr_hlsUrls := jr_hlsUrls r; jr_thumbnailUrl := Some publicUrl;
     jr_thumbnailStats :=
       Some {| ts_originalSize := default 0 (ic_originalSize t);
               ts_compressedSize := default 0 (ic_compressedSize t);
               ts_compressionRatio := default 0%Q (ic_compressionRatio t) |};
     jr_jobId := jr_jobId r; jr_postId := jr_postId r |}.

Definition failure_result (job : VideoJobData) (errorMessage : string) : JobResult :=
  {| jr_success := false; jr_message := None; jr_error := Some errorMessage;
     jr_urls := None; jr_paths := None; jr_stats := None; jr_hlsUrls := None;
     jr_thumbnailUrl := None; jr_thumbnailStats := None;
     jr_jobId := jobId job; jr_postId := postId job |}.

(** The HLS step of [processJob]. *)
Definition hls_step (e : Env) (job : VideoJobData) (r : JobResult) : Prog JobResult :=
  match jr_paths r with
  | None => Ret r
  | Some paths =>
      updateJobProgress (jobId job) 75 ;;;
      sendProgressUpdate e (jobId job) (postId job) processing 75 "hls_conversion" ;;;
      hlsResult <- await (run_convertToHLSStreaming (env_stages e) paths
                            (postId job) (year job) (month job)) ;;
      match hc_success hlsResult, hc_hls_urls hlsResult with
      | true, Some h => Ret (set_hlsUrls r h)
      | _, _ => Ret r
      end
  end.

(** The thumbnail step of [processJob]. *)
Definition thumbnail_step (e : Env) (job : VideoJobData) (r : JobResult) : Prog JobResult :=
  match Probe.nonempty (wpThumbnailUrl job) with
  | None => Ret r
  | Some thumbnailUrl =>
      updateJobProgress (jobId job) 80 ;;;
      sendProgressUpdate e (jobId job) (postId job) processing 80
        "thumbnail_compression" ;;;
      t <- await (run_compressThumbnail (env_stages e) (postId job) (year job)
                    (month job) thumbnailUrl (wpThumbnailPath job)) ;;
      match ic_success t, Probe.nonempty (ic_publicUrl t) with
      | true, Some publicUrl => Ret (set_thumbnail r t publicUrl)
      | _, _ => Ret r
      end
  end.

(** [processJob]. *)
Definition processJob (e : Env) (job : VideoJobData) : Prog JobResult :=
  try_catch
    (updateJobProgress (jobId job) 0 ;;;
     sendProgressUpdate e (jobId job) (postId job) processing 0 "queued" ;;;
     let '(events, outcome) := run_compressVideoJob (env_stages e) job in
     start_callbacks events
       (compressionResult <- await outcome ;;
        if negb (jr_success compressionResult) then
          sendFailureWebhook e (jobId job) (postId job)
            (default "Compression failed"
               (Probe.nonempty (jr_error compressionResult))) ;;;
          Ret compressionResult
        else
          r1 <- hls_step e job compressionResult ;;
          r2 <- thumbnail_step e job r1 ;;
          updateJobProgress (jobId job) 100 ;;;
          sendProgressUpdate e (jobId job) (postId job) completed 100 "complete" ;;;
          sendCompletionWebhook e (jobId job) (postId job) r2 ;;;
          Ret r2))
    (fun errorMessage =>
       sendFailureWebhook e (jobId job) (postId job) errorMessage ;;;
       Ret (failure_result job errorMessage)).

(** *** Running the steps *)

Definition write_progress (percent : Z) (st : WorkerState) : WorkerState :=
  {| webhook := webhook st;
     progress_updates := progress_updates st ++ [percent];
     clock_reads := clock_reads st;
     detached := detached st |}.

Definition should_send (e : Env) (jobId : string) (percent : Z) (st : WorkerState)
  : bool * WorkerState :=
  let now := env_clock e (clock_reads st) in
  let '(ok, t) := Webhook.shouldSend (throttler (webhook st)) now jobId percent in
  (ok, {| webhook := {| throttler := t; posts := posts (webhook st) |};
          progress_updates := progress_updates st;
          clock_reads := S (clock_reads st);
          detached := detached st |}).

Definition cleanup (jobId : string) (st : WorkerState) : WorkerState :=
  {| webhook := {| throttler := Webhook.cleanup (throttler (webhook st)) jobId;
                   posts := posts (webhook st) |};
     progress_updates := progress_updates st;
     clock_reads := clock_reads st;
     detached := detached st |}.

(** One request: the endpoint's reply may depend on how many requests it has
    seen. *)
Definition post (e : Env) (payload : WebhookPayload) (st : WorkerState)
  : WebhookResponse * WorkerState :=
  let sent := posts (webhook st) in
  (Webhook.sendWebhookOnce (env_endpoint e (length sent) payload),
   {| webhook := {| throttler := throttler (webhook st); posts := sent ++ [payload] |};
      progress_updates := progress_updates st;
      clock_reads := clock_reads st;
      detached := detached st |}).

Definition set_task (i : nat) (t : Prog unit) (st : WorkerState) : WorkerState :=
  {| webhook := webhook st; progress_updates := progress_updates st;
     clock_reads := clock_reads st;
     detached := <[i := t]> (detached st) |}.

Definition start (t : Prog unit) (st : WorkerState) : WorkerState :=
  {| webhook := webhook st; progress_updates := progress_updates st;
     clock_reads := clock_reads st;
     detached := detached st ++ [t] |}.

(** One step of the [i]-th started callback, if there is one and it has a
    step left.  [spawn] is the callback the stage was given. *)
Definition step_detached (e : Env) (spawn : Z -> string -> Prog unit) (i : nat)
    (st : WorkerState) : WorkerState :=
  match detached st !! i with
  | None => st
  | Some t =>
      match t with
      | Ret _ | Throw _ | Never => st
      | WriteProgress p next => set_task i next (write_progress p st)
      | ShouldSend j p next =>
          let '(ok, st') := should_send e j p st in set_task i (next ok) st'
      | Cleanup j next => set_task i next (cleanup j st)
      | Post w next => let '(r, st') := post e w st in set_task i (next r) st'
      | Start p s next => start (spawn p s) (set_task i next st)
      end
  end.

(** The steps the started callbacks take while the function awaits: [turns]
    names, in order, the callback that takes each step. *)
Definition interfere (e : Env) (spawn : Z -> string -> Prog unit) (turns : list nat)
    (st : WorkerState) : WorkerState :=
  fold_left (fun st i => step_detached e spawn i st) turns st.

(** The function run to its end.  Before its [n]-th step, and before it ends,
    the started callbacks take the steps [sched n]: every interleaving of the
    function with the callbacks is the run for some [sched].  The started
    callbacks that have steps left when the function ends stay in the state. *)
Fixpoint exec {A : Type} (e : Env) (spawn : Z -> string -> Prog unit)
    (sched : nat -> list nat) (n : nat) (main : Prog A) (st : WorkerState)
  : Promise A * WorkerState :=
  let st := interfere e spawn (sched n) st in
  match main with
  | Ret a => (Settles (Returned a), st)
  | Throw m => (Settles (Threw m), st)
  | Never => (Pending, st)
  | WriteProgress p next => exec e spawn sched (S n) next (write_progress p st)
  | ShouldSend j p next =>
      let '(ok, st') := should_send e j p st in exec e spawn sched (S n) (next ok) st'
  | Cleanup j next => exec e spawn sched (S n) next (cleanup j st)
  | Post w next =>
      let '(r, st') := post e w st in exec e spawn sched (S n) (next r) st'
  | Start p s next => exec e spawn sched (S n) next (start (spawn p s) st)
  end.

(** No callback takes a step. *)
Definition alone : nat -> list nat := fun _ => [].

(** The processor function given to [new Worker(...)], for the attempt that
    follows [attemptsMade] others; [sched] gives the interleaving of each
    attempt. *)
Definition processor (e : Env) (sched : nat -> nat -> list nat) (isShuttingDown : bool)
    (job : VideoJobData) (attemptsMade : nat) (st : WorkerState)
  : Promise JobResult * WorkerState :=
  exec e (progressCallback e job) (sched attemptsMade) 0
    (if isShuttingDown then Throw "Worker is shutting down" else processJob e job) st.

End Worker.

(** ** The broker

    The queue is BullMQ, a library outside the repository.  The repository
    fixes the job options ([enqueueJob] of [lib/queue.ts]) and the processor;
    what the library does with the processor's outcome is its documented
    contract: a processor that returns completes the job with the returned
    value; a processor that throws fails the attempt, and the job is delayed
    for another attempt while attempts remain and is failed otherwise; while
    the processor has not settled the job is active. *)

Module Broker.

Record JobOptions := {
  attempts : nat;
  backoff_delay : Z        (* backoff type 'exponential' *)
}.

(** The options [enqueueJob] passes to [queue.add]. *)
Definition enqueue_options : JobOptions := {| attempts := 3; backoff_delay := 5000 |}.

Inductive QueueState :=
| Completed (returnvalue : JobResult)
| Delayed (delay_ms : Z)
| Failed (failedReason : string)
| Active.

(** The state of the job after an attempt; [attemptsMade] counts the attempts
    before this one. *)
Definition settle (o : JobOptions) (attemptsMade : nat) (outcome : Promise JobResult)
  : QueueState :=
  match outcome with
  | Settles (Returned v) => Completed v
  | Settles (Threw m) =>
      if (S attemptsMade <? attempts o)%nat
      then Delayed (backoff_delay o * 2 ^ Z.of_nat attemptsMade)
      else Failed m
  | Pending => Active
  end.

(** The job from its first claim on: the state it ends in, or stays in when
    an attempt never settles, the number of attempts begun, the delays waited
    in between. *)
Fixpoint run (o : JobOptions) (remaining : nat) (attemptsMade : nat)
    (processor : nat -> WorkerState -> Promise JobResult * WorkerState)
    (st : WorkerState)
  : option QueueState * nat * list Z * WorkerState :=
  match remaining with
  | O => (None, attemptsMade, [], st)
  | S k =>
      let '(outcome, st') := processor attemptsMade st in
      match settle o attemptsMade outcome with
      | Delayed d =>
          let '(final, n, ds, st'') := run o k (S attemptsMade) processor st' in
          (final, n, d :: ds, st'')
      | state => (Some state, S attemptsMade, [], st')
      end
  end.

Definition run_job (processor : nat -> WorkerState -> Promise JobResult * WorkerState)
    (st : WorkerState) :=
  run enqueue_options (attempts enqueue_options) 0 processor st.

End Broker.

(** ** Sample jobs and environments used in the evaluations below *)

Module Sample.

Definition cfg : Config :=
  {| base_url := "https://media.example.com";
     hls_time := 2;
     allowed_download_domains := ["*"];
     wordpress_webhook_url := "https://wp.example.com/wp-json/video/v1/webhook" |}.

Definition ok_endpoint : nat -> WebhookPayload -> HttpReply :=
  fun _ _ => HttpStatus 200 "ok".

Definition job : VideoJobData :=
  {| jobId := "job_42_1700000000000"; postId := 42;
     wpMediaPath := "/wp-content/uploads/2025/01/clip.mp4";
     wpVideoUrl := "http://169.254.169.254/latest/meta-data/";
     wpThumbnailPath := None; wpThumbnailUrl := None;
     year := 2025; month := 1 |}.

(** A pipeline whose compression stage reports the rejected download. *)
Definition failing_stages : Stages :=
  {| run_compressVideoJob := fun j =>
       ([(0, "downloading")],
        Settles (Returned (Worker.failure_result j
                             "Download failed: Private/internal hosts not allowed")));
     run_convertToHLSStreaming := fun _ _ _ _ => Settles (Threw "not reached");
     run_compressThumbnail := fun _ _ _ _ _ => Settles (Threw "not reached") |}.

Definition env : Env :=
  {| env_cfg := cfg; env_endpoint := ok_endpoint;
     env_clock := fun n => 1700000000000 + 1000 * Z.of_nat n;
     env_stages := failing_stages |}.

Definition fresh : WorkerState :=
  {| webhook := {| throttler := {| lastProgress := ∅; lastSentTime := ∅ |};
                   posts := [] |};
     progress_updates := []; clock_reads := 0; detached := [] |}.

(** A throttler that last sent 50 % for the job at time 1700000010000. *)
Definition at_fifty : Throttler :=
  {| lastProgress := {[ "job_42_1700000000000" := 50 ]};
     lastSentTime := {[ "job_42_1700000000000" := 1700000010000 ]} |}.

End Sample.

(** A transcoder that fails after writing 512 bytes, and a file system in
    which the output path cannot be removed. *)
Module SampleTranscode.

Definition input : string := "/uploads/2025/01/clip.mp4".
Definition output : string := "/content/2025/01/42/compressed_240p.mp4".

Definition failing_transcoder : string -> string -> string -> TranscoderRun :=
  fun _ _ _ => RunError "ffmpeg exited with code 1" (Some 512).

Definition good_transcoder : string -> string -> string -> TranscoderRun :=
  fun _ _ _ => RunEnd (Some 2048).

Definition plain_fs : FileSystem :=
  {| files := {[ input := 5242880 ]}; locked := ∅ |}.

Definition locked_fs : FileSystem :=
  {| files := {[ input := 5242880 ]}; locked := {[ output ]} |}.

End SampleTranscode.

(** ** The master playlist, as the specification words it

    These definitions restate the format; the theorems compare them with
    [HlsConverter.generateMasterPlaylist] and [HlsConverter.convertToHLSStreaming]. *)

Module PlaylistSpec.
Import HlsConverter.

Definition concat_str (l : list string) : string := fold_right String.append "" l.

(** The two lines of a variant: the stream line with its five attributes, and
    the file name of the variant's playlist. *)
Definition variant_lines (bandwidth avg_bandwidth : Z) (resolution codecs name : string)
  : string :=
  "#EXT-X-STREAM-INF:BANDWIDTH=" +:+ Text.Z_to_string bandwidth +:+
  ",AVERAGE-BANDWIDTH=" +:+ Text.Z_to_string avg_bandwidth +:+
  ",RESOLUTION=" +:+ resolution +:+
  ",CODECS=" +:+ dq +:+ codecs +:+ dq +:+
  ",NAME=" +:+ dq +:+ name +:+ dq +:+ nl +:+
  name +:+ ".m3u8" +:+ nl.

Definition header : string := "#EXTM3U" +:+ nl +:+ "#EXT-X-VERSION:3" +:+ nl +:+ nl.

(** A quality is successfully segmented when its MP4 is named in the paths and
    exists, and the segmenter reports success with a playlist and at least
    one segment; the data kept for it. *)
Definition segmented_data (fs : FileSystem)
    (convertToHLS : string -> string -> string -> Z -> bool -> SegmentResult)
    (cfg : Config) (paths : VideoPaths) (quality : string) : option ConvertedQuality :=
  match Probe.nonempty (compressed_path paths quality) with
  | None => None
  | Some mp4Path =>
      if Fs.existsSync fs mp4Path then
        let r := convertToHLS mp4Path (path_output_dir paths +:+ "/hls") quality
                   (getHlsSegmentDuration cfg) false in
        match sr_success r, Probe.nonempty (sr_playlist r), sr_segmentCount r with
        | true, Some playlist, Some n =>
            if n =? 0 then None
            else Some {| cq_playlist := playlist; cq_segmentCount := n;
                         cq_mp4Path := mp4Path |}
        | _, _, _ => None
        end
      else None
  end.

Definition segmented fs convertToHLS cfg paths (quality : string) : bool :=
  match segmented_data fs convertToHLS cfg paths quality with
  | Some _ => true
  | None => false
  end.

(** The variant entry of a segmented quality. *)
Definition variant (fs : FileSystem) (ffprobe : string -> FfprobeOutcome)
    (convertToHLS : string -> string -> string -> Z -> bool -> SegmentResult)
    (cfg : Config) (paths : VideoPaths) (quality : string) : string :=
  match segmented_data fs convertToHLS cfg paths quality, HLS_QUALITIES !! quality with
  | Some d, Some c =>
      variant_lines (hq_bandwidth c) (hq_avg_bandwidth c)
        (actualResolution fs ffprobe c d) (hq_codecs c) quality
  | _, _ => ""
  end.

Definition ascending : list string := ["144p"; "240p"; "360p"; "480p"].

(** What one quality adds to the playlist, given the converted qualities. *)
Definition entry (fs : FileSystem) (ffprobe : string -> FfprobeOutcome)
    (convertedQualities : gmap string ConvertedQuality) (quality : string) : string :=
  match convertedQualities !! quality, HLS_QUALITIES !! quality with
  | Some d, Some c =>
      variant_lines (hq_bandwidth c) (hq_avg_bandwidth c)
        (actualResolution fs ffprobe c d) (hq_codecs c) quality
  | _, _ => ""
  end.

Definition master fs ffprobe convertToHLS cfg paths : string :=
  header +:+
  concat_str (map (variant fs ffprobe convertToHLS cfg paths)
                (filter (fun q => segmented fs convertToHLS cfg paths q = true) ascending)).

End PlaylistSpec.

(** A job directory in which 240p failed to transcode. *)
Module SampleHls.

Definition paths : VideoPaths :=
  {| path_source := "/uploads/2025/01/clip.mp4";
     path_original := "/content/2025/01/42/original.mp4";
     path_output_dir := "/content/2025/01/42";
     path_compressed_480p := Some "/content/2025/01/42/compressed_480p.mp4";
     path_compressed_360p := Some "/content/2025/01/42/compressed_360p.mp4";
     path_compressed_240p := Some "/content/2025/01/42/compressed_240p.mp4";
     path_compressed_144p := Some "/content/2025/01/42/compressed_144p.mp4" |}.

Definition fs : FileSystem :=
  {| files := list_to_map
       [ ("/content/2025/01/42/compressed_480p.mp4", 1200000);
         ("/content/2025/01/42/compressed_360p.mp4", 800000);
         ("/content/2025/01/42/compressed_144p.mp4", 250000) ];
     locked := ∅ |}.

Definition segmenter : string -> string -> string -> Z -> bool -> SegmentResult :=
  fun _ dir q _ _ =>
    {| sr_success := true; sr_playlist := Some (dir +:+ "/" +:+ q +:+ ".m3u8");
       sr_segmentCount := Some 5; sr_error := None |}.

Definition no_probe : string -> FfprobeOutcome := fun _ => ProbeError "no ffprobe".

End SampleHls.

(** ** Regular expressions, as far as the URL guard uses them *)

Module Regex.

Inductive re :=
| Void                                (* matches nothing *)
| Eps                                 (* the empty string *)
| Chr (p : ascii -> bool)             (* one character of a class *)
| Seq (r1 r2 : re)
| Alt (r1 r2 : re)
| Star (r : re).

Fixpoint nullable (r : re) : bool :=
  match r with
  | Void => false
  | Eps => true
  | Chr _ => false
  | Seq r1 r2 => nullable r1 && nullable r2
  | Alt r1 r2 => nullable r1 || nullable r2
  | Star _ => true
  end.

(** What is left of [r] once the character [c] has been read. *)
Fixpoint deriv (c : ascii) (r : re) : re :=
  match r with
  | Void => Void
  | Eps => Void
  | Chr p => if p c then Eps else Void
  | Seq r1 r2 =>
      if nullable r1 then Alt (Seq (deriv c r1) r2) (deriv c r2)
      else Seq (deriv c r1) r2
  | Alt r1 r2 => Alt (deriv c r1) (deriv c r2)
  | Star r1 => Seq (deriv c r1) (Star r1)
  end.

(** [r] matches the whole of [s]. *)
Fixpoint matches (r : re) (s : string) : bool :=
  match s with
  | EmptyString => nullable r
  | String c s' => matches (deriv c r) s'
  end.

(** Character classes. *)
Definition any : ascii -> bool := fun _ => true.
Definition exactly (c : ascii) : ascii -> bool := fun x => Ascii.eqb x c.
Definition ignoring_case (c : ascii) : ascii -> bool :=
  fun x => Ascii.eqb (Text.lower_char x) (Text.lower_char c).
Definition between (lo hi : ascii) : ascii -> bool :=
  fun x => ((N_of_ascii lo <=? N_of_ascii x) && (N_of_ascii x <=? N_of_ascii hi))%N.

(** A literal string, with or without the [i] flag. *)
Fixpoint lit (ci : bool) (s : string) : re :=
  match s with
  | EmptyString => Eps
  | String c s' => Seq (Chr (if ci then ignoring_case c else exactly c)) (lit ci s')
  end.

Definition digit : re := Chr Text.is_digit.           (* \d *)
Definition opt (r : re) : re := Alt Eps r.            (* r? *)
Definition digits_1_3 : re :=                         (* \d{1,3} *)
  Seq digit (opt (Seq digit (opt digit))).

(** A pattern with its anchors.  Without [^] the match may start anywhere,
    without [$] it may end anywhere. *)
Record pattern := {
  from_start : bool;
  body : re;
  to_end : bool
}.

(** [pattern.test(s)]. *)
Definition test (p : pattern) (s : string) : bool :=
  matches
    (Seq (if from_start p then Eps else Star (Chr any))
       (Seq (body p) (if to_end p then Eps else Star (Chr any))))
    s.

(** The inductive reading of a regular expression. *)
Inductive Match : re -> string -> Prop :=
| MEps : Match Eps ""
| MChr p c : p c = true -> Match (Chr p) (String c "")
| MSeq r1 r2 s1 s2 : Match r1 s1 -> Match r2 s2 -> Match (Seq r1 r2) (s1 +:+ s2)
| MAltL r1 r2 s : Match r1 s -> Match (Alt r1 r2) s
| MAltR r1 r2 s : Match r2 s -> Match (Alt r1 r2) s
| MStarNil r : Match (Star r) ""
| MStarMore r s1 s2 : Match r s1 -> Match (Star r) s2 -> Match (Star r) (s1 +:+ s2).

End Regex.

(** ** The URL guard and the downloads
    ([lib/video-compressor.ts], [lib/image-compressor.ts]) *)

(** The parts of a parsed URL that the guard and the downloads read. *)
Record ParsedUrl := {
  protocol : string;
  hostname : string;
  pathname : string
}.

Record UrlVerdict := {
  uv_valid : bool;
  uv_error : option string
}.

Record DownloadResult := {
  dr_success : bool;
  dr_local_path : option string;
  dr_relative_path : option string;
  dr_file_size : option Z;
  dr_error : option string
}.

(** What a GET request comes back with: a response with its status, its
    Location header and the number of bytes of its body, or a failure of the
    request. *)
Inductive HttpGet :=
| GetResponse (statusCode : Z) (location : option string) (bodySize : Z)
| GetError (message : string)
| GetTimeout.

Module UrlGuard.
Import Regex.

Definition dot : re := Chr (exactly "."%char).

Definition dotted (a b c d : re) : re :=
  Seq a (Seq dot (Seq b (Seq dot (Seq c (Seq dot d))))).

(** [privatePatterns], in the order of the source. *)
Definition privatePatterns : list pattern :=
  [ {| from_start := true; body := lit true "localhost"; to_end := true |};
    {| from_start := true;
       body := dotted (lit false "127") digits_1_3 digits_1_3 digits_1_3;
       to_end := true |};
    {| from_start := true;
       body := dotted (lit false "10") digits_1_3 digits_1_3 digits_1_3;
       to_end := true |};
    {| from_start := true;
       body := dotted (lit false "172")
                 (Alt (Seq (Chr (exactly "1"%char)) (Chr (between "6"%char "9"%char)))
                    (Alt (Seq (Chr (exactly "2"%char)) digit)
                       (Seq (Chr (exactly "3"%char)) (Chr (between "0"%char "1"%char)))))
                 digits_1_3 digits_1_3;
       to_end := true |};
    {| from_start := true;
       body := dotted (lit false "192") (lit false "168") digits_1_3 digits_1_3;
       to_end := true |};
    {| from_start := true;
       body := dotted (lit false "169") (lit false "254") digits_1_3 digits_1_3;
       to_end := true |};
    {| from_start := true;
       body := dotted (lit false "0") (lit false "0") (lit false "0") (lit false "0");
       to_end := true |};
    {| from_start := false; body := lit true ".internal"; to_end := true |};
    {| from_start := false; body := lit true ".local"; to_end := true |} ].

Definition invalid (e : string) : UrlVerdict := {| uv_valid := false; uv_error := Some e |}.
Definition valid : UrlVerdict := {| uv_valid := true; uv_error := None |}.

(** The test of one allowlist entry against the host. *)
Definition domain_matches (host allowed0 : string) : bool :=
  let allowed := Text.toLowerCase allowed0 in
  if Text.startsWith "*." allowed then
    let suffix := Text.drop 2 allowed in
    String.eqb host suffix || Text.endsWith ("." +:+ suffix) host
  else
    String.eqb host allowed || Text.endsWith ("." +:+ allowed) host.

Section Guard.

(** [new URL(url)]; [None] when the constructor throws. *)
Variable parseUrl : string -> option ParsedUrl.
Variable cfg : Config.

(** [validateDownloadUrl] of [lib/video-compressor.ts]. *)
Definition validateDownloadUrl (url : string) : UrlVerdict :=
  if Text.is_empty url then invalid "URL is empty"
  else
    match parseUrl url with
    | None => invalid "Invalid URL format"
    | Some parsedUrl =>
        if negb (includes ["http:"; "https:"] (protocol parsedUrl))
        then invalid "Only HTTP/HTTPS URLs are allowed"
        else
          let host := Text.toLowerCase (hostname parsedUrl) in
          if existsb (fun pattern => test pattern host) privatePatterns
          then invalid "Private/internal hosts not allowed"
          else
            let allowedDomains := allowed_download_domains cfg in
            if includes allowedDomains "*" then valid
            else if negb (existsb (domain_matches host) allowedDomains)
            then invalid ("Domain '" +:+ host +:+ "' not in allowed list")
            else valid
    end.

(** [validateImageUrl] of [lib/image-compressor.ts]. *)
Definition validateImageUrl (url : string) : UrlVerdict :=
  if Text.is_empty url then invalid "URL is empty"
  else
    match parseUrl url with
    | None => invalid "Invalid URL format"
    | Some parsedUrl =>
        if negb (includes ["http:"; "https:"] (protocol parsedUrl))
        then invalid "Only HTTP/HTTPS URLs are allowed"
        else
          let host := Text.toLowerCase (hostname parsedUrl) in
          if existsb (fun pattern => test pattern host) privatePatterns
          then invalid "Private/internal hosts not allowed"
          else
            let allowedDomains := allowed_download_domains cfg in
            if includes allowedDomains "*" then valid
            else if negb (existsb (domain_matches host) allowedDomains)
            then invalid ("Domain '" +:+ host +:+ "' not in allowed list")
            else valid
    end.

(** The peer: what a GET of a URL comes back with. *)
Variable http_get : string -> HttpGet.

(** Where the download is stored, from the URL and the media path: the local
    path and the path relative to the uploads directory. *)
Variable localPath : string -> string -> string * string.

Definition failed (e : option string) : DownloadResult :=
  {| dr_success := false; dr_local_path := None; dr_relative_path := None;
     dr_file_size := None; dr_error := e |}.

(** The body shared by [downloadVideo] and [downloadImage], which differ in
    the guard they call, the request headers, the timeout and the checks on
    the size of the body.  The result comes with the URLs requested, in
    order.  A redirect re-enters the function; [fuel] bounds the number of
    requests, and [None] means that the bound was reached.  The uploads
    directory is taken to exist, and the local file the body is piped into is
    represented by the size of the body alone. *)
Fixpoint download (validate : string -> UrlVerdict) (size_error : Z -> option string)
    (fuel : nat) (url wpMediaPath : string) : option (DownloadResult * list string) :=
  match fuel with
  | O => None
  | S fuel' =>
      let validationResult := validate url in
      if negb (uv_valid validationResult)
      then Some (failed (uv_error validationResult), [])
      else
        match http_get url with
        | GetResponse statusCode location bodySize =>
            let redirect :=
              if (statusCode =? 301) || (statusCode =? 302)
              then Probe.nonempty location else None in
            match redirect with
            | Some redirectUrl =>
                match download validate size_error fuel' redirectUrl wpMediaPath with
                | Some (r, requested) => Some (r, url :: requested)
                | None => None
                end
            | None =>
                if negb (statusCode =? 200)
                then Some (failed (Some ("HTTP " +:+ Text.Z_to_string statusCode)), [url])
                else
                  match size_error bodySize with
                  | Some e => Some (failed (Some e), [url])
                  | None =>
                      let '(local, relative) := localPath url wpMediaPath in
                      Some ({| dr_success := true; dr_local_path := Some local;
                               dr_relative_path := Some relative;
                               dr_file_size := Some bodySize; dr_error := None |},
                            [url])
                  end
            end
        | GetError message => Some (failed (Some message), [url])
        | GetTimeout => Some (failed (Some "Download timeout"), [url])
        end
  end.

Definition video_size_error (size : Z) : option string :=
  if size <? 1024 then Some "Downloaded file too small" else None.

Definition MAX_IMAGE_SIZE_MB : Z := 50.

Definition image_size_error (size : Z) : option string :=
  if size <? 100 then Some "Downloaded file too small"
  else
    let fileSizeMB := (inject_Z size / inject_Z (1024 * 1024))%Q in
    if Num.Qgtb fileSizeMB (inject_Z MAX_IMAGE_SIZE_MB)
    then Some ("File size " +:+ Num.toFixed2 fileSizeMB +:+ " MB exceeds maximum " +:+
               Text.Z_to_string MAX_IMAGE_SIZE_MB +:+ " MB")
    else None.

(** [downloadVideo]. *)
Definition downloadVideo := download validateDownloadUrl video_size_error.

(** [downloadImage]. *)
Definition downloadImage := download validateImageUrl image_size_error.

End Guard.

(** A host name that is an IPv4 address, as the URL parser serialises it:
    four decimal numbers below 256 joined by dots. *)
Definition ipv4 (a b c d : N) : string :=
  Text.dec a +:+ "." +:+ Text.dec b +:+ "." +:+ Text.dec c +:+ "." +:+ Text.dec d.

Definition octets (a b c d : N) : Prop := (a < 256 /\ b < 256 /\ c < 256 /\ d < 256)%N.

(** The hosts the guard is to refuse. *)
Definition in_refused_range (a b c d : N) : Prop :=
  (a = 127                              (* loopback 127.0.0.0/8 *)
   \/ a = 10                            (* private 10/8 *)
   \/ (a = 172 /\ 16 <= b <= 31)        (* private 172.16/12 *)
   \/ (a = 192 /\ b = 168)              (* private 192.168/16 *)
   \/ (a = 169 /\ b = 254)              (* link-local 169.254/16 *)
   \/ (a = 0 /\ b = 0 /\ c = 0 /\ d = 0))%N.

Definition refused_host (h : string) : Prop :=
  Text.toLowerCase h = "localhost"
  \/ (exists a b c d, octets a b c d /\ in_refused_range a b c d /\ h = ipv4 a b c d)
  \/ Text.endsWith ".internal" (Text.toLowerCase h) = true
  \/ Text.endsWith ".local" (Text.toLowerCase h) = true.

End UrlGuard.

(** A run of redirects: every URL of [hops] passes the guard and is answered
    301 or 302 with a Location header naming the next one, the last of them
    naming [target]. *)
Fixpoint redirects (validate : string -> UrlVerdict) (http_get : string -> HttpGet)
    (hops : list string) (target : string) : Prop :=
  match hops with
  | [] => True
  | u :: rest =>
      uv_valid (validate u) = true /\
      (exists code size,
         (code = 301 \/ code = 302) /\
         http_get u = GetResponse code (Some (hd target rest)) size) /\
      hd target rest <> "" /\
      redirects validate http_get rest target
  end.

(** A peer that redirects twice before it serves the file. *)
Module SampleNet.

Definition metadata_url : string := "http://169.254.169.254/latest/meta-data/".
Definition url_a : string := "https://cdn.example.com/a.mp4".
Definition url_b : string := "https://cdn.example.com/b.mp4".
Definition url_c : string := "https://cdn.example.com/c.mp4".

Definition parseUrl (url : string) : option ParsedUrl :=
  if String.eqb url metadata_url then
    Some {| protocol := "http:"; hostname := "169.254.169.254";
            pathname := "/latest/meta-data/" |}
  else if String.eqb url url_a then
    Some {| protocol := "https:"; hostname := "cdn.example.com"; pathname := "/a.mp4" |}
  else if String.eqb url url_b then
    Some {| protocol := "https:"; hostname := "cdn.example.com"; pathname := "/b.mp4" |}
  else if String.eqb url url_c then
    Some {| protocol := "https:"; hostname := "cdn.example.com"; pathname := "/c.mp4" |}
  else None.

Definition http_get (url : string) : HttpGet :=
  if String.eqb url url_a then GetResponse 302 (Some url_b) 0
  else if String.eqb url url_b then GetResponse 301 (Some url_c) 0
  else if String.eqb url url_c then GetResponse 200 None 5000000
  else GetError "getaddrinfo ENOTFOUND".

Definition localPath (url wpMediaPath : string) : string * string :=
  ("/uploads/2025/01/clip.mp4", "2025/01/clip.mp4").

(** An allowlist that names the metadata host itself. *)
Definition cfg_listing_host : Config :=
  {| base_url := "https://media.example.com"; hls_time := 2;
     allowed_download_domains := ["169.254.169.254"];
     wordpress_webhook_url := "" |}.

End SampleNet.

(** A peer whose answer to a URL is a redirect to that same URL. *)
Module SampleLoop.

Definition url : string := "https://cdn.example.com/loop.mp4".

Definition parseUrl (u : string) : option ParsedUrl :=
  if String.eqb u url then
    Some {| protocol := "https:"; hostname := "cdn.example.com"; pathname := "/loop.mp4" |}
  else None.

Definition http_get (u : string) : HttpGet := GetResponse 302 (Some url) 0.

End SampleLoop.

(** The fields of the probe result that the loop over the streams leaves
    alone. *)
Definition untouched (i j : VideoInfo) : Prop :=
  vi_valid j = vi_valid i /\ vi_corrupted j = vi_corrupted i /\
  vi_error j = vi_error i /\ vi_duration j = vi_duration i /\
  vi_file_size j = vi_file_size i.

(** ** Reasoning about the handler under every interleaving *)

(** A step a function takes itself, as opposed to the callbacks it started. *)
Inductive Mark :=
| Wrote (percent : Z)
| Posted (payload : WebhookPayload).

Definition writes_of (ms : list Mark) : list Z :=
  omap (fun m => match m with Wrote p => Some p | Posted _ => None end) ms.

Definition posts_of (ms : list Mark) : list WebhookPayload :=
  omap (fun m => match m with Posted w => Some w | Wrote _ => None end) ms.

(** [traces Qs Qw Qp Q c ms]: whatever the endpoint replies and whatever the
    throttler decides (it never holds back an update at 100 %), [c] takes
    the steps [ms], in this order and possibly others in between, and its
    promise ends in a way that satisfies [Q]; every value it writes satisfies
    [Qw], every payload it posts satisfies [Qp], and every callback it starts
    is started with arguments that satisfy [Qs]. *)
Inductive traces {A : Type} (Qs : Z -> string -> Prop) (Qw : Z -> Prop)
    (Qp : WebhookPayload -> Prop) (Q : Promise A -> Prop)
  : Prog A -> list Mark -> Prop :=
| tr_ret a :
    Q (Settles (Returned a)) -> traces Qs Qw Qp Q (Ret a) []
| tr_throw m :
    Q (Settles (Threw m)) -> traces Qs Qw Qp Q (Throw m) []
| tr_never :
    Q Pending -> traces Qs Qw Qp Q Never []
| tr_write p next ms :
    Qw p -> traces Qs Qw Qp Q next ms ->
    traces Qs Qw Qp Q (WriteProgress p next) (Wrote p :: ms)
| tr_write_skip p next ms :
    Qw p -> traces Qs Qw Qp Q next ms ->
    traces Qs Qw Qp Q (WriteProgress p next) ms
| tr_should j p next ms :
    (forall ok : bool, (p = 100 -> ok = true) -> traces Qs Qw Qp Q (next ok) ms) ->
    traces Qs Qw Qp Q (ShouldSend j p next) ms
| tr_cleanup j next ms :
    traces Qs Qw Qp Q next ms -> traces Qs Qw Qp Q (Cleanup j next) ms
| tr_post w next ms :
    Qp w -> (forall r, traces Qs Qw Qp Q (next r) ms) ->
    traces Qs Qw Qp Q (Post w next) (Posted w :: ms)
| tr_post_skip w next ms :
    Qp w -> (forall r, traces Qs Qw Qp Q (next r) ms) ->
    traces Qs Qw Qp Q (Post w next) ms
| tr_start p s next ms :
    Qs p s -> traces Qs Qw Qp Q next ms ->
    traces Qs Qw Qp Q (Start p s next) ms.

(** A started callback that writes and posts only what [Qw] and [Qp] allow,
    however it ends. *)
Definition safe (Qs : Z -> string -> Prop) (Qw : Z -> Prop) (Qp : WebhookPayload -> Prop)
    (t : Prog unit) : Prop :=
  traces Qs Qw Qp (fun _ => True) t [].

(** The promise resolves, with a value that satisfies [P]. *)
Definition resolved {A : Type} (P : A -> Prop) (o : Promise A) : Prop :=
  match o with
  | Settles (Returned a) => P a
  | _ => False
  end.

(** The promise settles. *)
Definition settled {A : Type} (o : Promise A) : Prop :=
  match o with
  | Settles _ => True
  | Pending => False
  end.

(** From [st] to [st'] the values [lw] were written and the payloads [lp]
    posted, in this order, and nothing that was there before was lost. *)
Definition appended (st st' : WorkerState) (lw : list Z) (lp : list WebhookPayload) : Prop :=
  progress_updates st' = progress_updates st ++ lw /\
  posts (webhook st') = posts (webhook st) ++ lp.

(** [st'] comes from [st] by steps that wrote [lw] and posted [lp], all of it
    allowed by [Qw] and [Qp], and the callbacks left in [st'] are safe. *)
Definition grown (Qs : Z -> string -> Prop) (Qw : Z -> Prop) (Qp : WebhookPayload -> Prop)
    (st st' : WorkerState) (lw : list Z) (lp : list WebhookPayload) : Prop :=
  appended st st' lw lp /\ Forall Qw lw /\ Forall Qp lp /\
  Forall (safe Qs Qw Qp) (detached st').

(** [st] with the state [ws] of the webhook module. *)
Definition with_webhook (st : WorkerState) (ws : WebhookState) : WorkerState :=
  {| webhook := ws; progress_updates := progress_updates st;
     clock_reads := clock_reads st; detached := detached st |}.



(** A job with a thumbnail, and a pipeline whose compression succeeds while
    its HLS and thumbnail stages report failure. *)
Module SampleDegraded.

Definition job : VideoJobData :=
  {| jobId := "job_7_1700000000000"; postId := 7;
     wpMediaPath := "/wp-content/uploads/2025/01/clip.mp4";
     wpVideoUrl := "https://cdn.example.com/clip.mp4";
     wpThumbnailPath := None;
     wpThumbnailUrl := Some "https://cdn.example.com/clip.jpg";
     year := 2025; month := 1 |}.

Definition compressed : JobResult :=
  {| jr_success := true;
     jr_message := Some "Video compression completed successfully";
     jr_error := None;
     jr_urls := Some {| url_compressed_480p :=
                          Some "https://media.example.com/content/2025/01/7/compressed_480p.mp4";
                        url_compressed_360p := None; url_compressed_240p := None;
                        url_compressed_144p := None; url_thumbnail_webp := None |};
     jr_paths := Some SampleHls.paths;
     jr_stats := None; jr_hlsUrls := None; jr_thumbnailUrl := None;
     jr_thumbnailStats := None;
     jr_jobId := "job_7_1700000000000"; jr_postId := 7 |}.

Definition stages : Stages :=
  {| run_compressVideoJob := fun _ =>
       ([(25, "validating"); (25, "compressing"); (75, "finalizing")],
        Settles (Returned compressed));
     run_convertToHLSStreaming := fun _ _ _ _ =>
       Settles (Returned (HlsConverter.hls_failure
                            "No quality levels were successfully converted to HLS"));
     run_compressThumbnail := fun _ _ _ _ _ =>
       Settles (Returned {| ic_success := false; ic_publicUrl := None;
                            ic_originalSize := None; ic_compressedSize := None;
                            ic_compressionRatio := None;
                            ic_error := Some "Download failed: HTTP 404" |}) |}.

Definition env : Env :=
  {| env_cfg := Sample.cfg; env_endpoint := Sample.ok_endpoint;
     env_clock := fun n => 1700000000000 + 1000 * Z.of_nat n;
     env_stages := stages |}.

End SampleDegraded.


(** ** Progress reported while transcoding ([compressVideoJob] of
    [lib/video-compressor.ts])

    The callback [compressVideoJob] gives to [compressVideo] for the quality
    at [qualityIndex].  [percent] is the integer [compressVideo] passes on,
    [Math.round(progress.percent)].  For an integer [percent] the exact value
    of [(percent / 100) * 12] is at least 1/50 away from every half-integer,
    so that rounding the double and rounding the rational agree. *)

Module CompressJob.

Definition qualities : list string := ["480p"; "360p"; "240p"; "144p"].
Definition progressPerQuality : Z := 12.

Definition overallProgress (qualityIndex percent : Z) : Z :=
  let progressBase := 25 + qualityIndex * progressPerQuality in
  progressBase + Num.Math_round ((inject_Z percent / 100) * inject_Z progressPerQuality)%Q.

Definition milestone (overallProgress : Z) : Z :=
  if overallProgress >=? 75 then 75
  else if overallProgress >=? 50 then 50
  else if overallProgress >=? 25 then 25
  else 0.

(** What [onProgress] is called with. *)
Definition transcode_progress (qualityIndex : nat) (percent : Z) : Z * string :=
  (milestone (overallProgress (Z.of_nat qualityIndex) percent),
   "compressing_" +:+ nth qualityIndex qualities "undefined").

End CompressJob.

(** The entries of [PROGRESS_STAGES] ([lib/webhook.ts]) for the four
    transcodes. *)
Module PROGRESS_STAGES.
Definition COMPRESSING_480P : Z * string := (25, "compressing_480p").
Definition COMPRESSING_360P : Z * string := (50, "compressing_360p").
Definition COMPRESSING_240P : Z * string := (50, "compressing_240p").
Definition COMPRESSING_144P : Z * string := (75, "compressing_144p").
End PROGRESS_STAGES.

(** ** Worker restarts ([workers/compression-worker.ts]) *)

Module Lifecycle.

Definition WORKER_RESTART_DELAY_BASE : Z := 5000.
Definition WORKER_RESTART_DELAY_MAX : Z := 60000.
Definition WORKER_MAX_RESTART_ATTEMPTS : Z := 0.

(** The module's flags and its counter, which starts at 0 and is only
    incremented or reset to 0. *)
Record State := {
  isShuttingDown : bool;
  isRestartScheduled : bool;
  isRestarting : bool;
  restartAttempts : nat
}.

(** [calculateRestartDelay]. *)
Definition calculateRestartDelay (s : State) : Z :=
  Z.min (WORKER_RESTART_DELAY_BASE * 2 ^ Z.of_nat (Nat.min (restartAttempts s) 4))
        WORKER_RESTART_DELAY_MAX.

Inductive Scheduling :=
| Skipped                  (* returned without scheduling *)
| Exited                   (* [process.exit(1)] *)
| Timer (delay : Z).       (* went on to close the worker and set the timer *)

(** [scheduleWorkerRestart] up to its first [await]: the part that runs
    without interruption and decides whether and when a restart happens. *)
Definition scheduleWorkerRestart (s : State) : State * Scheduling :=
  if isShuttingDown s then (s, Skipped)
  else if isRestartScheduled s || isRestarting s then (s, Skipped)
  else if (WORKER_MAX_RESTART_ATTEMPTS >? 0)
          && (Z.of_nat (restartAttempts s) >=? WORKER_MAX_RESTART_ATTEMPTS)
  then (s, Exited)
  else
    let s' := {| isShuttingDown := isShuttingDown s;
                 isRestartScheduled := true;
                 isRestarting := isRestarting s;
                 restartAttempts := S (restartAttempts s) |} in
    (s', Timer (calculateRestartDelay s')).

(** The timer's callback; [started] tells whether [startWorker()] returned
    (it then has reset the counter) or threw. *)
Definition restart_timer_fires (s : State) (started : bool) : State * Scheduling :=
  if isShuttingDown s then
    ({| isShuttingDown := isShuttingDown s; isRestartScheduled := false;
        isRestarting := isRestarting s; restartAttempts := restartAttempts s |},
     Skipped)
  else if started then
    ({| isShuttingDown := isShuttingDown s; isRestartScheduled := false;
        isRestarting := false; restartAttempts := 0 |},
     Skipped)
  else
    scheduleWorkerRestart
      {| isShuttingDown := isShuttingDown s; isRestartScheduled := false;
         isRestarting := false; restartAttempts := restartAttempts s |}.

(** The delays of the timers when a restart is requested in state [s] and
    the restart, and the [n] restarts that follow it, all fail to start the
    worker. *)
Fixpoint later_restarts (n : nat) (s : State) : list Z :=
  match n with
  | O => []
  | S k =>
      match restart_timer_fires s false with
      | (s', Timer d) => d :: later_restarts k s'
      | _ => []
      end
  end.

Definition failing_restarts (n : nat) (s : State) : list Z :=
  match scheduleWorkerRestart s with
  | (s', Timer d) => d :: later_restarts n s'
  | _ => []
  end.

End Lifecycle.

(** ** Reconnection to Redis ([lib/redis.ts]) *)

Module Redis.

Definition MAX_RETRY_DELAY : Z := 30000.
Definition BASE_RETRY_DELAY : Z := 1000.

(** [createResilientRetryStrategy]; the client calls it with the number of
    the reconnection attempt, which starts at 1. *)
Definition createResilientRetryStrategy (times : Z) : Z :=
  Z.min (BASE_RETRY_DELAY * 2 ^ (Z.min (times - 1) 5)) MAX_RETRY_DELAY.

End Redis.

(** ** Rate limiting ([middleware.ts]) *)

Record RateLimitData := {
  count : Z;
  windowStart : Z
}.

Inductive RateDecision :=
| Pass (remaining : Z)                           (* X-RateLimit-Remaining *)
| TooManyRequests (retryAfter reset : Z).        (* 429 with Retry-After and X-RateLimit-Reset *)

Module Middleware.

Definition RATE_LIMIT_WINDOW : Z := 60 * 1000.
Definition RATE_LIMIT_MAX : Z := 100.

(** [Math.ceil(x / d)] for integers [x] and [d > 0]. *)
Definition ceil_div (x d : Z) : Z := - ((- x) / d).

(** The rate-limiting block of [middleware], run for a request under
    [/api/] whose method is not OPTIONS. *)
Definition rate_limit (ipRequestCounts : gmap string RateLimitData)
    (clientIP : string) (now : Z) : RateDecision * gmap string RateLimitData :=
  let counted (m : gmap string RateLimitData) :=
    let remaining :=
      RATE_LIMIT_MAX - or_default (default 0 (count <$> m !! clientIP)) 0 in
    (Pass (Z.max 0 remaining), m) in
  match ipRequestCounts !! clientIP with
  | Some rateLimitData =>
      if now - windowStart rateLimitData >? RATE_LIMIT_WINDOW then
        counted (<[clientIP := {| count := 1; windowStart := now |}]> ipRequestCounts)
      else if count rateLimitData >=? RATE_LIMIT_MAX then
        (TooManyRequests
           (ceil_div (RATE_LIMIT_WINDOW - (now - windowStart rateLimitData)) 1000)
           (ceil_div (windowStart rateLimitData + RATE_LIMIT_WINDOW) 1000),
         ipRequestCounts)
      else
        counted (<[clientIP := {| count := count rateLimitData + 1;
                                  windowStart := windowStart rateLimitData |}]>
                   ipRequestCounts)
  | None =>
      counted (<[clientIP := {| count := 1; windowStart := now |}]> ipRequestCounts)
  end.

(** The decisions for requests of one client arriving at the given times. *)
Fixpoint serve (ipRequestCounts : gmap string RateLimitData) (clientIP : string)
    (times : list Z) : list RateDecision :=
  match times with
  | [] => []
  | now :: rest =>
      let '(d, m) := rate_limit ipRequestCounts clientIP now in
      d :: serve m clientIP rest
  end.

Definition passed (d : RateDecision) : bool :=
  match d with Pass _ => true | TooManyRequests _ _ => false end.

End Middleware.

(** ** Helpers of [lib/utils.ts] *)

(** How the promise of [retry] settles; [lastError] is undefined when the
    function was never called. *)
Inductive Settled (A : Type) :=
| Resolved (a : A)
| Rejected (lastError : option string).
Arguments Resolved {A} a.
Arguments Rejected {A} lastError.

Module Utils.

(** [truncateString]; [substring] takes a negative end as 0. *)
Definition truncateString (str : string) (maxLength : Z) : string :=
  if Z.of_nat (String.length str) <=? maxLength then str
  else Webhook.take (Z.to_nat (maxLength - 3)) str +:+ "...".

(** The loop of [retry] from [attempt] on, with [remaining] iterations left:
    how the promise settles, how long it slept between the calls, and how
    often it called [fn].  The outcome of [fn] may depend on the call. *)
Fixpoint retry_loop {A : Type} (fn : nat -> Outcome A) (maxRetries : Z)
    (delay backoff : Z) (remaining : nat) (attempt : nat) (lastError : option string)
  : Settled A * list Z * nat :=
  match remaining with
  | O => (Rejected lastError, [], attempt)
  | S k =>
      match fn attempt with
      | Returned result => (Resolved result, [], S attempt)
      | Threw message =>
          if Z.of_nat attempt <? maxRetries - 1 then
            let waitTime := delay * backoff ^ Z.of_nat attempt in
            let '(r, sleeps, calls) :=
              retry_loop fn maxRetries delay backoff k (S attempt) (Some message) in
            (r, waitTime :: sleeps, calls)
          else retry_loop fn maxRetries delay backoff k (S attempt) (Some message)
      end
  end.

(** [retry] for an integer [maxRetries]. *)
Definition retry {A : Type} (fn : nat -> Outcome A) (maxRetries delay backoff : Z)
  : Settled A * list Z * nat :=
  retry_loop fn maxRetries delay backoff (Z.to_nat maxRetries) 0 None.

End Utils.

(** ** Job status ([getJobStatus] of [lib/queue.ts]) *)

Module Queue.

(** The name the broker gives to the state of a job. *)
Definition state_name (s : Broker.QueueState) : string :=
  match s with
  | Broker.Completed _ => "completed"
  | Broker.Delayed _ => "delayed"
  | Broker.Failed _ => "failed"
  | Broker.Active => "active"
  end.

(** The [switch] of [getJobStatus]. *)
Definition status_of_state (state : string) : JobStatus :=
  if String.eqb state "completed" then completed
  else if String.eqb state "failed" then failed
  else if String.eqb state "active" then processing
  else pending.

(** What [getJobStatus] reports for a job the broker holds in state [s]:
    the status, the result and the error. *)
Definition getJobStatus (s : Broker.QueueState)
  : JobStatus * option JobResult * option string :=
  (status_of_state (state_name s),
   match s with Broker.Completed r => Some r | _ => None end,
   match s with Broker.Failed m => Some m | _ => None end).

End Queue.

(** ** Path sanitising ([sanitizePath] of [lib/utils.ts])

    [decodeURIComponent] is the platform's; it throws on a malformed escape. *)

Module Sanitize.

(** [s.includes(p)]. *)
Fixpoint includes_str (p s : string) : bool :=
  Text.startsWith p s ||
  match s with
  | EmptyString => false
  | String _ s' => includes_str p s'
  end.

(** Removing every NUL character. *)
Fixpoint remove_nul (s : string) : string :=
  match s with
  | EmptyString => EmptyString
  | String c s' =>
      if Ascii.eqb c "000"%char then remove_nul s' else String c (remove_nul s')
  end.

(** Replacing every backslash by a slash. *)
Fixpoint backslash_to_slash (s : string) : string :=
  match s with
  | EmptyString => EmptyString
  | String c s' =>
      String (if Ascii.eqb c "\"%char then "/"%char else c) (backslash_to_slash s')
  end.

(** Removing, from left to right, every occurrence of two dots followed by
    [sep]. *)
Fixpoint remove_dotdot (sep : ascii) (s : string) : string :=
  match s with
  | EmptyString => EmptyString
  | String c s' =>
      match s' with
      | String c1 (String c2 rest) =>
          if Ascii.eqb c "."%char && Ascii.eqb c1 "."%char && Ascii.eqb c2 sep
          then remove_dotdot sep rest
          else String c (remove_dotdot sep s')
      | _ => String c (remove_dotdot sep s')
      end
  end.

Definition has_traversal (s : string) : bool :=
  includes_str "../" s || includes_str ("..\")%string s.

(** The [while] loop; [fuel] bounds the number of turns, and [None] means
    that the bound was reached with the condition still true. *)
Fixpoint strip_loop (fuel : nat) (s : string) : option string :=
  if has_traversal s then
    match fuel with
    | O => None
    | S k => strip_loop k (remove_dotdot "\"%char (remove_dotdot "/"%char s))
    end
  else Some s.

(** The final test: two dots, or an escaped form of them, in any case. *)
Definition forbidden (s : string) : bool :=
  includes_str ".." s
  || includes_str "%2e%2e" (Text.toLowerCase s)
  || includes_str "%252e" (Text.toLowerCase s).

Definition sanitizePath (decodeURIComponent : string -> Outcome string) (fuel : nat)
    (path : string) : option (Outcome string) :=
  match decodeURIComponent path with
  | Threw m => Some (Threw m)
  | Returned once =>
      match decodeURIComponent once with
      | Threw m => Some (Threw m)
      | Returned twice =>
          match strip_loop fuel (backslash_to_slash (remove_nul twice)) with
          | None => None
          | Some sanitized =>
              if forbidden sanitized
              then Some (Threw "Path contains forbidden sequences")
              else Some (Returned sanitized)
          end
      end
  end.

End Sanitize.

(** ** The calls that create directories and write the master playlist

    [FileSystem] holds regular files only.  The functions below are
    [compressVideo] and [convertToHLSStreaming] with the calls of theirs that
    act on directories or can throw while writing, which the definitions
    above leave out. *)

Module FfmpegIO.

(** [compressVideo] from its first statement on.  [mkdirOutputDir outputPath]
    is what creating the directory of the output path, when it is missing,
    comes to: [None] when the directory is there afterwards, [Some m] when
    [mkdirSync] throws [m], which rejects the promise.  The directory is
    created before the input file is looked for. *)
Definition compressVideo (mkdirOutputDir : string -> option string) (fs : FileSystem)
    (transcoder : string -> string -> string -> TranscoderRun)
    (inputPath outputPath quality : string) : Outcome CompressOutcome * FileSystem :=
  match mkdirOutputDir outputPath with
  | Some m => (Threw m, fs)
  | None =>
      let '(outcome, fs') :=
        Ffmpeg.compressVideo fs transcoder inputPath outputPath quality in
      (Returned outcome, fs')
  end.

End FfmpegIO.

Module HlsIO.
Import HlsConverter.

(** [generateMasterPlaylist] with its write.  [writeFileSync path content] is
    [None] when the file is written and [Some m] when the call throws [m]. *)
Definition generateMasterPlaylist (writeFileSync : string -> string -> option string)
    (fs : FileSystem) (ffprobe : string -> FfprobeOutcome)
    (hlsDir : string) (convertedQualities : gmap string ConvertedQuality)
  : MasterPlaylistResult :=
  let composed := HlsConverter.generateMasterPlaylist fs ffprobe hlsDir convertedQualities in
  match mp_path composed, mp_content composed with
  | Some masterPath, Some content =>
      match writeFileSync masterPath content with
      | None => composed
      | Some m =>
          {| mp_success := false; mp_path := None; mp_content := None;
             mp_error := Some m |}
      end
  | _, _ => composed
  end.

(** [convertToHLSStreaming] with the creation of the HLS directory and the
    write of the master playlist: its result and the master playlist it
    wrote.  [mkdirSync dir] is what creating [dir], when it is missing, comes
    to: [None] when the directory is there afterwards, [Some m] when the call
    throws [m]. *)
Definition convertToHLSStreaming (mkdirSync : string -> option string)
    (writeFileSync : string -> string -> option string)
    (fs : FileSystem) (ffprobe : string -> FfprobeOutcome)
    (convertToHLS : string -> string -> string -> Z -> bool -> SegmentResult)
    (cfg : Config) (paths : VideoPaths) (postId year month : Z)
  : HLSConversionResult * option string :=
  let hlsDir := path_output_dir paths +:+ "/hls" in
  match mkdirSync hlsDir with
  | Some m => (hls_failure m, None)
  | None =>
      let '(convertedQualities, availableQualities) := converted fs convertToHLS cfg paths in
      match availableQualities with
      | [] => (hls_failure "No quality levels were successfully converted to HLS", None)
      | _ =>
          let masterResult :=
            generateMasterPlaylist writeFileSync fs ffprobe hlsDir convertedQualities in
          if negb (mp_success masterResult) then
            (hls_failure ("Failed to generate master playlist: " +:+
                          default "undefined" (mp_error masterResult)), None)
          else
            let hlsMasterUrl := buildHLSUrl cfg postId year month "master.m3u8" in
            let url q :=
              if includes availableQualities q
              then Some (buildHLSUrl cfg postId year month (q +:+ ".m3u8")) else None in
            ({| hc_success := true; hc_hls_master_url := Some hlsMasterUrl;
                hc_hls_urls := Some {| hls_master := hlsMasterUrl;
                                       hls_480p := url "480p"; hls_360p := url "360p";
                                       hls_240p := url "240p"; hls_144p := url "144p" |};
                hc_hls_dir := Some hlsDir; hc_qualities := Some availableQualities;
                hc_segment_duration := Some (getHlsSegmentDuration cfg);
                hc_error := None |},
             mp_content masterResult)
      end
  end.

End HlsIO.

(** * Properties *)

(** ** C9: segment duration *)

(** C9. For every configured [HLS_TIME], the segment duration used is
    [min (max HLS_TIME 2) 3], it lies in [[2, 3]], and the keyframe interval
    forced during transcoding is that same clamped value. *)
Theorem C9_segment_duration_clamped (cfg : Config) :
  HlsConverter.getHlsSegmentDuration cfg = Z.min (Z.max (hls_time cfg) 2) 3
  /\ 2 <= HlsConverter.getHlsSegmentDuration cfg <= 3
  /\ Ffmpeg.getHlsKeyframeInterval cfg = HlsConverter.getHlsSegmentDuration cfg
  /\ Ffmpeg.force_key_frames_option cfg =
       "-force_key_frames expr:gte(t,n_forced*" +:+
       Text.Z_to_string (Z.min (Z.max (hls_time cfg) 2) 3) +:+ ")".
Proof.
  assert (E : HlsConverter.getHlsSegmentDuration cfg
              = Z.min (Z.max (hls_time cfg) 2) 3).
  { unfold HlsConverter.getHlsSegmentDuration, or_default.
    destruct (Z.eqb_spec (hls_time cfg) 0) as [-> | _]; reflexivity. }
  repeat split.
  - exact E.
  - rewrite E. lia.
  - rewrite E. lia.
  - unfold Ffmpeg.force_key_frames_option.
    change (Ffmpeg.getHlsKeyframeInterval cfg)
      with (HlsConverter.getHlsSegmentDuration cfg).
    now rewrite E.
Qed.

(** ** Helper lemmas on comparisons *)

Lemma Qgtb_spec (a b : Q) : Num.Qgtb a b = true <-> (b < a)%Q.
Proof.
  unfold Num.Qgtb. rewrite negb_true_iff.
  split.
  - intros H. apply Qnot_le_lt. intros L.
    apply Qle_bool_iff in L. congruence.
  - intros H. destruct (Qle_bool a b) eqn:E; [|reflexivity].
    apply Qle_bool_iff in E. exfalso. exact (Qlt_not_le _ _ H E).
Qed.

Lemma Qgtb_false (a b : Q) : Num.Qgtb a b = false <-> (a <= b)%Q.
Proof.
  unfold Num.Qgtb. rewrite negb_false_iff. apply Qle_bool_iff.
Qed.

(** The size test of [validateInputVideo] is a test on the byte count. *)
Lemma size_test (size : Z) :
  Num.Qgtb (inject_Z size / inject_Z (1024 * 1024)) (inject_Z VIDEO_VALIDATION.MAX_SIZE_MB)
  = (104857600 <? size).
Proof.
  destruct (Z.ltb_spec 104857600 size) as [H | H].
  - apply Qgtb_spec.
    unfold Qlt, Qdiv, Qmult, Qinv, inject_Z, VIDEO_VALIDATION.MAX_SIZE_MB. simpl. lia.
  - apply Qgtb_false.
    unfold Qle, Qdiv, Qmult, Qinv, inject_Z, VIDEO_VALIDATION.MAX_SIZE_MB. simpl. lia.
Qed.

(** Validation of an existing file whose probe is acceptable is decided by the
    byte count and the probed duration alone. *)
Lemma validateInputVideo_decided fs ffprobe p size :
  files fs !! p = Some size ->
  probe_acceptable (Probe.getVideoInfo fs ffprobe p) ->
  let r := VideoValidation.validateInputVideo fs ffprobe p in
  let d := vi_duration (Probe.getVideoInfo fs ffprobe p) in
  (104857600 < size -> rejected_with ERROR_CODES.FILE_TOO_LARGE r) /\
  (size <= 104857600 -> (300 < d)%Q -> rejected_with ERROR_CODES.DURATION_TOO_LONG r) /\
  (size <= 104857600 -> (d <= 300)%Q -> accepted r).
Proof.
  intros Hsz (Hv & Hc & Hcodec) r d. subst r d.
  unfold VideoValidation.validateInputVideo, Fs.statSize, accepted, rejected_with.
  rewrite Hsz, size_test, Hv, Hc.
  change (inject_Z VIDEO_VALIDATION.MAX_DURATION) with 300%Q.
  destruct (Z.ltb_spec 104857600 size) as [Hbig | Hsmall].
  - repeat split; intros; solve [reflexivity | lia].
  - cbn [orb negb].
    split; [intros; lia |]. split.
    + intros _ Hd. apply Qgtb_spec in Hd. rewrite Hd. split; reflexivity.
    + intros _ Hd. apply Qgtb_false in Hd. rewrite Hd.
      destruct (Probe.nonempty _); [rewrite Hcodec |]; split; reflexivity.
Qed.

(** ** C3: duration and size boundaries *)

(** C3. Validation accepts a video of exactly 300.0 s and rejects one of
    300.01 s with DURATION_TOO_LONG; it accepts a file of exactly 100 MiB and
    rejects one of 100 MiB plus one byte with FILE_TOO_LARGE.  The file is
    assumed to exist and to pass the corruption and codec checks. *)
Theorem C3_validation_boundaries fs ffprobe p size :
  files fs !! p = Some size ->
  probe_acceptable (Probe.getVideoInfo fs ffprobe p) ->
  let r := VideoValidation.validateInputVideo fs ffprobe p in
  let d := vi_duration (Probe.getVideoInfo fs ffprobe p) in
  (size <= 100 * 1024 * 1024 -> (d == 300)%Q -> accepted r) /\
  (size <= 100 * 1024 * 1024 -> (d == 30001 # 100)%Q ->
     rejected_with ERROR_CODES.DURATION_TOO_LONG r) /\
  (size = 100 * 1024 * 1024 -> (d <= 300)%Q -> accepted r) /\
  (size = 100 * 1024 * 1024 + 1 -> rejected_with ERROR_CODES.FILE_TOO_LARGE r).
Proof.
  intros Hsz Hok r d.
  destruct (validateInputVideo_decided fs ffprobe p size Hsz Hok) as (Hbig & Hlong & Hfine).
  fold r d in Hbig, Hlong, Hfine.
  split; [| split; [| split]].
  - intros Hs Hd. apply Hfine; [lia | rewrite Hd; apply Qle_refl].
  - intros Hs Hd. apply Hlong; [lia | rewrite Hd; reflexivity].
  - intros Hs Hd. apply Hfine; [lia | exact Hd].
  - intros Hs. apply Hbig; lia.
Qed.

(** The four boundary cases on concrete files probed as H.264 in an MP4. *)
Lemma C3_validation_boundaries_witness :
  accepted (VideoValidation.validateInputVideo
              (one_file "/uploads/a.mp4" 5242880)
              (one_video_stream 300 "mov,mp4,m4a,3gp,3g2,mj2" "h264") "/uploads/a.mp4") /\
  rejected_with ERROR_CODES.DURATION_TOO_LONG
    (VideoValidation.validateInputVideo
       (one_file "/uploads/a.mp4" 5242880)
       (one_video_stream (30001 # 100) "mov,mp4,m4a,3gp,3g2,mj2" "h264") "/uploads/a.mp4") /\
  accepted (VideoValidation.validateInputVideo
              (one_file "/uploads/a.mp4" 104857600)
              (one_video_stream 10 "mov,mp4,m4a,3gp,3g2,mj2" "h264") "/uploads/a.mp4") /\
  rejected_with ERROR_CODES.FILE_TOO_LARGE
    (VideoValidation.validateInputVideo
       (one_file "/uploads/a.mp4" 104857601)
       (one_video_stream 10 "mov,mp4,m4a,3gp,3g2,mj2" "h264") "/uploads/a.mp4").
Proof.
  split; [| split; [| split]].
  - destruct (C3_validation_boundaries
                (one_file "/uploads/a.mp4" 5242880)
                (one_video_stream 300 "mov,mp4,m4a,3gp,3g2,mj2" "h264")
                "/uploads/a.mp4" 5242880 eq_refl) as (H & _).
    + vm_compute; auto.
    + apply H; [lia | vm_compute; reflexivity].
  - destruct (C3_validation_boundaries
                (one_file "/uploads/a.mp4" 5242880)
                (one_video_stream (30001 # 100) "mov,mp4,m4a,3gp,3g2,mj2" "h264")
                "/uploads/a.mp4" 5242880 eq_refl) as (_ & H & _).
    + vm_compute; auto.
    + apply H; [lia | vm_compute; reflexivity].
  - destruct (C3_validation_boundaries
                (one_file "/uploads/a.mp4" 104857600)
                (one_video_stream 10 "mov,mp4,m4a,3gp,3g2,mj2" "h264")
                "/uploads/a.mp4" 104857600 eq_refl) as (_ & _ & H & _).
    + vm_compute; auto.
    + apply H; [reflexivity | vm_compute; discriminate].
  - destruct (C3_validation_boundaries
                (one_file "/uploads/a.mp4" 104857601)
                (one_video_stream 10 "mov,mp4,m4a,3gp,3g2,mj2" "h264")
                "/uploads/a.mp4" 104857601 eq_refl) as (_ & _ & _ & H).
    + vm_compute; auto.
    + apply H; reflexivity.
Defined.

(** ** C4: container check *)

(** C4 (evaluation at the failing input).  A 5 MiB AVI file with a 20 s H.264
    stream: the probe reports container [avi], which is not among the allowed
    containers, and validation accepts the file. *)
Theorem C4_container_not_checked :
  let fs := one_file "/uploads/clip.avi" 5242880 in
  let ffprobe := one_video_stream 20 "avi" "h264" in
  let r := VideoValidation.validateInputVideo fs ffprobe "/uploads/clip.avi" in
  (vi_container <$> vr_video_info r) = Some (Some "avi") /\
  includes VIDEO_VALIDATION.ALLOWED_CONTAINERS "avi" = false /\
  vr_valid r = true /\ vr_error_code r = None.
Proof. vm_compute. repeat split. Qed.

(** No input at all makes validation answer INVALID_CONTAINER. *)
Lemma validateInputVideo_never_invalid_container fs ffprobe p :
  vr_error_code (VideoValidation.validateInputVideo fs ffprobe p)
  <> Some ERROR_CODES.INVALID_CONTAINER.
Proof.
  unfold VideoValidation.validateInputVideo.
  destruct (Fs.statSize fs p); [| discriminate].
  destruct (Num.Qgtb _ _); [discriminate |].
  destruct (_ || _); [discriminate |].
  destruct (Num.Qgtb _ _); [discriminate |].
  destruct (Probe.nonempty _); [| discriminate].
  destruct (negb _); discriminate.
Qed.

(** ** Decimal text *)

Section DecimalText.
Import Text.

Lemma small_cases (d : N) : (d < 10)%N ->
  d = 0%N \/ d = 1%N \/ d = 2%N \/ d = 3%N \/ d = 4%N \/
  d = 5%N \/ d = 6%N \/ d = 7%N \/ d = 8%N \/ d = 9%N.
Proof. lia. Qed.

Lemma digit_char_is_digit (d : N) : (d < 10)%N -> is_digit (digit_char d) = true.
Proof.
  intros H. destruct (small_cases d H) as [-> | [-> | [-> | [-> | [-> | [-> | [-> | [-> | [-> | ->]]]]]]]]];
    reflexivity.
Qed.

Lemma digit_val_char (d : N) : (d < 10)%N -> digit_val (digit_char d) = d.
Proof.
  intros H. destruct (small_cases d H) as [-> | [-> | [-> | [-> | [-> | [-> | [-> | [-> | [-> | ->]]]]]]]]];
    reflexivity.
Qed.

Lemma str_app_cons (c : ascii) (s t : string) : String c s +:+ t = String c (s +:+ t).
Proof. reflexivity. Qed.

Lemma str_app_nil (t : string) : "" +:+ t = t.
Proof. reflexivity. Qed.

Lemma str_app_assoc (a b c : string) : (a +:+ b) +:+ c = a +:+ (b +:+ c).
Proof.
  induction a as [| x a IH]; [reflexivity |].
  rewrite !str_app_cons. now rewrite IH.
Qed.

Lemma str_app_empty_r (a : string) : a +:+ "" = a.
Proof.
  induction a as [| x a IH]; [reflexivity |].
  rewrite str_app_cons. now rewrite IH.
Qed.

Lemma parse_digits_app (s t : string) (acc : N) :
  parse_digits acc (s +:+ t) = parse_digits (parse_digits acc s) t.
Proof.
  revert acc. induction s as [| c s IH]; intros acc; [reflexivity |].
  rewrite str_app_cons. cbn [parse_digits]. apply IH.
Qed.

Lemma all_digits_app (s t : string) :
  all_digits (s +:+ t) = all_digits s && all_digits t.
Proof.
  induction s as [| c s IH]; [reflexivity |].
  rewrite str_app_cons. cbn [all_digits]. rewrite IH. now rewrite andb_assoc.
Qed.

Lemma div10_bound (f : nat) (n : N) :
  (n < 2 ^ N.of_nat (S f))%N -> (n / 10 < 2 ^ N.of_nat f)%N.
Proof.
  intros H. rewrite Nat2N.inj_succ, N.pow_succ_r' in H.
  apply N.Div0.div_lt_upper_bound. lia.
Qed.

Lemma dec_fuel_parse (f : nat) : forall n : N,
  (n < 2 ^ N.of_nat f)%N -> parse_digits 0 (dec_fuel f n) = n.
Proof.
  induction f as [| f IH]; intros n Hn.
  - simpl in Hn. assert (n = 0%N) as -> by lia. reflexivity.
  - cbn [dec_fuel]. destruct (N.ltb_spec n 10) as [Hs | Hl].
    + cbn [parse_digits]. rewrite digit_val_char by assumption. lia.
    + rewrite parse_digits_app, (IH _ (div10_bound f n Hn)).
      cbn [parse_digits].
      rewrite digit_val_char by (apply N.mod_upper_bound; lia).
      rewrite (N.div_mod n 10) at 3 by lia. lia.
Qed.

Lemma dec_fuel_digits (f : nat) : forall n : N,
  (n < 2 ^ N.of_nat f)%N -> all_digits (dec_fuel f n) = true.
Proof.
  induction f as [| f IH]; intros n Hn.
  - cbn [dec_fuel all_digits].
    rewrite digit_char_is_digit by (apply N.mod_upper_bound; lia). reflexivity.
  - cbn [dec_fuel]. destruct (N.ltb_spec n 10) as [Hs | Hl].
    + cbn [all_digits]. now rewrite digit_char_is_digit.
    + rewrite all_digits_app, (IH _ (div10_bound f n Hn)).
      cbn [all_digits andb].
      rewrite digit_char_is_digit by (apply N.mod_upper_bound; lia). reflexivity.
Qed.

Lemma dec_fuel_nonempty (f : nat) (n : N) : dec_fuel f n <> "".
Proof.
  destruct f as [| f]; cbn [dec_fuel]; [discriminate |].
  destruct (n <? 10)%N; [discriminate |].
  destruct (dec_fuel f (n / 10)); [rewrite str_app_nil | rewrite str_app_cons]; discriminate.
Qed.

Lemma size_bound (n : N) : (n < 2 ^ N.of_nat (N.to_nat (N.size n)))%N.
Proof. rewrite N2Nat.id. apply N.size_gt. Qed.

(** Parsing the decimal text of a number gives the number back. *)
Lemma parse_dec (n : N) : parse_digits 0 (dec n) = n.
Proof. apply dec_fuel_parse, size_bound. Qed.

Lemma dec_digits (n : N) : all_digits (dec n) = true.
Proof. apply dec_fuel_digits, size_bound. Qed.

Lemma dec_nonempty (n : N) : dec n <> "".
Proof. apply dec_fuel_nonempty. Qed.

Lemma Z_to_string_nonneg (z : Z) : 0 <= z -> Z_to_string z = dec (Z.to_N z).
Proof. intros H. unfold Z_to_string. destruct (Z.ltb_spec z 0); [lia | reflexivity]. Qed.

Lemma parseInt_Z_to_string (z : Z) : 0 <= z -> parseInt (Z_to_string z) = z.
Proof.
  intros H. rewrite Z_to_string_nonneg by assumption.
  unfold parseInt. rewrite parse_dec. lia.
Qed.

End DecimalText.

(** ** Range header *)

Section RangeHeader.
Import Text ContentRoute.

Lemma take_digits_app (s t : string) :
  all_digits s = true -> no_leading_digit t = true ->
  take_digits (s +:+ t) = (s, t).
Proof.
  intros Hs Ht. induction s as [| c s IH].
  - rewrite str_app_nil. destruct t as [| c t]; [reflexivity |].
    cbn [take_digits]. cbn [no_leading_digit] in Ht.
    apply negb_true_iff in Ht. now rewrite Ht.
  - rewrite str_app_cons. cbn [all_digits] in Hs.
    apply andb_true_iff in Hs as [Hc Hs].
    cbn [take_digits]. rewrite Hc, (IH Hs). reflexivity.
Qed.

Lemma take_digits_all (s : string) :
  all_digits s = true -> take_digits s = (s, "").
Proof.
  intros H. rewrite <- (str_app_empty_r s) at 1.
  now apply take_digits_app.
Qed.

Lemma startsWith_app (p x : string) : startsWith p (p +:+ x) = true.
Proof.
  induction p as [| c p IH]; [reflexivity |].
  rewrite str_app_cons. cbn [startsWith]. now rewrite Ascii.eqb_refl.
Qed.

Lemma drop_app (p x : string) : drop (String.length p) (p +:+ x) = x.
Proof. induction p as [| c p IH]; [reflexivity | exact IH]. Qed.

Lemma match_range_hit (s : string) (m : string * string) :
  match_range_here s = Some m -> match_range s = Some m.
Proof. intros H. destruct s; cbn [match_range]; now rewrite H. Qed.

(** What the pattern captures on the three request shapes. *)
Lemma match_range_groups (g1 g2 : string) :
  all_digits g1 = true -> all_digits g2 = true ->
  match_range ("bytes=" +:+ g1 +:+ "-" +:+ g2) = Some (g1, g2).
Proof.
  intros H1 H2. apply match_range_hit. unfold match_range_here.
  rewrite startsWith_app.
  change 6%nat with (String.length "bytes="). rewrite drop_app.
  rewrite take_digits_app by (assumption || reflexivity).
  rewrite str_app_cons, str_app_nil.
  now rewrite take_digits_all.
Qed.

Lemma is_empty_dec (n : N) : is_empty (dec n) = false.
Proof. pose proof (dec_nonempty n). destruct (dec n); [congruence | reflexivity]. Qed.

Lemma parseRange_explicit (a b size : Z) :
  0 <= a -> 0 <= b ->
  parseRangeHeader (range_explicit a b) size = check_bounds a b size.
Proof.
  intros Ha Hb. unfold parseRangeHeader, range_explicit.
  rewrite !Z_to_string_nonneg by assumption.
  rewrite match_range_groups by apply dec_digits.
  rewrite !is_empty_dec. cbn [negb andb].
  unfold parseInt. rewrite !parse_dec. now rewrite !Z2N.id.
Qed.

Lemma parseRange_open (a size : Z) :
  0 <= a ->
  parseRangeHeader (range_open a) size = check_bounds a (size - 1) size.
Proof.
  intros Ha. unfold parseRangeHeader, range_open.
  rewrite Z_to_string_nonneg by assumption.
  rewrite <- (str_app_empty_r "-").
  rewrite match_range_groups by (apply dec_digits || reflexivity).
  rewrite is_empty_dec. cbn [is_empty negb andb].
  unfold parseInt. rewrite parse_dec. now rewrite Z2N.id.
Qed.

Lemma parseRange_suffix (n size : Z) :
  0 < n ->
  parseRangeHeader (range_suffix n) size
  = check_bounds (Z.max 0 (size - n)) (size - 1) size.
Proof.
  intros Hn. unfold parseRangeHeader, range_suffix.
  rewrite Z_to_string_nonneg by lia.
  change ("bytes=-" +:+ dec (Z.to_N n)) with ("bytes=" +:+ "" +:+ "-" +:+ dec (Z.to_N n)).
  rewrite match_range_groups by (apply dec_digits || reflexivity).
  rewrite is_empty_dec. cbn [is_empty negb andb].
  unfold parseInt. rewrite parse_dec, Z2N.id by lia.
  destruct (Z.leb_spec n 0); [lia | reflexivity].
Qed.

Lemma range_header_nonempty (c : ascii) (p g : string) :
  is_empty (String c p +:+ g) = false.
Proof. reflexivity. Qed.

End RangeHeader.

(** ** C7: range responses *)

Section RangeResponses.
Import Text ContentRoute.

(** C7 (as stated, suffix part).  On an empty streamable file a suffix range
    longer than the file is answered 416, not 206. *)
Lemma C7_suffix_range_on_empty_file :
  ~ (forall ext size n,
       includes STREAMABLE_EXTENSIONS ext = true ->
       0 <= size -> size < n ->
       status (GET_file ext size (Some (range_suffix n))) = 206).
Proof.
  intros H.
  specialize (H ".mp4" 0 500 eq_refl ltac:(lia) ltac:(lia)).
  vm_compute in H. discriminate.
Qed.

(** C7 (amended).  For a streamable file of [size] bytes:
    - [bytes=a-b] with [0 <= a <= b < size] is answered 206 with
      Content-Length [b - a + 1] and Content-Range [bytes a-b/size];
    - on a non-empty file, a suffix range longer than the file is answered
      206 with the whole file;
    - a range whose first byte [a] is at or past [size] is answered 416 with
      Content-Range [bytes */size]. *)
Theorem C7_range_responses (ext : string) (size : Z) :
  includes STREAMABLE_EXTENSIONS ext = true ->
  0 <= size ->
  (forall a b, 0 <= a -> a <= b -> b < size ->
     GET_file ext size (Some (range_explicit a b)) =
       {| status := 206;
          content_length := Some (Z_to_string (b - a + 1));
          content_range :=
            Some ("bytes " +:+ Z_to_string a +:+ "-" +:+ Z_to_string b +:+ "/" +:+
                  Z_to_string size);
          body := FileSlice a b |}) /\
  (forall n, 0 < size -> size < n ->
     GET_file ext size (Some (range_suffix n)) =
       {| status := 206;
          content_length := Some (Z_to_string size);
          content_range :=
            Some ("bytes " +:+ Z_to_string 0 +:+ "-" +:+ Z_to_string (size - 1) +:+
                  "/" +:+ Z_to_string size);
          body := FileSlice 0 (size - 1) |}) /\
  (forall a b, size <= a -> 0 <= b ->
     GET_file ext size (Some (range_explicit a b)) =
       {| status := 416; content_length := None;
          content_range := Some ("bytes */" +:+ Z_to_string size);
          body := RangeNotSatisfiable |}) /\
  (forall a, size <= a ->
     GET_file ext size (Some (range_open a)) =
       {| status := 416; content_length := None;
          content_range := Some ("bytes */" +:+ Z_to_string size);
          body := RangeNotSatisfiable |}).
Proof.
  intros Hext Hsize. unfold GET_file. rewrite Hext.
  repeat split.
  - intros a b Ha Hab Hb.
    unfold range_explicit at 1. rewrite range_header_nonempty. cbn [negb andb].
    rewrite parseRange_explicit by lia. unfold check_bounds.
    destruct (Z.ltb_spec a 0); [lia |]. destruct (Z.ltb_spec b 0); [lia |].
    destruct (Z.ltb_spec b a); [lia |]. destruct (Z.leb_spec size a); [lia |].
    cbn [orb]. now rewrite Z.min_l by lia.
  - intros n Hpos Hn.
    unfold range_suffix at 1. rewrite range_header_nonempty. cbn [negb andb].
    rewrite parseRange_suffix by lia. unfold check_bounds.
    rewrite Z.max_l by lia.
    destruct (Z.ltb_spec 0 0); [lia |]. destruct (Z.ltb_spec (size - 1) 0); [lia |].
    destruct (Z.leb_spec size 0); [lia |].
    cbn [orb]. rewrite Z.min_l by lia.
    now replace (size - 1 - 0 + 1) with size by lia.
  - intros a b Ha Hb.
    unfold range_explicit at 1. rewrite range_header_nonempty. cbn [negb andb].
    rewrite parseRange_explicit by lia. unfold check_bounds.
    destruct (Z.leb_spec size a); [| lia].
    now rewrite !orb_true_r.
  - intros a Ha.
    unfold range_open at 1. rewrite range_header_nonempty. cbn [negb andb].
    rewrite parseRange_open by lia. unfold check_bounds.
    destruct (Z.leb_spec size a); [| lia].
    now rewrite !orb_true_r.
Qed.

(** The three cases on a 200-byte segment, among them [bytes=-500]. *)
Lemma C7_range_responses_witness :
  status (GET_file ".ts" 200 (Some "bytes=10-99")) = 206 /\
  content_length (GET_file ".ts" 200 (Some "bytes=10-99")) = Some "90" /\
  content_range (GET_file ".ts" 200 (Some "bytes=10-99")) = Some "bytes 10-99/200" /\
  GET_file ".ts" 200 (Some "bytes=-500") =
    {| status := 206; content_length := Some "200";
       content_range := Some "bytes 0-199/200"; body := FileSlice 0 199 |} /\
  GET_file ".ts" 200 (Some "bytes=200-300") =
    {| status := 416; content_length := None;
       content_range := Some "bytes */200"; body := RangeNotSatisfiable |}.
Proof.
  destruct (C7_range_responses ".ts" 200 eq_refl ltac:(lia)) as (He & Hs & Hu & _).
  pose proof (He 10 99 ltac:(lia) ltac:(lia) ltac:(lia)) as E1.
  pose proof (Hs 500 ltac:(lia) ltac:(lia)) as E2.
  pose proof (Hu 200 300 ltac:(lia) ltac:(lia)) as E3.
  change (range_explicit 10 99) with "bytes=10-99" in E1.
  change (range_suffix 500) with "bytes=-500" in E2.
  change (range_explicit 200 300) with "bytes=200-300" in E3.
  rewrite E1, E2, E3. vm_compute. repeat split.
Defined.

End RangeResponses.


(** ** C5: the throttler *)

Section Throttling.
Import Webhook.

(** The rule [shouldSend] implements, in terms of the previous entry. *)
Lemma shouldSend_rule (t : Throttler) (now : Z) (j : string) (p : Z) :
  let lastProg := default 0 (lastProgress t !! j) in
  let lastTime := default 0 (lastSentTime t !! j) in
  fst (shouldSend t now j p) = true <->
  (p - lastProg >= 5 \/ now - lastTime > 3000 \/ p = 100 \/ (p = 0 /\ lastProg = 0)).
Proof.
  intros lastProg lastTime. unfold shouldSend.
  assert (E1 : or_default (default 0 (lastProgress t !! j)) 0 = lastProg).
  { unfold or_default. fold lastProg. destruct (Z.eqb_spec lastProg 0); congruence. }
  assert (E2 : or_default (default 0 (lastSentTime t !! j)) 0 = lastTime).
  { unfold or_default. fold lastTime. destruct (Z.eqb_spec lastTime 0); congruence. }
  rewrite E1, E2.
  destruct (Z.geb_spec (p - lastProg) 5); destruct (Z.gtb_spec (now - lastTime) 3000);
    destruct (Z.eqb_spec p 100); destruct (Z.eqb_spec p 0);
    destruct (Z.eqb_spec lastProg 0); cbn; split; intros; try lia; try discriminate;
    try reflexivity.
Qed.

(** A terminal webhook with an endpoint configured issues at least one POST
    carrying its payload, whatever the throttler holds. *)
Lemma send_attempts_posts endpoint k lastError payload sent :
  exists r n,
    send_attempts endpoint (S k) lastError payload sent
    = (r, sent ++ replicate (S n) payload).
Proof.
  revert lastError sent. induction k as [| k IH]; intros lastError sent.
  - cbn [send_attempts]. destruct (wr_success _); eexists _, 0%nat; reflexivity.
  - cbn [send_attempts].
    destruct (wr_success (sendWebhookOnce (endpoint (length sent) payload))).
    + eexists _, 0%nat; reflexivity.
    + destruct (IH (wr_error (sendWebhookOnce (endpoint (length sent) payload)))
                  (sent ++ [payload])) as (r & n & E).
      exists r, (S n). cbn [send_attempts] in E. rewrite E.
      now rewrite <- app_assoc.
Qed.

Lemma completion_bypasses_throttler cfg endpoint j pid result st :
  wordpress_webhook_url cfg <> "" ->
  exists r n,
    sendCompletionWebhook cfg endpoint j pid result st =
      (r, {| throttler := cleanup (throttler st) j;
             posts := posts st ++ replicate (S n) (completion_payload j pid result) |})
    /\ lastProgress (cleanup (throttler st) j) !! j = None
    /\ lastSentTime (cleanup (throttler st) j) !! j = None.
Proof.
  intros Hurl. unfold sendCompletionWebhook, sendWebhook.
  destruct (wordpress_webhook_url cfg) eqn:E; [congruence |].
  cbn [Text.is_empty posts throttler]. unfold WEBHOOK_MAX_RETRIES.
  destruct (send_attempts_posts endpoint 2 None (completion_payload j pid result) (posts st))
    as (r & n & ->).
  exists r, n. repeat split; apply lookup_delete_eq.
Qed.

Lemma failure_bypasses_throttler cfg endpoint j pid error st :
  wordpress_webhook_url cfg <> "" ->
  exists r n,
    sendFailureWebhook cfg endpoint j pid error st =
      (r, {| throttler := cleanup (throttler st) j;
             posts := posts st ++ replicate (S n) (failure_payload j pid error) |})
    /\ lastProgress (cleanup (throttler st) j) !! j = None
    /\ lastSentTime (cleanup (throttler st) j) !! j = None.
Proof.
  intros Hurl. unfold sendFailureWebhook, sendWebhook.
  destruct (wordpress_webhook_url cfg) eqn:E; [congruence |].
  cbn [Text.is_empty posts throttler]. unfold WEBHOOK_MAX_RETRIES.
  destruct (send_attempts_posts endpoint 2 None (failure_payload j pid error) (posts st))
    as (r & n & ->).
  exists r, n. repeat split; apply lookup_delete_eq.
Qed.

(** C5 (evaluation at the failing input).  The job's last progress webhook
    was 50 % at time 1700000010000 ms.  Exactly 3000 ms later the transcoder
    reports progress again and the callback passes the same milestone, 50 %:
    3 s have elapsed, and the throttler suppresses the update, so no POST is
    issued. *)
Theorem C5_exactly_three_seconds_is_suppressed :
  let st := {| throttler := Sample.at_fifty; posts := [] |} in
  1700000013000 - 1700000010000 = 3000 /\
  shouldSend Sample.at_fifty 1700000013000 "job_42_1700000000000" 50
    = (false, Sample.at_fifty) /\
  posts (snd (sendProgressUpdate Sample.cfg Sample.ok_endpoint 1700000013000
                "job_42_1700000000000" 42 processing 50 "compressing_360p" st)) = [].
Proof. vm_compute. repeat split. Qed.

(** One millisecond later the same update is sent. *)
Lemma just_over_three_seconds_is_sent :
  fst (shouldSend Sample.at_fifty 1700000013001 "job_42_1700000000000" 50) = true.
Proof. vm_compute. reflexivity. Qed.

End Throttling.

(** ** The handler under every interleaving *)

Section Interleavings.
Import Worker.

Variable e : Env.
Variable spawn : Z -> string -> Prog unit.

(** *** The equations of [exec] *)

Lemma exec_ret {A} sched n (a : A) st :
  exec e spawn sched n (Ret a) st
  = (Settles (Returned a), interfere e spawn (sched n) st).
Proof. reflexivity. Qed.

Lemma exec_throw {A} sched n m st :
  exec (A := A) e spawn sched n (Throw m) st
  = (Settles (Threw m), interfere e spawn (sched n) st).
Proof. reflexivity. Qed.

Lemma exec_never {A} sched n st :
  exec (A := A) e spawn sched n Never st = (Pending, interfere e spawn (sched n) st).
Proof. reflexivity. Qed.

Lemma exec_write {A} sched n p (next : Prog A) st :
  exec e spawn sched n (WriteProgress p next) st
  = exec e spawn sched (S n) next (write_progress p (interfere e spawn (sched n) st)).
Proof. reflexivity. Qed.

Lemma exec_should {A} sched n j p (next : bool -> Prog A) st :
  exec e spawn sched n (ShouldSend j p next) st
  = exec e spawn sched (S n)
      (next (should_send e j p (interfere e spawn (sched n) st)).1)
      (should_send e j p (interfere e spawn (sched n) st)).2.
Proof.
  cbn [exec]. destruct (should_send e j p _). reflexivity.
Qed.

Lemma exec_cleanup {A} sched n j (next : Prog A) st :
  exec e spawn sched n (Cleanup j next) st
  = exec e spawn sched (S n) next (cleanup j (interfere e spawn (sched n) st)).
Proof. reflexivity. Qed.

Lemma exec_post {A} sched n w (next : WebhookResponse -> Prog A) st :
  exec e spawn sched n (Post w next) st
  = exec e spawn sched (S n)
      (next (post e w (interfere e spawn (sched n) st)).1)
      (post e w (interfere e spawn (sched n) st)).2.
Proof. reflexivity. Qed.

Lemma exec_start {A} sched n p s (next : Prog A) st :
  exec e spawn sched n (Start p s next) st
  = exec e spawn sched (S n) next (start (spawn p s) (interfere e spawn (sched n) st)).
Proof. reflexivity. Qed.

(** While no callback has been started, nothing happens between the steps. *)
Lemma interfere_idle turns st :
  detached st = [] -> interfere e spawn turns st = st.
Proof.
  intros Hd. unfold interfere. induction turns as [| i turns IH]; [reflexivity |].
  cbn [fold_left]. unfold step_detached at 2. rewrite Hd. exact IH.
Qed.

(** The throttler never holds back an update at 100 %. *)
Lemma should_send_hundred j p st :
  p = 100 -> (should_send e j p st).1 = true.
Proof.
  intros ->. unfold should_send, Webhook.shouldSend.
  rewrite Z.eqb_refl, orb_true_r. reflexivity.
Qed.

Lemma should_send_state j p st :
  progress_updates (should_send e j p st).2 = progress_updates st /\
  posts (webhook (should_send e j p st).2) = posts (webhook st) /\
  detached (should_send e j p st).2 = detached st.
Proof.
  unfold should_send. destruct (Webhook.shouldSend _ _ _ _). repeat split.
Qed.

(** *** What the steps of the callbacks and of the function add *)

Section Sound.
Variable Qs : Z -> string -> Prop.
Variable Qw : Z -> Prop.
Variable Qp : WebhookPayload -> Prop.
Hypothesis spawn_safe : forall p s, Qs p s -> safe Qs Qw Qp (spawn p s).

Lemma grown_refl st :
  Forall (safe Qs Qw Qp) (detached st) -> grown Qs Qw Qp st st [] [].
Proof.
  intros H. unfold grown, appended. rewrite !app_nil_r. repeat split; auto.
Qed.

Lemma grown_trans st1 st2 st3 lw1 lp1 lw2 lp2 :
  grown Qs Qw Qp st1 st2 lw1 lp1 -> grown Qs Qw Qp st2 st3 lw2 lp2 ->
  grown Qs Qw Qp st1 st3 (lw1 ++ lw2) (lp1 ++ lp2).
Proof.
  intros ([W1 P1] & Fw1 & Fp1 & _) ([W2 P2] & Fw2 & Fp2 & D).
  unfold grown, appended. rewrite W2, W1, P2, P1, !app_assoc.
  repeat split; auto; now apply Forall_app.
Qed.

Lemma step_detached_grown i st :
  Forall (safe Qs Qw Qp) (detached st) ->
  exists lw lp, grown Qs Qw Qp st (step_detached e spawn i st) lw lp.
Proof.
  intros D. unfold step_detached.
  destruct (detached st !! i) as [t |] eqn:Et;
    [| exists [], []; now apply grown_refl].
  assert (St : safe Qs Qw Qp t) by (eapply Forall_lookup_1; eauto).
  unfold safe in St.
  destruct t as [a | m | | p next | j p next | j next | w next | p s next].
  1-3: exists [], []; now apply grown_refl.
  - inversion St; subst.
    exists [p], []. unfold grown, appended. cbn. rewrite app_nil_r.
    repeat split; auto. now apply Forall_insert.
  - inversion St as [| | | | | ? ? ? ? Hn | | | |]; subst.
    pose proof (should_send_state j p st) as (Ew & Ep & Ed).
    pose proof (Hn _ (should_send_hundred j p st)) as Hs.
    destruct (should_send e j p st) as [ok st1]. cbn [fst snd] in *.
    exists [], []. unfold grown, appended. cbn. rewrite Ew, Ep, Ed, !app_nil_r.
    repeat split; auto. now apply Forall_insert.
  - inversion St; subst.
    exists [], []. unfold grown, appended. cbn. rewrite !app_nil_r.
    repeat split; auto. now apply Forall_insert.
  - inversion St as [| | | | | | | | ? ? ? Hq Hn |]; subst.
    exists [], [w]. unfold grown, appended. cbn. rewrite app_nil_r.
    repeat split; auto. apply Forall_insert; [exact D | apply Hn].
  - inversion St; subst.
    exists [], []. unfold grown, appended. cbn. rewrite !app_nil_r.
    repeat split; auto. apply Forall_app. split.
    + now apply Forall_insert.
    + constructor; [now apply spawn_safe | constructor].
Qed.

Lemma interfere_grown turns st :
  Forall (safe Qs Qw Qp) (detached st) ->
  exists lw lp, grown Qs Qw Qp st (interfere e spawn turns st) lw lp.
Proof.
  unfold interfere. revert st. induction turns as [| i turns IH]; intros st D.
  - exists [], []. now apply grown_refl.
  - cbn [fold_left].
    destruct (step_detached_grown i st D) as (lw1 & lp1 & G1).
    destruct (IH _ (proj2 (proj2 (proj2 G1)))) as (lw2 & lp2 & G2).
    exists (lw1 ++ lw2), (lp1 ++ lp2). eapply grown_trans; eauto.
Qed.

(** Soundness of [traces]: under every interleaving with callbacks that are
    safe, the function ends as [Q] says, its own steps are found, in their
    order, among what was written and posted, and all that was written and
    posted, by itself or by a callback, is allowed. *)
Lemma exec_sound {A : Type} (Q : Promise A -> Prop) (c : Prog A) (ms : list Mark) :
  traces Qs Qw Qp Q c ms ->
  forall sched n st,
    Forall (safe Qs Qw Qp) (detached st) ->
    exists lw lp,
      Q (exec e spawn sched n c st).1 /\
      grown Qs Qw Qp st (exec e spawn sched n c st).2 lw lp /\
      sublist (writes_of ms) lw /\ sublist (posts_of ms) lp.
Proof.
  induction 1 as [a Ha | m Hm | Hn | p next ms Hp _ IH | p next ms Hp _ IH
                  | j p next ms _ IH | j next ms _ IH | w next ms Hw _ IH
                  | w next ms Hw _ IH | p s next ms Hs _ IH];
    intros sched n st D;
    destruct (interfere_grown (sched n) st D) as (lw0 & lp0 & G0);
    pose proof (proj2 (proj2 (proj2 G0))) as D0.
  - rewrite exec_ret. exists lw0, lp0. cbn [fst snd].
    split; [exact Ha |]. split; [exact G0 |]. split; apply sublist_nil_l.
  - rewrite exec_throw. exists lw0, lp0. cbn [fst snd].
    split; [exact Hm |]. split; [exact G0 |]. split; apply sublist_nil_l.
  - rewrite exec_never. exists lw0, lp0. cbn [fst snd].
    split; [exact Hn |]. split; [exact G0 |]. split; apply sublist_nil_l.
  - rewrite exec_write.
    assert (G1 : grown Qs Qw Qp (interfere e spawn (sched n) st)
                   (write_progress p (interfere e spawn (sched n) st)) [p] []).
    { unfold grown, appended. cbn. rewrite app_nil_r. repeat split; auto. }
    destruct (IH sched (S n) _ (proj2 (proj2 (proj2 G1)))) as (lw & lp & HQ & G & Sw & Sp).
    exists (lw0 ++ [p] ++ lw), (lp0 ++ [] ++ lp). split; [exact HQ |].
    split; [eapply grown_trans; [exact G0 | eapply grown_trans; eauto] |].
    split.
    + cbn [writes_of omap]. apply sublist_inserts_l. cbn. now apply sublist_skip.
    + cbn [posts_of omap]. apply sublist_inserts_l. exact Sp.
  - rewrite exec_write.
    assert (G1 : grown Qs Qw Qp (interfere e spawn (sched n) st)
                   (write_progress p (interfere e spawn (sched n) st)) [p] []).
    { unfold grown, appended. cbn. rewrite app_nil_r. repeat split; auto. }
    destruct (IH sched (S n) _ (proj2 (proj2 (proj2 G1)))) as (lw & lp & HQ & G & Sw & Sp).
    exists (lw0 ++ [p] ++ lw), (lp0 ++ [] ++ lp). split; [exact HQ |].
    split; [eapply grown_trans; [exact G0 | eapply grown_trans; eauto] |].
    split.
    + apply sublist_inserts_l. cbn. now apply sublist_cons.
    + apply sublist_inserts_l. exact Sp.
  - rewrite exec_should.
    set (st0 := interfere e spawn (sched n) st) in *.
    pose proof (should_send_state j p st0) as (Ew & Ep & Ed).
    assert (G1 : grown Qs Qw Qp st0 (should_send e j p st0).2 [] []).
    { unfold grown, appended. rewrite Ew, Ep, Ed, !app_nil_r. repeat split; auto. }
    destruct (IH _ (should_send_hundred j p st0) sched (S n) _
                (proj2 (proj2 (proj2 G1)))) as (lw & lp & HQ & G & Sw & Sp).
    exists (lw0 ++ [] ++ lw), (lp0 ++ [] ++ lp). split; [exact HQ |].
    split; [eapply grown_trans; [exact G0 | eapply grown_trans; eauto] |].
    split; apply sublist_inserts_l; assumption.
  - rewrite exec_cleanup.
    assert (G1 : grown Qs Qw Qp (interfere e spawn (sched n) st)
                   (cleanup j (interfere e spawn (sched n) st)) [] []).
    { unfold grown, appended. cbn. rewrite !app_nil_r. repeat split; auto. }
    destruct (IH sched (S n) _ (proj2 (proj2 (proj2 G1)))) as (lw & lp & HQ & G & Sw & Sp).
    exists (lw0 ++ [] ++ lw), (lp0 ++ [] ++ lp). split; [exact HQ |].
    split; [eapply grown_trans; [exact G0 | eapply grown_trans; eauto] |].
    split; apply sublist_inserts_l; assumption.
  - rewrite exec_post.
    set (st0 := interfere e spawn (sched n) st) in *.
    assert (G1 : grown Qs Qw Qp st0 (post e w st0).2 [] [w]).
    { unfold grown, appended. cbn. rewrite app_nil_r. repeat split; auto. }
    destruct (IH (post e w st0).1 sched (S n) _ (proj2 (proj2 (proj2 G1))))
      as (lw & lp & HQ & G & Sw & Sp).
    exists (lw0 ++ [] ++ lw), (lp0 ++ [w] ++ lp). split; [exact HQ |].
    split; [eapply grown_trans; [exact G0 | eapply grown_trans; eauto] |].
    split.
    + apply sublist_inserts_l. exact Sw.
    + cbn [posts_of omap]. apply sublist_inserts_l. cbn. now apply sublist_skip.
  - rewrite exec_post.
    set (st0 := interfere e spawn (sched n) st) in *.
    assert (G1 : grown Qs Qw Qp st0 (post e w st0).2 [] [w]).
    { unfold grown, appended. cbn. rewrite app_nil_r. repeat split; auto. }
    destruct (IH (post e w st0).1 sched (S n) _ (proj2 (proj2 (proj2 G1))))
      as (lw & lp & HQ & G & Sw & Sp).
    exists (lw0 ++ [] ++ lw), (lp0 ++ [w] ++ lp). split; [exact HQ |].
    split; [eapply grown_trans; [exact G0 | eapply grown_trans; eauto] |].
    split.
    + apply sublist_inserts_l. exact Sw.
    + apply sublist_inserts_l. cbn. now apply sublist_cons.
  - rewrite exec_start.
    set (st0 := interfere e spawn (sched n) st) in *.
    assert (G1 : grown Qs Qw Qp st0 (start (spawn p s) st0) [] []).
    { unfold grown, appended. cbn. rewrite !app_nil_r. repeat split; auto.
      apply Forall_app. split; [exact D0 |].
      constructor; [now apply spawn_safe | constructor]. }
    destruct (IH sched (S n) _ (proj2 (proj2 (proj2 G1)))) as (lw & lp & HQ & G & Sw & Sp).
    exists (lw0 ++ [] ++ lw), (lp0 ++ [] ++ lp). split; [exact HQ |].
    split; [eapply grown_trans; [exact G0 | eapply grown_trans; eauto] |].
    split; apply sublist_inserts_l; assumption.
Qed.


End Sound.
End Interleavings.

(** ** What the handler's functions do *)

Section Tracing.
Import Worker.

Variable Qs : Z -> string -> Prop.
Variable Qw : Z -> Prop.
Variable Qp : WebhookPayload -> Prop.

Lemma traces_mono {A} (Q Q' : Promise A -> Prop) c ms :
  (forall o, Q o -> Q' o) -> traces Qs Qw Qp Q c ms -> traces Qs Qw Qp Q' c ms.
Proof.
  intros HQ. induction 1; constructor; auto.
Qed.

(** The steps of [c] and then those of what follows it. *)
Lemma traces_bind {A B} (Q1 : Promise A -> Prop) (Q : Promise B -> Prop)
    (c : Prog A) (k : A -> Prog B) ms1 ms2 :
  traces Qs Qw Qp Q1 c ms1 ->
  (forall a, Q1 (Settles (Returned a)) -> traces Qs Qw Qp Q (k a) ms2) ->
  (forall m, Q1 (Settles (Threw m)) -> ms2 = [] /\ Q (Settles (Threw m))) ->
  (Q1 Pending -> ms2 = [] /\ Q Pending) ->
  traces Qs Qw Qp Q (bind c k) (ms1 ++ ms2).
Proof.
  intros H Hk Ht Hn.
  induction H as [a Ha | m Hm | Hp | | | | | | |]; cbn [bind app].
  - now apply Hk.
  - destruct (Ht m Hm) as [-> HQ]. now constructor.
  - destruct (Hn Hp) as [-> HQ]. now constructor.
  - constructor; auto.
  - apply tr_write_skip; auto.
  - constructor; auto.
  - constructor; auto.
  - constructor; auto.
  - apply tr_post_skip; auto.
  - constructor; auto.
Qed.

Lemma traces_then {A B} (P : A -> Prop) (Q : Promise B -> Prop)
    (c : Prog A) (k : A -> Prog B) ms1 ms2 :
  traces Qs Qw Qp (resolved P) c ms1 ->
  (forall a, P a -> traces Qs Qw Qp Q (k a) ms2) ->
  traces Qs Qw Qp Q (bind c k) (ms1 ++ ms2).
Proof.
  intros H Hk. eapply traces_bind; eauto; intros; contradiction.
Qed.

(** When what follows takes no step that is looked for, [c] may end in any
    way. *)
Lemma traces_bind_any {A B} (Q1 : Promise A -> Prop) (Q : Promise B -> Prop)
    (c : Prog A) (k : A -> Prog B) ms :
  traces Qs Qw Qp Q1 c ms ->
  (forall a, Q1 (Settles (Returned a)) -> traces Qs Qw Qp Q (k a) []) ->
  (forall m, Q1 (Settles (Threw m)) -> Q (Settles (Threw m))) ->
  (Q1 Pending -> Q Pending) ->
  traces Qs Qw Qp Q (bind c k) ms.
Proof.
  intros H Hk Ht Hn. rewrite <- (app_nil_r ms).
  eapply traces_bind; eauto.
Qed.

Lemma traces_try_catch {A} (Q1 Q : Promise A -> Prop) (c : Prog A) h ms :
  traces Qs Qw Qp Q1 c ms ->
  (forall a, Q1 (Settles (Returned a)) -> Q (Settles (Returned a))) ->
  (Q1 Pending -> Q Pending) ->
  (forall m, Q1 (Settles (Threw m)) -> traces Qs Qw Qp Q (h m) []) ->
  traces Qs Qw Qp Q (try_catch c h) ms.
Proof.
  intros H Hr Hn Ht.
  induction H as [a Ha | m Hm | Hp | | | | | | |]; cbn [try_catch].
  - constructor. auto.
  - auto.
  - constructor. auto.
  - constructor; auto.
  - apply tr_write_skip; auto.
  - constructor; auto.
  - constructor; auto.
  - constructor; auto.
  - apply tr_post_skip; auto.
  - constructor; auto.
Qed.

(** A body that resolves never enters the catch block. *)
Lemma traces_try_resolved {A} (P : A -> Prop) (c : Prog A) h ms :
  traces Qs Qw Qp (resolved P) c ms ->
  traces Qs Qw Qp (resolved P) (try_catch c h) ms.
Proof.
  intros H. eapply traces_try_catch; eauto; intros; contradiction.
Qed.


Lemma send_attempts_safe k lastError w :
  Qp w ->
  traces Qs Qw Qp (resolved (fun _ => True)) (send_attempts k lastError w) [].
Proof.
  intros H. revert lastError. induction k as [| k IH]; intros lastError; cbn [send_attempts].
  - now constructor.
  - apply tr_post_skip; [exact H |]. intros r.
    destruct (wr_success r); [now constructor | apply IH].
Qed.

Lemma send_attempts_traces k lastError w :
  Qp w ->
  traces Qs Qw Qp (resolved (fun _ => True)) (send_attempts (S k) lastError w)
    [Posted w].
Proof.
  intros H. cbn [send_attempts]. constructor; [exact H |]. intros r.
  destruct (wr_success r); [now constructor | now apply send_attempts_safe].
Qed.

(** With an endpoint configured, [sendWebhook] posts the payload at least
    once, whatever the endpoint replies. *)
Lemma sendWebhook_traces cfg w :
  wordpress_webhook_url cfg <> "" -> Qp w ->
  traces Qs Qw Qp (resolved (fun _ => True)) (sendWebhook cfg w) [Posted w].
Proof.
  intros Hu H. unfold sendWebhook.
  destruct (wordpress_webhook_url cfg); [congruence |]. cbn [Text.is_empty].
  unfold Webhook.WEBHOOK_MAX_RETRIES. now apply send_attempts_traces.
Qed.

Lemma sendWebhook_safe cfg w :
  Qp w -> traces Qs Qw Qp (resolved (fun _ => True)) (sendWebhook cfg w) [].
Proof.
  intros H. unfold sendWebhook.
  destruct (Text.is_empty _); [now constructor | now apply send_attempts_safe].
Qed.

Lemma sendProgressUpdate_safe e j pid status p s :
  Qp (Webhook.basic_payload j pid status p s) ->
  traces Qs Qw Qp (resolved (fun _ => True)) (sendProgressUpdate e j pid status p s) [].
Proof.
  intros H. unfold sendProgressUpdate. constructor. intros ok _.
  destruct ok; cbn [negb]; [now apply sendWebhook_safe | now constructor].
Qed.


Lemma sendFailureWebhook_traces e j pid m :
  wordpress_webhook_url (env_cfg e) <> "" ->
  Qp (Webhook.failure_payload j pid m) ->
  traces Qs Qw Qp (resolved (fun _ => True)) (sendFailureWebhook e j pid m)
    [Posted (Webhook.failure_payload j pid m)].
Proof.
  intros Hu H. unfold sendFailureWebhook. constructor. now apply sendWebhook_traces.
Qed.

Lemma sendFailureWebhook_safe e j pid m :
  Qp (Webhook.failure_payload j pid m) ->
  traces Qs Qw Qp (resolved (fun _ => True)) (sendFailureWebhook e j pid m) [].
Proof.
  intros H. unfold sendFailureWebhook. constructor. now apply sendWebhook_safe.
Qed.


Lemma sendCompletionWebhook_safe e j pid r :
  Qp (Webhook.completion_payload j pid r) ->
  traces Qs Qw Qp (resolved (fun _ => True)) (sendCompletionWebhook e j pid r) [].
Proof.
  intros H. unfold sendCompletionWebhook. constructor. now apply sendWebhook_safe.
Qed.

(** A progress callback writes its percentage and posts at most its own
    update. *)
Lemma progressCallback_safe e job p s :
  Qw p -> Qp (Webhook.basic_payload (jobId job) (postId job) processing p s) ->
  safe Qs Qw Qp (progressCallback e job p s).
Proof.
  intros Hw Hp. unfold safe, progressCallback, updateJobProgress. cbn [bind].
  apply tr_write_skip; [exact Hw |].
  apply (traces_then (fun _ => True) _ _ _ [] []);
    [now apply sendProgressUpdate_safe | intros; now constructor].
Qed.

Lemma start_callbacks_traces {A} (Q : Promise A -> Prop) events (next : Prog A) ms :
  Forall (fun ev => Qs ev.1 ev.2) events ->
  traces Qs Qw Qp Q next ms ->
  traces Qs Qw Qp Q (start_callbacks events next) ms.
Proof.
  intros F H. induction F as [| [p s] events Hx _ IH]; [exact H |].
  cbn [start_callbacks]. constructor; [exact Hx | exact IH].
Qed.




End Tracing.

(** Under predicates that allow everything, every function is safe and
    settles unless it awaits what never settles. *)
Lemma traces_any {A} (c : Prog A) :
  traces (fun _ _ => True) (fun _ => True) (fun _ => True) (fun _ => True) c [].
Proof.
  induction c; now constructor.
Qed.

(** ** The handler's webhook calls, run with no callback beside them, are
    those of the webhook module *)

Section Alone.
Import Worker.

Variable e : Env.
Variable spawn : Z -> string -> Prog unit.

Lemma send_attempts_alone k : forall n lastError w st,
  exec e spawn alone n (send_attempts k lastError w) st
  = let '(r, sent) :=
      Webhook.send_attempts (env_endpoint e) k lastError w (posts (webhook st)) in
    (Settles (Returned r),
     with_webhook st {| throttler := throttler (webhook st); posts := sent |}).
Proof.
  induction k as [| k IH]; intros n lastError w st.
  - destruct st as [[t p] u c d]. reflexivity.
  - cbn [send_attempts Webhook.send_attempts]. rewrite exec_post.
    change (interfere e spawn (alone n) st) with st.
    unfold post at 1 2. cbn [fst snd].
    cbn zeta. destruct (wr_success (Webhook.sendWebhookOnce _)) eqn:Es.
    + reflexivity.
    + rewrite IH. reflexivity.
Qed.

Lemma sendWebhook_alone n w st :
  exec e spawn alone n (Worker.sendWebhook (env_cfg e) w) st
  = let '(r, ws) := Webhook.sendWebhook (env_cfg e) (env_endpoint e) w (webhook st) in
    (Settles (Returned r), with_webhook st ws).
Proof.
  unfold Worker.sendWebhook, Webhook.sendWebhook.
  destruct (Text.is_empty _).
  - destruct st as [[t p] u c d]. reflexivity.
  - rewrite send_attempts_alone. destruct (Webhook.send_attempts _ _ _ _ _). reflexivity.
Qed.

Lemma sendProgressUpdate_alone n j pid status p s st :
  (exec e spawn alone n (Worker.sendProgressUpdate e j pid status p s) st).1
  = Settles (Returned
      (Webhook.sendProgressUpdate (env_cfg e) (env_endpoint e)
         (env_clock e (clock_reads st)) j pid status p s (webhook st)).1) /\
  webhook (exec e spawn alone n (Worker.sendProgressUpdate e j pid status p s) st).2
  = (Webhook.sendProgressUpdate (env_cfg e) (env_endpoint e)
       (env_clock e (clock_reads st)) j pid status p s (webhook st)).2.
Proof.
  unfold Worker.sendProgressUpdate, Webhook.sendProgressUpdate.
  rewrite exec_should. change (interfere e spawn (alone n) st) with st.
  unfold should_send.
  destruct (Webhook.shouldSend _ _ _ _) as [ok t]. cbn [fst snd].
  destruct ok; cbn [negb].
  - rewrite sendWebhook_alone. cbn [webhook].
    destruct (Webhook.sendWebhook _ _ _ _). split; reflexivity.
  - split; reflexivity.
Qed.

End Alone.

(** ** C1: failed attempts and the retry policy *)

Section Retry.
Import Worker.

(** [processJob] never throws, whatever its stages do: the catch block turns
    every thrown error into a returned result. *)
Lemma processJob_never_throws (e : Env) (job : VideoJobData) :
  traces (fun _ _ => True) (fun _ => True) (fun _ => True)
    (fun o => forall m, o <> Settles (Threw m)) (processJob e job) [].
Proof.
  unfold processJob.
  apply (traces_try_catch _ _ _ (fun _ => True)); [apply traces_any | | |].
  - intros a _ m. discriminate.
  - intros _ m. discriminate.
  - intros m _.
    apply (traces_bind_any _ _ _ (resolved (fun _ => True)));
      [now apply sendFailureWebhook_safe | | intros ? [] | intros []].
    intros _ _. constructor. intros m'. discriminate.
Qed.

(** Hence a claimed job whose worker is running is never delayed for another
    attempt and never failed: after its first attempt it is completed, or it
    is still active because a stage never settled. *)
Lemma claimed_job_is_never_retried (e : Env) (job : VideoJobData)
    (sched : nat -> nat -> list nat) (st : WorkerState) :
  let '(final, attemptsMade, delays, _) :=
    Broker.run_job (processor e sched false job) st in
  attemptsMade = 1%nat /\ delays = [] /\
  (final = Some Broker.Active \/ exists r, final = Some (Broker.Completed r)).
Proof.
  unfold Broker.run_job, Broker.enqueue_options. cbn [Broker.attempts Broker.run].
  unfold processor.
  destruct (exec_sound e (progressCallback e job) (fun _ _ => True) (fun _ => True)
              (fun _ => True) (fun p s _ => traces_any _) _ _ _
              (processJob_never_throws e job) (sched 0%nat) 0%nat st)
    as (_ & _ & HQ & _).
  { apply Forall_forall. intros t _. apply traces_any. }
  destruct (exec _ _ _ _ _ _) as [[[r | m] |] st']; cbn [fst] in HQ; cbn.
  - repeat split. right. eauto.
  - now destruct (HQ m).
  - repeat split. now left.
Qed.

(** The retry policy itself: a processor that throws on every attempt is
    tried three times, 5 s and 10 s apart, and then failed. *)
Lemma throwing_processor_is_retried (e : Env) (job : VideoJobData)
    (sched : nat -> nat -> list nat) (st : WorkerState) :
  detached st = [] ->
  Broker.run_job (processor e sched true job) st
  = (Some (Broker.Failed "Worker is shutting down"), 3%nat, [5000; 10000], st).
Proof.
  intros D. unfold Broker.run_job, Broker.enqueue_options.
  cbn [Broker.attempts Broker.run]. unfold processor.
  rewrite !exec_throw, !interfere_idle by exact D. reflexivity.
Qed.

(** While no callback has been started, the steps of the function follow one
    another. *)
Lemma exec_idle_write {A} e spawn sched n p (next : Prog A) st :
  detached st = [] ->
  exec e spawn sched n (WriteProgress p next) st
  = exec e spawn sched (S n) next (write_progress p st).
Proof. intros H. now rewrite exec_write, interfere_idle. Qed.

Lemma exec_idle_should {A} e spawn sched n j p (next : bool -> Prog A) st :
  detached st = [] ->
  exec e spawn sched n (ShouldSend j p next) st
  = exec e spawn sched (S n) (next (should_send e j p st).1) (should_send e j p st).2.
Proof. intros H. now rewrite exec_should, interfere_idle. Qed.

Lemma exec_idle_post {A} e spawn sched n w (next : WebhookResponse -> Prog A) st :
  detached st = [] ->
  exec e spawn sched n (Post w next) st
  = exec e spawn sched (S n) (next (post e w st).1) (post e w st).2.
Proof. intros H. now rewrite exec_post, interfere_idle. Qed.

Lemma exec_idle_start {A} e spawn sched n p s (next : Prog A) st :
  detached st = [] ->
  exec e spawn sched n (Start p s next) st
  = exec e spawn sched (S n) next (start (spawn p s) st).
Proof. intros H. now rewrite exec_start, interfere_idle. Qed.

(** The attempt at the failing input.  Up to the call of the compression
    stage nothing runs beside the handler: it writes 0 and posts the queued
    update.  The stage calls the progress callback once and fails; from then
    on the callback runs beside the handler, which posts the failure webhook
    and returns the failed result. *)
Lemma failing_attempt (sch : nat -> list nat) :
  let downloading :=
    Webhook.basic_payload (jobId Sample.job) (postId Sample.job) processing 0
      "downloading" in
  let failure :=
    Webhook.failure_payload (jobId Sample.job) (postId Sample.job)
      "Download failed: Private/internal hosts not allowed" in
  let run :=
    exec Sample.env (progressCallback Sample.env Sample.job) sch 0
      (processJob Sample.env Sample.job) Sample.fresh in
  run.1 = Settles (Returned (failure_result Sample.job
                               "Download failed: Private/internal hosts not allowed")) /\
  exists lw lp,
    progress_updates run.2 = 0 :: lw /\ Forall (fun v => v = 0) lw /\
    posts (webhook run.2)
    = Webhook.basic_payload (jobId Sample.job) (postId Sample.job) processing 0 "queued"
      :: lp /\
    failure ∈ lp /\ Forall (fun w => w = downloading \/ w = failure) lp.
Proof.
  intros downloading failure run.
  set (Qs := fun (p : Z) (s : string) => p = 0 /\ s = "downloading").
  set (Qw := fun v : Z => v = 0).
  set (Qp := fun w : WebhookPayload => w = downloading \/ w = failure).
  set (result := failure_result Sample.job
                   "Download failed: Private/internal hosts not allowed").
  assert (T : traces Qs Qw Qp (resolved (fun r => r = result))
                (try_catch
                   (sendFailureWebhook Sample.env (jobId Sample.job) (postId Sample.job)
                      "Download failed: Private/internal hosts not allowed" ;;;
                    Ret result)
                   (fun errorMessage =>
                      sendFailureWebhook Sample.env (jobId Sample.job)
                        (postId Sample.job) errorMessage ;;;
                      Ret (failure_result Sample.job errorMessage)))
                [Posted failure]).
  { apply traces_try_resolved.
    apply (traces_then _ _ _ (fun _ => True) _ _ _ [Posted failure] []).
    - apply sendFailureWebhook_traces; [discriminate | now right].
    - intros _ _. now constructor. }
  assert (Hspawn : forall p s, Qs p s ->
            safe Qs Qw Qp (progressCallback Sample.env Sample.job p s)).
  { intros p s [-> ->]. apply progressCallback_safe; [reflexivity | now left]. }
  set (S1 := should_send Sample.env (jobId Sample.job) 0
               (write_progress 0 Sample.fresh)).
  assert (E1 : S1.1 = true) by (vm_compute; reflexivity).
  assert (D1 : detached S1.2 = []) by (vm_compute; reflexivity).
  assert (P1 : posts (webhook S1.2) = []) by (vm_compute; reflexivity).
  assert (W1 : progress_updates S1.2 = [0]) by (vm_compute; reflexivity).
  set (queued := Webhook.basic_payload (jobId Sample.job) (postId Sample.job)
                   processing 0 "queued").
  set (st3 := start (progressCallback Sample.env Sample.job 0 "downloading")
                (post Sample.env queued S1.2).2).
  assert (E : run = exec Sample.env (progressCallback Sample.env Sample.job) sch 4
                      (try_catch
                         (sendFailureWebhook Sample.env (jobId Sample.job)
                            (postId Sample.job)
                            "Download failed: Private/internal hosts not allowed" ;;;
                          Ret result)
                         (fun errorMessage =>
                            sendFailureWebhook Sample.env (jobId Sample.job)
                              (postId Sample.job) errorMessage ;;;
                            Ret (failure_result Sample.job errorMessage)))
                      st3).
  { unfold run.
    etransitivity; [apply exec_idle_write; reflexivity |].
    etransitivity; [apply exec_idle_should; reflexivity |].
    fold S1. rewrite E1.
    etransitivity; [apply exec_idle_post; exact D1 |].
    etransitivity; [apply exec_idle_start; exact D1 |].
    reflexivity. }
  destruct (exec_sound Sample.env (progressCallback Sample.env Sample.job) Qs Qw Qp
              Hspawn _ _ _ T sch 4%nat st3)
    as (lw & lp & HQ & ([Gw Gp] & Fw & Fp & _) & _ & Sp).
  { unfold st3. cbn [start detached post snd]. rewrite D1.
    constructor; [apply Hspawn; split; reflexivity | constructor]. }
  rewrite <- E in HQ, Gw, Gp. split.
  - destruct run.1 as [[r | m] |]; cbn in HQ; try contradiction. now rewrite HQ.
  - exists lw, lp. rewrite Gw, Gp. unfold st3.
    cbn [start post snd progress_updates webhook posts]. rewrite W1, P1.
    split; [reflexivity |]. split; [exact Fw |]. split; [reflexivity |].
    split; [| exact Fp].
    cbn [posts_of omap] in Sp. now apply singleton_sublist_l.
Qed.

(** Which of the two comes first depends on the interleaving, and the
    callback may not have posted at all when the handler returns. *)
Lemma callback_update_on_either_side :
  let stages sch :=
    map wp_stage
      (posts (webhook (exec Sample.env (progressCallback Sample.env Sample.job) sch 0
                         (processJob Sample.env Sample.job) Sample.fresh).2)) in
  stages (fun n => if (n =? 4)%nat then [0; 0; 0]%nat else [])
  = ["queued"; "downloading"; "error"] /\
  stages (fun n => if (n =? 6)%nat then [0; 0; 0]%nat else [])
  = ["queued"; "error"; "downloading"] /\
  stages alone = ["queued"; "error"].
Proof. vm_compute. repeat split. Qed.

(** C1 (evaluation at the failing input).  The job's download is rejected, so
    its compression stage reports failure.  Under every interleaving of the
    handler with the progress callback the stage started, the handler posts
    the failure webhook during this first attempt and returns the failed
    result, and the broker records the job as completed after one attempt,
    with no delay scheduled and no failed state.  The webhooks posted by then
    are the queued update, first, and after it the failure webhook and at
    most the update of the callback, in either order. *)
Theorem C1_failed_pipeline_is_not_retried :
  forall sched : nat -> nat -> list nat,
  let '(final, attemptsMade, delays, st) :=
    Broker.run_job (processor Sample.env sched false Sample.job) Sample.fresh in
  final = Some (Broker.Completed
                  (failure_result Sample.job
                     "Download failed: Private/internal hosts not allowed")) /\
  attemptsMade = 1%nat /\ delays = [] /\
  exists rest,
    map (fun p => (wp_status p, wp_stage p, wp_error p)) (posts (webhook st))
    = (processing, "queued", None) :: rest /\
    (failed, "error", Some "Download failed: Private/internal hosts not allowed") ∈ rest /\
    Forall (fun x =>
              x = (processing, "downloading", None) \/
              x = (failed, "error",
                   Some "Download failed: Private/internal hosts not allowed")) rest.
Proof.
  intros sched.
  unfold Broker.run_job, Broker.enqueue_options. cbn [Broker.attempts Broker.run].
  unfold processor.
  destruct (failing_attempt (sched 0%nat)) as (E & lw & lp & _ & _ & P & Hin & F).
  destruct (exec _ _ _ _ _ _) as [outcome st']. cbn [fst snd] in E, P. subst outcome.
  cbn [Broker.settle].
  split; [reflexivity |]. split; [reflexivity |]. split; [reflexivity |].
  exists (map (fun p => (wp_status p, wp_stage p, wp_error p)) lp).
  rewrite P. split; [reflexivity |]. split.
  - apply (list_elem_of_fmap_2 (fun p => (wp_status p, wp_stage p, wp_error p))) in Hin.
    exact Hin.
  - apply Forall_fmap. eapply Forall_impl; [exact F |].
    intros w [-> | ->]; [now left | now right].
Qed.

End Retry.

(** ** C10: cleanup after a failed transcode *)

Section TranscodeCleanup.
Import Ffmpeg.

(** C10 (as stated).  When removing the partial output fails, the error is
    ignored: the quality is reported failed and its file stays on disk. *)
Lemma C10_partial_output_can_remain :
  ~ (forall fs transcoder inputPath outputPath quality message written,
       Fs.existsSync fs inputPath = true ->
       transcoder inputPath outputPath quality = RunError message written ->
       Fs.existsSync
         (snd (compressVideo fs transcoder inputPath outputPath quality)) outputPath
       = false).
Proof.
  intros H.
  specialize (H SampleTranscode.locked_fs SampleTranscode.failing_transcoder
                SampleTranscode.input SampleTranscode.output "240p"
                "ffmpeg exited with code 1" (Some 512) eq_refl eq_refl).
  vm_compute in H. discriminate.
Qed.

Lemma exists_after_unlink fs p fs' :
  Fs.unlinkSync fs p = Some fs' -> Fs.existsSync fs' p = false.
Proof.
  unfold Fs.unlinkSync, Fs.existsSync. intros H.
  destruct (files fs !! p); [| discriminate].
  destruct (bool_decide _); [discriminate |].
  injection H as <-. cbn. now rewrite lookup_delete_eq.
Qed.

Lemma unlink_unlocked fs p :
  Fs.existsSync fs p = true -> p ∉ locked fs ->
  exists fs', Fs.unlinkSync fs p = Some fs'.
Proof.
  unfold Fs.unlinkSync, Fs.existsSync. intros He Hl.
  destruct (files fs !! p); [| discriminate].
  rewrite bool_decide_eq_false_2 by assumption. eauto.
Qed.

Lemma after_run_locked fs p w : locked (after_run fs p w) = locked fs.
Proof. destruct w; reflexivity. Qed.

(** C10 (amended).  When a transcode ends with a transcoder error and the
    output path can be removed, the failure is reported with the output file
    gone; and a transcode is reported as success only if its output file
    exists and has at least 1024 bytes. *)
Theorem C10_failed_transcode_cleanup fs transcoder inputPath outputPath quality :
  Fs.existsSync fs inputPath = true ->
  let '(outcome, fs') := compressVideo fs transcoder inputPath outputPath quality in
  (forall message written,
     transcoder inputPath outputPath quality = RunError message written ->
     outputPath ∉ locked fs ->
     co_success outcome = false /\ co_error outcome = Some message /\
     Fs.existsSync fs' outputPath = false) /\
  (co_success outcome = true ->
     exists size, files fs' !! outputPath = Some size /\ 1024 <= size).
Proof.
  intros Hin. unfold compressVideo. rewrite Hin. cbn [negb].
  destruct (transcoder inputPath outputPath quality) as [w | m w].
  - destruct (Fs.statSize (after_run fs outputPath w) outputPath) as [size |] eqn:Es.
    + destruct (Z.ltb_spec size 1024); split; try discriminate.
      intros _. exists size. split; [exact Es | lia].
    + split; discriminate.
  - split; [| discriminate].
    intros message written E Hl. injection E as <- <-.
    repeat split.
    destruct (Fs.existsSync (after_run fs outputPath w) outputPath) eqn:Ee; [| exact Ee].
    destruct (unlink_unlocked _ _ Ee) as (fs' & Eu).
    { now rewrite after_run_locked. }
    rewrite Eu. eapply exists_after_unlink, Eu.
Qed.

(** A transcoder error after 512 bytes on a file system that lets the file
    go, and a successful run that leaves 2048 bytes. *)
Lemma C10_failed_transcode_cleanup_witness :
  Fs.existsSync
    (snd (compressVideo SampleTranscode.plain_fs SampleTranscode.failing_transcoder
            SampleTranscode.input SampleTranscode.output "240p"))
    SampleTranscode.output = false /\
  exists size,
    files (snd (compressVideo SampleTranscode.plain_fs SampleTranscode.good_transcoder
                  SampleTranscode.input SampleTranscode.output "240p"))
      !! SampleTranscode.output = Some size /\ 1024 <= size.
Proof.
  split.
  - pose proof (C10_failed_transcode_cleanup SampleTranscode.plain_fs
                  SampleTranscode.failing_transcoder SampleTranscode.input
                  SampleTranscode.output "240p" eq_refl) as H.
    destruct (compressVideo _ _ _ _ _) as [outcome fs'].
    destruct H as [H _].
    apply (H "ffmpeg exited with code 1" (Some 512) eq_refl).
    vm_compute. set_solver.
  - pose proof (C10_failed_transcode_cleanup SampleTranscode.plain_fs
                  SampleTranscode.good_transcoder SampleTranscode.input
                  SampleTranscode.output "240p" eq_refl) as H.
    destruct (compressVideo _ _ _ _ _) as [outcome fs'] eqn:E.
    destruct H as [_ H]. apply H.
    vm_compute in E. now injection E as <- _.
Defined.

End TranscodeCleanup.

(** ** C6: the master playlist *)

Section MasterPlaylist.
Import HlsConverter PlaylistSpec.

Variable fs : FileSystem.
Variable ffprobe : string -> FfprobeOutcome.
Variable convertToHLS : string -> string -> string -> Z -> bool -> SegmentResult.
Variable cfg : Config.
Variable paths : VideoPaths.

Local Abbreviation step :=
  (convert_step fs convertToHLS paths (path_output_dir paths +:+ "/hls")
     (getHlsSegmentDuration cfg)).
Local Abbreviation seg_data := (segmented_data fs convertToHLS cfg paths).

Lemma convert_step_spec (m : gmap string ConvertedQuality) (l : list string) (q : string) :
  step (m, l) q =
  match seg_data q with
  | Some d => (<[q := d]> m, l ++ [q])
  | None => (m, l)
  end.
Proof.
  unfold convert_step, segmented_data, HLS_REENCODE_SEGMENTS.
  destruct (Probe.nonempty (compressed_path paths q)) as [mp4 |]; [| reflexivity].
  destruct (Fs.existsSync fs mp4); [| reflexivity]. cbn [negb].
  destruct (sr_success _); [| reflexivity].
  destruct (Probe.nonempty (sr_playlist _)); [| reflexivity].
  destruct (sr_segmentCount _) as [n |]; [| reflexivity].
  destruct (n =? 0); reflexivity.
Qed.

Lemma converted_lookup (qs : list string) :
  forall (m : gmap string ConvertedQuality) (l : list string) (q : string),
  (fold_left step qs (m, l)).1 !! q =
  match (if bool_decide (q ∈ qs) then seg_data q else None) with
  | Some d => Some d
  | None => m !! q
  end.
Proof.
  induction qs as [| x qs IH]; intros m l q.
  - reflexivity.
  - cbn [fold_left]. rewrite convert_step_spec.
    destruct (seg_data x) as [d |] eqn:Ex.
    + rewrite IH. destruct (decide (q = x)) as [-> | Hne].
      * rewrite (bool_decide_eq_true_2 (x ∈ x :: qs)) by left.
        rewrite Ex. destruct (bool_decide (x ∈ qs)); [reflexivity |].
        apply lookup_insert_eq.
      * rewrite lookup_insert_ne by congruence.
        destruct (bool_decide (q ∈ qs)) eqn:Eq.
        -- apply bool_decide_eq_true_1 in Eq.
           rewrite (bool_decide_eq_true_2 (q ∈ x :: qs)) by (now right). reflexivity.
        -- apply bool_decide_eq_false_1 in Eq.
           rewrite (bool_decide_eq_false_2 (q ∈ x :: qs)); [reflexivity |].
           intros [? | ?]%elem_of_cons; tauto.
    + rewrite IH. destruct (decide (q = x)) as [-> | Hne].
      * rewrite (bool_decide_eq_true_2 (x ∈ x :: qs)) by left.
        rewrite Ex. destruct (bool_decide (x ∈ qs)); reflexivity.
      * destruct (bool_decide (q ∈ qs)) eqn:Eq.
        -- apply bool_decide_eq_true_1 in Eq.
           rewrite (bool_decide_eq_true_2 (q ∈ x :: qs)) by (now right). reflexivity.
        -- apply bool_decide_eq_false_1 in Eq.
           rewrite (bool_decide_eq_false_2 (q ∈ x :: qs)); [reflexivity |].
           intros [? | ?]%elem_of_cons; tauto.
Qed.

Lemma available_fold (qs : list string) :
  forall (m : gmap string ConvertedQuality) (l : list string),
  (fold_left step qs (m, l)).2 =
  l ++ filter (fun q => segmented fs convertToHLS cfg paths q = true) qs.
Proof.
  induction qs as [| x qs IH]; intros m l.
  - cbn. now rewrite app_nil_r.
  - cbn [fold_left]. rewrite convert_step_spec.
    rewrite filter_cons. unfold segmented.
    destruct (seg_data x) as [d |].
    + rewrite IH. rewrite decide_True by reflexivity. now rewrite <- app_assoc.
    + rewrite IH. rewrite decide_False by discriminate. reflexivity.
Qed.

Lemma master_fold (conv : gmap string ConvertedQuality) (qs : list string) :
  forall content : string,
  (forall q, q ∈ qs -> is_Some (HLS_QUALITIES !! q)) ->
  fold_left (master_step fs ffprobe conv) qs (Returned content)
  = Returned (content +:+ concat_str (map (entry fs ffprobe conv) qs)).
Proof.
  induction qs as [| x qs IH]; intros content Htab.
  - cbn. now rewrite str_app_empty_r.
  - cbn [fold_left map concat_str fold_right].
    fold (concat_str (map (entry fs ffprobe conv) qs)).
    destruct (Htab x ltac:(left)) as [c Ec].
    assert (Htab' : forall q, q ∈ qs -> is_Some (HLS_QUALITIES !! q)).
    { intros q Hq. apply Htab. now right. }
    unfold master_step at 2. unfold entry at 1. rewrite Ec.
    destruct (conv !! x) as [d |].
    + rewrite (IH _ Htab'). f_equal. unfold variant_lines.
      rewrite !str_app_assoc. reflexivity.
    + rewrite (IH _ Htab'). reflexivity.
Qed.

Lemma concat_filtered (f : string -> string) (P : string -> bool) (qs : list string) :
  (forall q, P q = false -> f q = "") ->
  concat_str (map f qs) = concat_str (map f (filter (fun q => P q = true) qs)).
Proof.
  intros Hf. induction qs as [| x qs IH]; [reflexivity |].
  rewrite filter_cons. cbn [map concat_str fold_right].
  fold (concat_str (map f qs)). rewrite IH.
  destruct (P x) eqn:Ex.
  - rewrite decide_True by reflexivity. reflexivity.
  - rewrite decide_False by discriminate. now rewrite (Hf x Ex).
Qed.

Lemma table_has_all : forall q, q ∈ qualityOrder -> is_Some (HLS_QUALITIES !! q).
Proof.
  intros q Hq. unfold qualityOrder in Hq.
  repeat (apply elem_of_cons in Hq as [-> | Hq]; [vm_compute; eauto |]).
  now apply elem_of_nil in Hq.
Qed.

Lemma order_in_qualities : forall q, q ∈ ascending -> q ∈ qualities.
Proof.
  intros q Hq. unfold ascending in Hq. unfold qualities.
  repeat (apply elem_of_cons in Hq as [-> | Hq]; [set_solver |]).
  now apply elem_of_nil in Hq.
Qed.

(** The playlist [generateMasterPlaylist] writes for the qualities converted
    by the loop of [convertToHLSStreaming]. *)
Lemma generated_master :
  mp_content (generateMasterPlaylist fs ffprobe (path_output_dir paths +:+ "/hls")
                (converted fs convertToHLS cfg paths).1)
  = Some (master fs ffprobe convertToHLS cfg paths)
  /\ mp_success (generateMasterPlaylist fs ffprobe (path_output_dir paths +:+ "/hls")
                   (converted fs convertToHLS cfg paths).1) = true.
Proof.
  unfold generateMasterPlaylist.
  rewrite master_fold by apply table_has_all.
  split; [| reflexivity]. cbn [mp_content]. f_equal.
  set (conv := (converted fs convertToHLS cfg paths).1).
  assert (Hconv : forall q, q ∈ ascending -> conv !! q = seg_data q).
  { intros q Hq. unfold conv, converted.
    rewrite converted_lookup.
    rewrite bool_decide_eq_true_2 by (now apply order_in_qualities).
    destruct (seg_data q); reflexivity. }
  assert (E : concat_str (map (entry fs ffprobe conv) qualityOrder)
              = concat_str (map (variant fs ffprobe convertToHLS cfg paths)
                              (filter (fun q => segmented fs convertToHLS cfg paths q = true)
                                 ascending))).
  { change qualityOrder with ascending.
    rewrite (concat_filtered _ (segmented fs convertToHLS cfg paths)).
    - apply (f_equal concat_str), map_ext_in. intros q Hq.
      apply list_elem_of_In, list_elem_of_filter in Hq as [_ Hq].
      unfold entry, variant. now rewrite (Hconv q Hq).
    - intros q Hq. unfold entry.
      destruct (decide (q ∈ ascending)) as [Hin | Hout].
      + rewrite (Hconv q Hin). unfold segmented in Hq.
        destruct (seg_data q); [discriminate | reflexivity].
      + destruct (conv !! q); [| reflexivity].
        destruct (HLS_QUALITIES !! q) eqn:Et; [| reflexivity].
        exfalso. apply Hout.
        unfold HLS_QUALITIES in Et. apply elem_of_list_to_map_2 in Et.
        unfold ascending.
        repeat (apply elem_of_cons in Et as [Et | Et];
                [injection Et as -> _; set_solver |]).
        now apply elem_of_nil in Et. }
  rewrite E. unfold master, header. now rewrite !str_app_assoc.
Qed.

End MasterPlaylist.

Section MasterPlaylistClaim.
Import HlsConverter PlaylistSpec.

(** C6. When at least one quality is segmented, the master playlist written
    by [convertToHLSStreaming] is the line [#EXTM3U], the line
    [#EXT-X-VERSION:3] (and an empty line), followed, for exactly the
    segmented qualities taken in the order 144p, 240p, 360p, 480p, by one
    [#EXT-X-STREAM-INF] line carrying BANDWIDTH, AVERAGE-BANDWIDTH, RESOLUTION,
    CODECS and NAME and, on the next line, the variant's playlist file name. *)
Theorem C6_master_playlist fs ffprobe convertToHLS cfg paths postId year month :
  (exists q, q ∈ qualities /\ segmented fs convertToHLS cfg paths q = true) ->
  let '(result, written) :=
    convertToHLSStreaming fs ffprobe convertToHLS cfg paths postId year month in
  hc_success result = true /\
  written =
    Some (("#EXTM3U" +:+ nl +:+ "#EXT-X-VERSION:3" +:+ nl +:+ nl) +:+
          concat_str
            (map (variant fs ffprobe convertToHLS cfg paths)
               (filter (fun q => segmented fs convertToHLS cfg paths q = true)
                  ["144p"; "240p"; "360p"; "480p"]))) /\
  (forall q, q ∈ ["144p"; "240p"; "360p"; "480p"] ->
     segmented fs convertToHLS cfg paths q = true ->
     exists c d,
       HLS_QUALITIES !! q = Some c /\
       segmented_data fs convertToHLS cfg paths q = Some d /\
       variant fs ffprobe convertToHLS cfg paths q =
         "#EXT-X-STREAM-INF:BANDWIDTH=" +:+ Text.Z_to_string (hq_bandwidth c) +:+
         ",AVERAGE-BANDWIDTH=" +:+ Text.Z_to_string (hq_avg_bandwidth c) +:+
         ",RESOLUTION=" +:+ actualResolution fs ffprobe c d +:+
         ",CODECS=" +:+ dq +:+ hq_codecs c +:+ dq +:+
         ",NAME=" +:+ dq +:+ q +:+ dq +:+ nl +:+
         q +:+ ".m3u8" +:+ nl).
Proof.
  intros (q0 & Hq0 & Hs0).
  unfold convertToHLSStreaming.
  pose proof (generated_master fs ffprobe convertToHLS cfg paths) as [Hc Hok].
  pose proof (available_fold fs convertToHLS cfg paths qualities ∅ []) as Hav.
  fold (converted fs convertToHLS cfg paths) in Hav.
  destruct (converted fs convertToHLS cfg paths) as [conv avail].
  cbn [fst snd] in Hc, Hok, Hav. rewrite app_nil_l in Hav.
  assert (Hne : q0 ∈ avail).
  { rewrite Hav. apply list_elem_of_filter. split; assumption. }
  destruct avail as [| a avail]; [now apply elem_of_nil in Hne |].
  rewrite Hok. cbn [negb].
  split; [reflexivity |]. split; [exact Hc |].
  intros q Hq Hs.
  destruct (table_has_all q Hq) as [c Ec].
  unfold segmented in Hs.
  destruct (segmented_data fs convertToHLS cfg paths q) as [d |] eqn:Ed; [| discriminate].
  exists c, d. repeat split; [exact Ec |].
  unfold variant. now rewrite Ed, Ec.
Qed.

(** The job directory in which 240p is missing: the playlist lists 144p, 360p
    and 480p, in this order. *)
Lemma C6_master_playlist_witness :
  snd (convertToHLSStreaming SampleHls.fs SampleHls.no_probe SampleHls.segmenter
         Sample.cfg SampleHls.paths 42 2025 1)
  = Some (("#EXTM3U" +:+ nl +:+ "#EXT-X-VERSION:3" +:+ nl +:+ nl) +:+
          variant_lines 325000 250000 "256x144" "avc1.4d000d,mp4a.40.2" "144p" +:+
          variant_lines 850000 600000 "640x360" "avc1.4d001f,mp4a.40.2" "360p" +:+
          variant_lines 1300000 900000 "854x480" "avc1.4d001f,mp4a.40.2" "480p").
Proof.
  pose proof (C6_master_playlist SampleHls.fs SampleHls.no_probe SampleHls.segmenter
                Sample.cfg SampleHls.paths 42 2025 1) as H.
  destruct (convertToHLSStreaming _ _ _ _ _ _ _ _) as [result written].
  destruct H as (_ & -> & _).
  - exists "480p". split; [set_solver | vm_compute; reflexivity].
  - vm_compute. reflexivity.
Defined.

End MasterPlaylistClaim.

(** ** Regular expressions: the matcher agrees with the inductive reading *)

Section RegexFacts.
Import Regex.

Lemma str_app_eq_empty (s t : string) : s +:+ t = "" -> s = "" /\ t = "".
Proof. destruct s; [rewrite str_app_nil; auto | rewrite str_app_cons; discriminate]. Qed.

Lemma Match_empty_nullable (r : re) (s : string) :
  Match r s -> s = "" -> nullable r = true.
Proof.
  induction 1 as [| | r1 r2 s1 s2 _ IH1 _ IH2 | r1 r2 s _ IH | r1 r2 s _ IH | |];
    intros E; cbn [nullable]; try reflexivity; try discriminate.
  - apply str_app_eq_empty in E as [-> ->]. now rewrite IH1, IH2.
  - now rewrite IH.
  - rewrite IH by assumption. apply orb_true_r.
Qed.

Lemma nullable_Match_empty (r : re) : nullable r = true -> Match r "".
Proof.
  induction r as [| | p | r1 IH1 r2 IH2 | r1 IH1 r2 IH2 | r IH]; cbn [nullable]; intros H;
    try discriminate.
  - constructor.
  - apply andb_true_iff in H as [H1 H2].
    change "" with ("" +:+ ""). constructor; auto.
  - apply orb_true_iff in H as [H | H]; [apply MAltL | apply MAltR]; auto.
  - constructor.
Qed.

(** Reading one character off a matched string. *)
Lemma deriv_complete (r : re) (s : string) :
  Match r s -> forall c s', s = String c s' -> Match (deriv c r) s'.
Proof.
  induction 1 as [| p x Hp | r1 r2 s1 s2 H1 IH1 H2 IH2 | r1 r2 s _ IH | r1 r2 s _ IH
                 | | r s1 s2 H1 IH1 H2 IH2];
    intros c s' E; cbn [deriv].
  - discriminate.
  - injection E as -> <-. rewrite Hp. constructor.
  - destruct s1 as [| x s1].
    + rewrite str_app_nil in E.
      rewrite (Match_empty_nullable _ _ H1 eq_refl).
      apply MAltR. now apply IH2.
    + rewrite str_app_cons in E. injection E as -> <-.
      destruct (nullable r1); [apply MAltL |]; constructor; auto.
  - apply MAltL. now apply IH.
  - apply MAltR. now apply IH.
  - discriminate.
  - destruct s1 as [| x s1].
    + rewrite str_app_nil in E. now apply IH2.
    + rewrite str_app_cons in E. injection E as -> <-.
      constructor; auto.
Qed.

(** Putting a character back in front. *)
Lemma deriv_sound (r : re) : forall (c : ascii) (s : string),
  Match (deriv c r) s -> Match r (String c s).
Proof.
  induction r as [| | p | r1 IH1 r2 IH2 | r1 IH1 r2 IH2 | r IH]; intros c s H; cbn [deriv] in H.
  - inversion H.
  - inversion H.
  - destruct (p c) eqn:Hp; inversion H; subst. now constructor.
  - destruct (nullable r1) eqn:Hn.
    + inversion H as [| | | ? ? ? HL | ? ? ? HR | |]; subst.
      * inversion HL as [| | ? ? s1 s2 Ha Hb | | | |]; subst.
        rewrite <- str_app_cons. constructor; auto.
      * rewrite <- (str_app_nil (String c s)). constructor; auto.
        now apply nullable_Match_empty.
    + inversion H as [| | ? ? s1 s2 Ha Hb | | | |]; subst.
      rewrite <- str_app_cons. constructor; auto.
  - inversion H; subst; [apply MAltL | apply MAltR]; auto.
  - inversion H as [| | ? ? s1 s2 Ha Hb | | | |]; subst.
    rewrite <- str_app_cons. constructor; auto.
Qed.

Lemma matches_iff (s : string) : forall r : re, matches r s = true <-> Match r s.
Proof.
  induction s as [| c s IH]; intros r; cbn [matches].
  - split; [apply nullable_Match_empty | intros H; exact (Match_empty_nullable _ _ H eq_refl)].
  - rewrite IH. split; [apply deriv_sound | intros H; exact (deriv_complete _ _ H c s eq_refl)].
Qed.

Lemma Match_any_star (s : string) : Match (Star (Chr any)) s.
Proof.
  induction s as [| c s IH]; [constructor |].
  change (String c s) with (String c "" +:+ s).
  constructor; [now constructor | exact IH].
Qed.

(** A pattern anchored at both ends tests the whole string. *)
Lemma test_anchored (p : pattern) (s : string) :
  from_start p = true -> to_end p = true -> Match (body p) s -> test p s = true.
Proof.
  intros Hs He H. unfold test. rewrite Hs, He. apply matches_iff.
  rewrite <- (str_app_nil s). constructor; [constructor |].
  rewrite <- (str_app_empty_r s). constructor; [exact H | constructor].
Qed.

(** A pattern anchored at the end only tests a suffix. *)
Lemma test_suffix (p : pattern) (pre s : string) :
  from_start p = false -> to_end p = true -> Match (body p) s ->
  test p (pre +:+ s) = true.
Proof.
  intros Hs He H. unfold test. rewrite Hs, He. apply matches_iff.
  constructor; [apply Match_any_star |].
  rewrite <- (str_app_empty_r s). constructor; [exact H | constructor].
Qed.

End RegexFacts.

(** ** C2: refused hosts *)

Section RefusedHosts.
Import Text Regex UrlGuard.

Lemma dec_fuel_length (f : nat) : forall (n : N) (k : nat),
  (n < 10 ^ N.of_nat (S k))%N -> (String.length (dec_fuel f n) <= S k)%nat.
Proof.
  induction f as [| f IH]; intros n k Hn; cbn [dec_fuel].
  - cbn. lia.
  - destruct (N.ltb_spec n 10) as [Hs | Hl]; [cbn; lia |].
    destruct k as [| k].
    + change (10 ^ N.of_nat 1)%N with 10%N in Hn. lia.
    + assert (Hd : (n / 10 < 10 ^ N.of_nat (S k))%N).
      { apply N.Div0.div_lt_upper_bound.
        rewrite (Nat2N.inj_succ (S k)), N.pow_succ_r' in Hn. exact Hn. }
      specialize (IH _ _ Hd).
      assert (L : forall a b : string,
                 String.length (a +:+ b) = (String.length a + String.length b)%nat).
      { intros a b. induction a as [| x a IHa]; [reflexivity |].
        rewrite str_app_cons. cbn. now rewrite IHa. }
      rewrite L. cbn. lia.
Qed.

Lemma octet_length (n : N) : (n < 256)%N ->
  (1 <= String.length (dec n) <= 3)%nat.
Proof.
  intros H. split.
  - pose proof (dec_nonempty n). destruct (dec n); [congruence | cbn; lia].
  - apply (dec_fuel_length _ n 2). cbn. lia.
Qed.

Lemma Match_digits_1_3 (s : string) :
  all_digits s = true -> (1 <= String.length s <= 3)%nat -> Match digits_1_3 s.
Proof.
  intros Hd Hl. apply matches_iff.
  destruct s as [| c1 [| c2 [| c3 [| c4 s]]]]; cbn in Hl; try lia;
    cbn [all_digits] in Hd;
    repeat match goal with
           | H : _ && _ = true |- _ => apply andb_true_iff in H as [? ?]
           end;
    unfold digits_1_3, opt, digit; cbn [matches deriv nullable andb orb];
    repeat (match goal with
            | H : is_digit ?c = true |- context [is_digit ?c] => rewrite H
            end; cbn [matches deriv nullable andb orb]);
    reflexivity.
Qed.

Lemma Match_octet (n : N) : (n < 256)%N -> Match digits_1_3 (dec n).
Proof. intros H. apply Match_digits_1_3; [apply dec_digits | now apply octet_length]. Qed.

Lemma Match_dotted (ra rb rc rd : re) (a b c d : string) :
  Match ra a -> Match rb b -> Match rc c -> Match rd d ->
  Match (dotted ra rb rc rd) (a +:+ "." +:+ b +:+ "." +:+ c +:+ "." +:+ d).
Proof.
  intros Ha Hb Hc Hd. unfold dotted.
  assert (Hdot : Match dot ".") by (now constructor).
  repeat (constructor; try assumption).
Qed.

Lemma Match_literal (s : string) : Match (lit false s) s.
Proof.
  induction s as [| c s IH]; [constructor |].
  cbn [lit]. change (String c s) with (String c "" +:+ s).
  constructor; [| exact IH]. constructor. unfold exactly. apply Ascii.eqb_refl.
Qed.

(** The second octet of 172.16.0.0/12. *)
Lemma Match_172_second (b : N) : (16 <= b <= 31)%N ->
  Match (Alt (Seq (Chr (exactly "1"%char)) (Chr (between "6"%char "9"%char)))
           (Alt (Seq (Chr (exactly "2"%char)) digit)
              (Seq (Chr (exactly "3"%char)) (Chr (between "0"%char "1"%char)))))
        (dec b).
Proof.
  intros H. apply matches_iff.
  assert (E : (b = 16 \/ b = 17 \/ b = 18 \/ b = 19 \/ b = 20 \/ b = 21 \/ b = 22 \/
               b = 23 \/ b = 24 \/ b = 25 \/ b = 26 \/ b = 27 \/ b = 28 \/ b = 29 \/
               b = 30 \/ b = 31)%N) by lia.
  repeat (destruct E as [-> | E]; [reflexivity |]). subst b. reflexivity.
Qed.

Lemma lower_digit (c : ascii) : is_digit c = true -> lower_char c = c.
Proof.
  unfold is_digit, lower_char. intros H.
  apply andb_true_iff in H as [H1 H2].
  apply N.leb_le in H1, H2.
  destruct (N.leb_spec 65 (N_of_ascii c)); [lia | reflexivity].
Qed.

Lemma lower_digits (s : string) : all_digits s = true -> toLowerCase s = s.
Proof.
  induction s as [| c s IH]; [reflexivity |]. cbn [all_digits toLowerCase].
  intros H. apply andb_true_iff in H as [Hc Hs].
  now rewrite (lower_digit c Hc), (IH Hs).
Qed.

Lemma lower_app (s t : string) : toLowerCase (s +:+ t) = toLowerCase s +:+ toLowerCase t.
Proof.
  induction s as [| c s IH]; [reflexivity |].
  rewrite str_app_cons. cbn [toLowerCase]. rewrite str_app_cons. now rewrite IH.
Qed.

Lemma lower_ipv4 (a b c d : N) : toLowerCase (ipv4 a b c d) = ipv4 a b c d.
Proof.
  unfold ipv4. rewrite !lower_app.
  rewrite (lower_digits (dec a)), (lower_digits (dec b)), (lower_digits (dec c)),
    (lower_digits (dec d)) by apply dec_digits.
  reflexivity.
Qed.

Lemma drop_suffix (k : nat) : forall s : string, exists pre, s = pre +:+ drop k s.
Proof.
  induction k as [| k IH]; intros s.
  - exists "". reflexivity.
  - destruct s as [| c s]; [exists ""; reflexivity |].
    destruct (IH s) as [pre E]. exists (String c pre).
    rewrite str_app_cons. cbn [drop]. now rewrite <- E.
Qed.

Lemma endsWith_split (p s : string) :
  endsWith p s = true -> exists pre, s = pre +:+ p.
Proof.
  unfold endsWith. intros H. apply andb_true_iff in H as [_ H].
  apply String.eqb_eq in H.
  destruct (drop_suffix (String.length s - String.length p) s) as [pre E].
  exists pre. now rewrite <- H.
Qed.

(** A refused host trips one of the private patterns. *)
Lemma refused_host_matches (h : string) :
  refused_host h ->
  existsb (fun pattern => test pattern (toLowerCase h)) privatePatterns = true.
Proof.
  intros H. apply existsb_exists.
  destruct H as [H | [(a & b & c & d & (Ha & Hb & Hc & Hd) & Hr & ->) | [H | H]]].
  - rewrite H. eexists. split; [left; reflexivity | reflexivity].
  - rewrite lower_ipv4. unfold ipv4.
    destruct Hr as [-> | [-> | [[-> Hb2] | [[-> ->] | [[-> ->] | (-> & -> & -> & ->)]]]]].
    + eexists. split; [right; left; reflexivity |].
      apply test_anchored; try reflexivity.
      apply Match_dotted; try (now apply Match_octet). apply Match_literal.
    + eexists. split; [do 2 right; left; reflexivity |].
      apply test_anchored; try reflexivity.
      apply Match_dotted; try (now apply Match_octet). apply Match_literal.
    + eexists. split; [do 3 right; left; reflexivity |].
      apply test_anchored; try reflexivity.
      apply Match_dotted; try (now apply Match_octet);
        [apply Match_literal | now apply Match_172_second].
    + eexists. split; [do 4 right; left; reflexivity |].
      apply test_anchored; try reflexivity.
      apply Match_dotted; try (now apply Match_octet); apply Match_literal.
    + eexists. split; [do 5 right; left; reflexivity |].
      apply test_anchored; try reflexivity.
      apply Match_dotted; try (now apply Match_octet); apply Match_literal.
    + eexists. split; [do 6 right; left; reflexivity | reflexivity].
  - apply endsWith_split in H as [pre ->].
    eexists. split; [do 7 right; left; reflexivity |].
    apply test_suffix; try reflexivity. apply matches_iff. reflexivity.
  - apply endsWith_split in H as [pre ->].
    eexists. split; [do 8 right; left; reflexivity |].
    apply test_suffix; try reflexivity. apply matches_iff. reflexivity.
Qed.

End RefusedHosts.


Section GuardClaims.
Import UrlGuard.

Lemma guard_refuses parseUrl cfg url p :
  parseUrl url = Some p -> refused_host (hostname p) ->
  uv_valid (validateDownloadUrl parseUrl cfg url) = false.
Proof.
  intros Hp Hr. unfold validateDownloadUrl.
  destruct (Text.is_empty url); [reflexivity |].
  rewrite Hp. destruct (negb _); [reflexivity |].
  now rewrite (refused_host_matches _ Hr).
Qed.

(** The two guards are the same function. *)
Lemma validateImageUrl_same parseUrl cfg url :
  validateImageUrl parseUrl cfg url = validateDownloadUrl parseUrl cfg url.
Proof. reflexivity. Qed.

Lemma download_refused validate size_error http_get localPath fuel url wp :
  uv_valid (validate url) = false ->
  exists r,
    download http_get localPath validate size_error (S fuel) url wp = Some (r, [])
    /\ dr_success r = false.
Proof.
  intros H. cbn [download]. rewrite H. cbn [negb]. eexists. split; reflexivity.
Qed.

(** C2. A URL whose host name is [localhost], an IPv4 address in 127/8, 10/8,
    172.16/12, 192.168/16 or 169.254/16, the address 0.0.0.0, or a name ending
    in [.internal] or [.local] is rejected by both guards, and both downloads
    fail without requesting anything, whatever the allowlist holds. *)
Theorem C2_refused_hosts_never_fetched parseUrl cfg http_get localPath url p :
  parseUrl url = Some p ->
  refused_host (hostname p) ->
  uv_valid (validateDownloadUrl parseUrl cfg url) = false /\
  uv_valid (validateImageUrl parseUrl cfg url) = false /\
  (forall fuel wpMediaPath,
     exists r,
       downloadVideo parseUrl cfg http_get localPath (S fuel) url wpMediaPath
       = Some (r, []) /\ dr_success r = false) /\
  (forall fuel wpMediaPath,
     exists r,
       downloadImage parseUrl cfg http_get localPath (S fuel) url wpMediaPath
       = Some (r, []) /\ dr_success r = false).
Proof.
  intros Hp Hr.
  pose proof (guard_refuses parseUrl cfg url p Hp Hr) as Hv.
  repeat split; try exact Hv.
  - intros fuel wp. apply download_refused. exact Hv.
  - intros fuel wp. apply download_refused. exact Hv.
Qed.

(** The metadata address with an allowlist that is the wildcard, and with an
    allowlist that names the address itself. *)
Lemma C2_refused_hosts_never_fetched_witness :
  (exists r,
     downloadVideo SampleNet.parseUrl Sample.cfg SampleNet.http_get SampleNet.localPath
       5 SampleNet.metadata_url "" = Some (r, []) /\ dr_success r = false) /\
  (exists r,
     downloadImage SampleNet.parseUrl SampleNet.cfg_listing_host SampleNet.http_get
       SampleNet.localPath 5 SampleNet.metadata_url "" = Some (r, [])
     /\ dr_success r = false).
Proof.
  assert (Hr : refused_host "169.254.169.254").
  { right; left. exists 169%N, 254%N, 169%N, 254%N.
    repeat split; try lia.
    do 4 right. left. split; reflexivity. }
  split.
  - apply (C2_refused_hosts_never_fetched SampleNet.parseUrl Sample.cfg
             SampleNet.http_get SampleNet.localPath SampleNet.metadata_url _ eq_refl Hr).
  - apply (C2_refused_hosts_never_fetched SampleNet.parseUrl SampleNet.cfg_listing_host
             SampleNet.http_get SampleNet.localPath SampleNet.metadata_url _ eq_refl Hr).
Defined.

(** ** C8: redirects *)

(** C8 (as stated).  A second redirect in a row is followed as well: three
    requests are made. *)
Lemma C8_second_redirect_is_followed :
  ~ (forall parseUrl cfg http_get localPath fuel url wpMediaPath r requested,
       downloadVideo parseUrl cfg http_get localPath fuel url wpMediaPath
       = Some (r, requested) ->
       (length requested <= 2)%nat).
Proof.
  intros H.
  specialize (H SampleNet.parseUrl Sample.cfg SampleNet.http_get SampleNet.localPath
                5%nat SampleNet.url_a ""
                {| dr_success := true;
                   dr_local_path := Some "/uploads/2025/01/clip.mp4";
                   dr_relative_path := Some "2025/01/clip.mp4";
                   dr_file_size := Some 5000000; dr_error := None |}
                [SampleNet.url_a; SampleNet.url_b; SampleNet.url_c] eq_refl).
  cbn in H. lia.
Qed.

Lemma nonempty_some (s : string) : s <> "" -> Probe.nonempty (Some s) = Some s.
Proof. destruct s; [congruence | reflexivity]. Qed.

Lemma download_follows validate size_error http_get localPath
    (hops : list string) (target : string) (fuel : nat) (wp : string) :
  redirects validate http_get hops target ->
  download http_get localPath validate size_error (length hops + fuel)
    (hd target hops) wp
  = match download http_get localPath validate size_error fuel target wp with
    | Some (r, requested) => Some (r, hops ++ requested)
    | None => None
    end.
Proof.
  induction hops as [| u rest IH]; intros H.
  - cbn. destruct (download _ _ _ _ _ _ _) as [[r t] |]; reflexivity.
  - cbn [redirects] in H. destruct H as (Hv & (code & size & Hcode & Hget) & Hne & Hrest).
    cbn [length Nat.add hd download]. rewrite Hv, Hget. cbn [negb].
    assert (Hc : (code =? 301) || (code =? 302) = true).
    { destruct Hcode as [-> | ->]; reflexivity. }
    rewrite Hc, (nonempty_some _ Hne), (IH Hrest).
    destruct (download _ _ _ _ fuel target wp) as [[r t] |]; reflexivity.
Qed.

(** C8 (amended).  A 301 or 302 response with a Location header is followed
    by downloading the Location URL, and so is every further such response:
    after any run of redirects that pass the guard, the download continues
    with the URL the last of them names. *)
Theorem C8_redirects_are_followed parseUrl cfg http_get localPath
    (hops : list string) (target : string) (fuel : nat) (wpMediaPath : string) :
  redirects (validateDownloadUrl parseUrl cfg) http_get hops target ->
  downloadVideo parseUrl cfg http_get localPath (length hops + fuel)
    (hd target hops) wpMediaPath
  = match downloadVideo parseUrl cfg http_get localPath fuel target wpMediaPath with
    | Some (r, requested) => Some (r, hops ++ requested)
    | None => None
    end
  /\
  downloadImage parseUrl cfg http_get localPath (length hops + fuel)
    (hd target hops) wpMediaPath
  = match downloadImage parseUrl cfg http_get localPath fuel target wpMediaPath with
    | Some (r, requested) => Some (r, hops ++ requested)
    | None => None
    end.
Proof.
  intros H. split; apply download_follows; exact H.
Qed.

(** Two redirects in a row, then the file. *)
Lemma C8_redirects_are_followed_witness :
  exists r,
    downloadVideo SampleNet.parseUrl Sample.cfg SampleNet.http_get SampleNet.localPath
      3 SampleNet.url_a ""
    = Some (r, [SampleNet.url_a; SampleNet.url_b; SampleNet.url_c])
    /\ dr_success r = true.
Proof.
  destruct (C8_redirects_are_followed SampleNet.parseUrl Sample.cfg SampleNet.http_get
              SampleNet.localPath [SampleNet.url_a; SampleNet.url_b] SampleNet.url_c
              1 "") as [E _].
  - cbn [redirects hd]. repeat split; try reflexivity; try discriminate.
    + exists 302, 0. split; [now right | reflexivity].
    + exists 301, 0. split; [now left | reflexivity].
  - cbn [length Nat.add hd] in E. rewrite E.
    eexists. split; reflexivity.
Defined.

End GuardClaims.

(** * Further properties of the modelled code *)

(** ** Byte ranges *)

Section RangeInvariants.
Import Text ContentRoute.

Lemma check_bounds_inside (start end_ size s e : Z) :
  check_bounds start end_ size = Some (s, e) ->
  s = start /\ e = Z.min end_ (size - 1) /\ 0 <= s /\ s <= e /\ e < size.
Proof.
  unfold check_bounds.
  destruct (Z.ltb_spec start 0); [discriminate |].
  destruct (Z.ltb_spec end_ 0); [discriminate |].
  destruct (Z.ltb_spec end_ start); [discriminate |].
  destruct (Z.leb_spec size start); [discriminate |].
  cbn [orb]. intros E. injection E as <- <-. lia.
Qed.

Lemma parsed_range_inside (h : string) (size s e : Z) :
  parseRangeHeader h size = Some (s, e) -> 0 <= s /\ s <= e /\ e < size.
Proof.
  unfold parseRangeHeader.
  destruct (match_range h) as [[g1 g2] |]; [| discriminate].
  destruct (negb (negb (is_empty g1)) && negb (is_empty g2)).
  - destruct (parseInt g2 <=? 0); [discriminate |].
    intros E. apply check_bounds_inside in E. lia.
  - destruct (negb (is_empty g1) && negb (negb (is_empty g2))).
    + intros E. apply check_bounds_inside in E. lia.
    + destruct (negb (is_empty g1) && negb (is_empty g2)); [| discriminate].
      intros E. apply check_bounds_inside in E. lia.
Qed.

(** X1. Whatever the Range header holds, a partial response stays inside the
    file: the slice served has [0 <= start <= end < size], its Content-Length
    is [end - start + 1], which is at least 1 and at most [size], and its
    status is 206. *)
Theorem X1_partial_response_inside_file (ext h : string) (size s e : Z) :
  body (GET_file ext size (Some h)) = FileSlice s e ->
  0 <= s /\ s <= e /\ e < size /\
  status (GET_file ext size (Some h)) = 206 /\
  content_length (GET_file ext size (Some h)) = Some (Z_to_string (e - s + 1)) /\
  1 <= e - s + 1 <= size.
Proof.
  unfold GET_file.
  destruct (negb (is_empty h) && includes STREAMABLE_EXTENSIONS ext); [| discriminate].
  destruct (parseRangeHeader h size) as [[s' e'] |] eqn:E; [| discriminate].
  cbn [body status content_length]. intros B. injection B as <- <-.
  apply parsed_range_inside in E. repeat split; lia.
Qed.

Lemma X1_partial_response_inside_file_witness :
  0 <= 150 /\ 150 <= 199 /\ 199 < 200 /\
  status (GET_file ".mp4" 200 (Some "bytes=150-900")) = 206 /\
  content_length (GET_file ".mp4" 200 (Some "bytes=150-900")) = Some "50" /\
  1 <= 199 - 150 + 1 <= 200.
Proof.
  apply (X1_partial_response_inside_file ".mp4" "bytes=150-900" 200 150 199).
  reflexivity.
Defined.

(** X2. On a streamable file, an open-ended range [bytes=a-] with
    [0 <= a < size] and an explicit range [bytes=a-b] whose end lies at or
    past the end of the file are both served as the slice from [a] to the
    last byte, with status 206. *)
Theorem X2_range_to_end_of_file (ext : string) (size a : Z) :
  includes STREAMABLE_EXTENSIONS ext = true ->
  0 <= a -> a < size ->
  GET_file ext size (Some (range_open a)) =
    {| status := 206;
       content_length := Some (Z_to_string (size - 1 - a + 1));
       content_range :=
         Some ("bytes " +:+ Z_to_string a +:+ "-" +:+ Z_to_string (size - 1) +:+ "/" +:+
               Z_to_string size);
       body := FileSlice a (size - 1) |}
  /\
  (forall b, size <= b ->
     GET_file ext size (Some (range_explicit a b)) =
     GET_file ext size (Some (range_open a))).
Proof.
  intros Hext Ha Hlt.
  assert (Hopen : parseRangeHeader (range_open a) size = Some (a, size - 1)).
  { rewrite parseRange_open by lia. unfold check_bounds.
    destruct (Z.ltb_spec a 0); [lia |]. destruct (Z.ltb_spec (size - 1) 0); [lia |].
    destruct (Z.ltb_spec (size - 1) a); [lia |]. destruct (Z.leb_spec size a); [lia |].
    cbn [orb]. now rewrite Z.min_id. }
  split.
  - unfold GET_file. rewrite Hext.
    unfold range_open at 1. rewrite range_header_nonempty. cbn [negb andb].
    now rewrite Hopen.
  - intros b Hb. unfold GET_file. rewrite Hext.
    unfold range_open at 1, range_explicit at 1. rewrite !range_header_nonempty.
    cbn [negb andb]. rewrite Hopen, parseRange_explicit by lia.
    unfold check_bounds.
    destruct (Z.ltb_spec a 0); [lia |]. destruct (Z.ltb_spec b 0); [lia |].
    destruct (Z.ltb_spec b a); [lia |]. destruct (Z.leb_spec size a); [lia |].
    cbn [orb]. now rewrite Z.min_r by lia.
Qed.

Lemma X2_range_to_end_of_file_witness :
  GET_file ".webm" 1000 (Some "bytes=400-") =
    {| status := 206; content_length := Some "600";
       content_range := Some "bytes 400-999/1000"; body := FileSlice 400 999 |}
  /\ GET_file ".webm" 1000 (Some "bytes=400-5000")
     = GET_file ".webm" 1000 (Some "bytes=400-").
Proof.
  destruct (X2_range_to_end_of_file ".webm" 1000 400 eq_refl ltac:(lia) ltac:(lia))
    as [E1 E2].
  split.
  - etransitivity; [exact E1 | vm_compute; reflexivity].
  - exact (E2 5000 ltac:(lia)).
Defined.

Lemma no_equals_no_match (h : string) :
  (forall c, c ∈ list_ascii_of_string h -> c <> "="%char) ->
  match_range h = None.
Proof.
  induction h as [| c h IH]; intros Hno.
  - reflexivity.
  - cbn [match_range].
    assert (Hhere : match_range_here (String c h) = None).
    { unfold match_range_here.
      destruct (startsWith "bytes=" (String c h)) eqn:Es; [| reflexivity].
      exfalso.
      destruct h as [| c1 [| c2 [| c3 [| c4 [| c5 t]]]]]; cbn in Es;
        repeat match type of Es with
               | (if ?b then _ else _) = true => destruct b eqn:?; [| discriminate]
               end; try discriminate.
      apply (Hno c5); [| now apply Ascii.eqb_eq; rewrite Ascii.eqb_sym].
      apply list_elem_of_In. cbn. auto 10. }
    rewrite Hhere. apply IH. intros x Hx. apply Hno.
    cbn [list_ascii_of_string]. now apply elem_of_cons; right.
Qed.

(** X3. A non-empty Range header that holds no [=] sign, hence no byte-range
    specification at all, is not ignored on a streamable file: it is answered
    416 with Content-Range [bytes */size]. *)
Theorem X3_range_without_unit_is_unsatisfiable (ext h : string) (size : Z) :
  includes STREAMABLE_EXTENSIONS ext = true ->
  h <> "" ->
  (forall c, c ∈ list_ascii_of_string h -> c <> "="%char) ->
  GET_file ext size (Some h) =
    {| status := 416; content_length := None;
       content_range := Some ("bytes */" +:+ Z_to_string size);
       body := RangeNotSatisfiable |}.
Proof.
  intros Hext Hne Hno. unfold GET_file. rewrite Hext.
  destruct h as [| c h]; [congruence |]. cbn [is_empty negb andb].
  unfold parseRangeHeader. now rewrite (no_equals_no_match _ Hno).
Qed.

Lemma X3_range_without_unit_is_unsatisfiable_witness :
  GET_file ".ts" 200 (Some "none") =
    {| status := 416; content_length := None;
       content_range := Some "bytes */200"; body := RangeNotSatisfiable |}.
Proof.
  apply (X3_range_without_unit_is_unsatisfiable ".ts" "none" 200 eq_refl).
  - discriminate.
  - intros c Hc. cbn in Hc.
    repeat (apply elem_of_cons in Hc as [-> | Hc]; [discriminate |]).
    now apply elem_of_nil in Hc.
Defined.

End RangeInvariants.


(** ** Downloads *)

Section DownloadInvariants.
Import UrlGuard.

Variable parseUrl : string -> option ParsedUrl.
Variable cfg : Config.
Variable http_get : string -> HttpGet.
Variable localPath : string -> string -> string * string.

Lemma download_requests_valid validate size_error (fuel : nat) :
  forall url wp r requested,
  download http_get localPath validate size_error fuel url wp = Some (r, requested) ->
  forall u, u ∈ requested -> uv_valid (validate u) = true.
Proof.
  induction fuel as [| fuel IH]; intros url wp r requested E u Hu; [discriminate |].
  cbn [download] in E.
  destruct (uv_valid (validate url)) eqn:Hv; cbn [negb] in E.
  2:{ injection E as <- <-. now apply elem_of_nil in Hu. }
  assert (Hone : forall x, Some (x, [url]) = Some (r, requested) ->
                 uv_valid (validate u) = true).
  { intros x Ex. injection Ex as <- <-.
    apply list_elem_of_singleton in Hu. now subst u. }
  destruct (http_get url) as [code loc size | m |]; try (now apply (Hone _ E)).
  destruct (if (code =? 301) || (code =? 302) then Probe.nonempty loc else None)
    as [redirectUrl |].
  - destruct (download _ _ _ _ fuel redirectUrl wp) as [[r' t] |] eqn:Er; [| discriminate].
    injection E as <- <-.
    apply elem_of_cons in Hu as [-> | Hu]; [exact Hv |].
    exact (IH _ _ _ _ Er u Hu).
  - destruct (negb (code =? 200)); [now apply (Hone _ E) |].
    destruct (size_error size); [now apply (Hone _ E) |].
    destruct (localPath url wp). now apply (Hone _ E).
Qed.

Lemma valid_url_is_public url :
  uv_valid (validateDownloadUrl parseUrl cfg url) = true ->
  exists p, parseUrl url = Some p /\
            includes ["http:"; "https:"] (protocol p) = true /\
            ~ refused_host (hostname p).
Proof.
  intros Hv.
  destruct (parseUrl url) as [p |] eqn:Ep.
  - exists p. repeat split.
    + unfold validateDownloadUrl in Hv. rewrite Ep in Hv.
      destruct (Text.is_empty url); [discriminate |].
      destruct (includes _ (protocol p)); [reflexivity | discriminate].
    + intros Hr. rewrite (guard_refuses parseUrl cfg url p Ep Hr) in Hv. discriminate.
  - unfold validateDownloadUrl in Hv. rewrite Ep in Hv.
    destruct (Text.is_empty url); discriminate.
Qed.

(** X4. However a download ends and however many redirects it follows, every
    URL it requested was accepted by the guard: it parses, its scheme is http
    or https, and its host is none of the refused ones.  This holds for the
    video download and for the image download. *)
Theorem X4_every_request_passed_the_guard (fuel : nat) (url wp : string)
    (r : DownloadResult) (requested : list string) :
  downloadVideo parseUrl cfg http_get localPath fuel url wp = Some (r, requested)
  \/ downloadImage parseUrl cfg http_get localPath fuel url wp = Some (r, requested) ->
  forall u, u ∈ requested ->
    exists p, parseUrl u = Some p /\
              includes ["http:"; "https:"] (protocol p) = true /\
              ~ refused_host (hostname p).
Proof.
  intros [E | E] u Hu; apply valid_url_is_public.
  - exact (download_requests_valid _ _ _ _ _ _ _ E u Hu).
  - exact (download_requests_valid _ _ _ _ _ _ _ E u Hu).
Qed.

(** X5. A set of URLs that is closed under redirection (each of them passes
    the guard and is answered 301 or 302 with a Location in the set) is never
    left: a download that starts in it makes request after request and has no
    result within any number of requests. *)
Theorem X5_redirect_cycle_never_resolves (P : string -> Prop) :
  (forall u, P u ->
     uv_valid (validateDownloadUrl parseUrl cfg u) = true /\
     exists code size loc,
       (code = 301 \/ code = 302) /\
       http_get u = GetResponse code (Some loc) size /\ loc <> "" /\ P loc) ->
  forall fuel url wp, P url ->
    downloadVideo parseUrl cfg http_get localPath fuel url wp = None /\
    downloadImage parseUrl cfg http_get localPath fuel url wp = None.
Proof.
  intros Hclosed fuel.
  assert (G : forall size_error url wp, P url ->
              download http_get localPath (validateDownloadUrl parseUrl cfg)
                size_error fuel url wp = None).
  { intros size_error. induction fuel as [| fuel IH]; intros url wp Hp; [reflexivity |].
    destruct (Hclosed url Hp) as (Hv & code & size & loc & Hcode & Hget & Hne & Hloc).
    cbn [download]. rewrite Hv, Hget. cbn [negb].
    assert (Hc : (code =? 301) || (code =? 302) = true).
    { destruct Hcode as [-> | ->]; reflexivity. }
    rewrite Hc, (nonempty_some _ Hne), (IH _ wp Hloc). reflexivity. }
  intros url wp Hp. split; apply G; exact Hp.
Qed.

Lemma image_size_accepted (size : Z) :
  image_size_error size = None <-> 100 <= size <= 50 * 1024 * 1024.
Proof.
  unfold image_size_error.
  destruct (Z.ltb_spec size 100) as [Hs | Hs]; [split; [discriminate | lia] |].
  destruct (Num.Qgtb _ _) eqn:Eq.
  - split; [discriminate |]. intros H. apply Qgtb_spec in Eq.
    unfold Qlt, Qdiv, Qmult, Qinv, inject_Z, MAX_IMAGE_SIZE_MB in Eq. simpl in Eq. lia.
  - split; [| reflexivity]. intros _. apply Qgtb_false in Eq.
    unfold Qle, Qdiv, Qmult, Qinv, inject_Z, MAX_IMAGE_SIZE_MB in Eq. simpl in Eq. lia.
Qed.

Lemma download_success validate size_error (fuel : nat) :
  forall url wp r requested,
  download http_get localPath validate size_error fuel url wp = Some (r, requested) ->
  dr_success r = true ->
  exists u loc size,
    last requested = Some u /\
    http_get u = GetResponse 200 loc size /\
    size_error size = None /\ dr_file_size r = Some size.
Proof.
  induction fuel as [| fuel IH]; intros url wp r requested E Hs; [discriminate |].
  cbn [download] in E.
  destruct (uv_valid (validate url)); cbn [negb] in E.
  2:{ injection E as <- <-. discriminate. }
  destruct (http_get url) as [code loc size | m |] eqn:Hget;
    try (injection E as <- <-; discriminate).
  destruct (if (code =? 301) || (code =? 302) then Probe.nonempty loc else None)
    as [redirectUrl |].
  - destruct (download _ _ _ _ fuel redirectUrl wp) as [[r' t] |] eqn:Er; [| discriminate].
    injection E as <- <-.
    destruct (IH _ _ _ _ Er Hs) as (u & loc' & size' & Hl & Hg & Hse & Hfs).
    exists u, loc', size'. repeat split; try assumption.
    destruct t as [| x t]; [discriminate |]. exact Hl.
  - destruct (Z.eqb_spec code 200) as [-> | Hne]; cbn [negb] in E;
      [| injection E as <- <-; discriminate].
    destruct (size_error size) eqn:Hse; [injection E as <- <-; discriminate |].
    destruct (localPath url wp). injection E as <- <-.
    exists url, loc, size. repeat split; assumption.
Qed.

(** X6. A download succeeds only on a 200 response to the last URL it
    requested, and only when the body has an acceptable size: at least 1024
    bytes for a video; at least 100 bytes and at most 50 MiB for an image.
    The size reported is the size of that body. *)
Theorem X6_download_success_conditions (fuel : nat) (url wp : string)
    (r : DownloadResult) (requested : list string) :
  dr_success r = true ->
  (downloadVideo parseUrl cfg http_get localPath fuel url wp = Some (r, requested) ->
   exists u loc size,
     last requested = Some u /\ http_get u = GetResponse 200 loc size /\
     1024 <= size /\ dr_file_size r = Some size)
  /\
  (downloadImage parseUrl cfg http_get localPath fuel url wp = Some (r, requested) ->
   exists u loc size,
     last requested = Some u /\ http_get u = GetResponse 200 loc size /\
     100 <= size <= 50 * 1024 * 1024 /\ dr_file_size r = Some size).
Proof.
  intros Hs. split; intros E.
  - destruct (download_success _ _ _ _ _ _ _ E Hs) as (u & loc & size & Hl & Hg & Hse & Hf).
    exists u, loc, size. repeat split; try assumption.
    unfold video_size_error in Hse. destruct (Z.ltb_spec size 1024); [discriminate | lia].
  - destruct (download_success _ _ _ _ _ _ _ E Hs) as (u & loc & size & Hl & Hg & Hse & Hf).
    exists u, loc, size. apply image_size_accepted in Hse.
    repeat split; try assumption; lia.
Qed.

End DownloadInvariants.

Lemma X4_every_request_passed_the_guard_witness :
  exists p, SampleNet.parseUrl SampleNet.url_c = Some p /\
            includes ["http:"; "https:"] (protocol p) = true /\
            ~ UrlGuard.refused_host (hostname p).
Proof.
  apply (X4_every_request_passed_the_guard SampleNet.parseUrl Sample.cfg
           SampleNet.http_get SampleNet.localPath 3 SampleNet.url_a ""
           {| dr_success := true;
              dr_local_path := Some "/uploads/2025/01/clip.mp4";
              dr_relative_path := Some "2025/01/clip.mp4";
              dr_file_size := Some 5000000; dr_error := None |}
           [SampleNet.url_a; SampleNet.url_b; SampleNet.url_c]).
  - left. reflexivity.
  - apply list_elem_of_In. cbn. auto.
Defined.

Lemma X5_redirect_cycle_never_resolves_witness :
  UrlGuard.downloadVideo SampleLoop.parseUrl Sample.cfg SampleLoop.http_get
    SampleNet.localPath 50 SampleLoop.url "" = None /\
  UrlGuard.downloadImage SampleLoop.parseUrl Sample.cfg SampleLoop.http_get
    SampleNet.localPath 50 SampleLoop.url "" = None.
Proof.
  apply (X5_redirect_cycle_never_resolves SampleLoop.parseUrl Sample.cfg
           SampleLoop.http_get SampleNet.localPath (fun u => u = SampleLoop.url)).
  - intros u ->. split; [reflexivity |].
    exists 302, 0, SampleLoop.url. repeat split; try discriminate. now right.
  - reflexivity.
Defined.

Lemma X6_download_success_conditions_witness :
  exists u loc size,
    last [SampleNet.url_a; SampleNet.url_b; SampleNet.url_c] = Some u /\
    SampleNet.http_get u = GetResponse 200 loc size /\
    1024 <= size /\ Some 5000000 = Some size.
Proof.
  apply (X6_download_success_conditions SampleNet.parseUrl Sample.cfg
           SampleNet.http_get SampleNet.localPath 3 SampleNet.url_a ""
           {| dr_success := true;
              dr_local_path := Some "/uploads/2025/01/clip.mp4";
              dr_relative_path := Some "2025/01/clip.mp4";
              dr_file_size := Some 5000000; dr_error := None |}
           [SampleNet.url_a; SampleNet.url_b; SampleNet.url_c] eq_refl).
  reflexivity.
Defined.


(** ** The allowlist *)

Section Allowlist.
Import Text UrlGuard.

Lemma length_str_app (s t : string) :
  String.length (s +:+ t) = (String.length s + String.length t)%nat.
Proof.
  induction s as [| c s IH]; [reflexivity |].
  rewrite str_app_cons. cbn [String.length]. now rewrite IH.
Qed.

Lemma endsWith_app (pre p : string) : endsWith p (pre +:+ p) = true.
Proof.
  unfold endsWith. rewrite length_str_app.
  apply andb_true_iff. split.
  - apply Nat.leb_le. lia.
  - replace (String.length pre + String.length p - String.length p)%nat
      with (String.length pre) by lia.
    rewrite drop_app. apply String.eqb_refl.
Qed.

Lemma host_or_subdomain (host d : string) :
  String.eqb host d || endsWith ("." +:+ d) host = true <->
  host = d \/ exists pre, host = pre +:+ "." +:+ d.
Proof.
  rewrite orb_true_iff, String.eqb_eq. split.
  - intros [H | H]; [now left | right]. exact (endsWith_split _ _ H).
  - intros [H | [pre ->]]; [now left | right]. apply endsWith_app.
Qed.

(** X7. An allowlist entry [d] admits the host [d] itself and every host that
    ends in a dot followed by [d], compared after lower-casing the entry, and
    no other host; so a host that merely ends in [d] without the dot is not
    admitted.  The entry [*.d] admits exactly the same hosts as [d]: the bare
    domain too, and a plain entry its subdomains too. *)
Theorem X7_allowlist_entry (host d : string) :
  startsWith "*." (toLowerCase d) = false ->
  (domain_matches host d = true <->
     host = toLowerCase d \/ exists pre, host = pre +:+ "." +:+ toLowerCase d)
  /\ domain_matches host ("*." +:+ d) = domain_matches host d.
Proof.
  intros Hplain.
  assert (E : domain_matches host d
              = String.eqb host (toLowerCase d) || endsWith ("." +:+ toLowerCase d) host).
  { unfold domain_matches. now rewrite Hplain. }
  split.
  - rewrite E. apply host_or_subdomain.
  - rewrite E. unfold domain_matches.
    rewrite lower_app. change (toLowerCase "*.") with "*.".
    rewrite startsWith_app.
    change 2%nat with (String.length "*."). now rewrite drop_app.
Qed.

End Allowlist.

Lemma X7_allowlist_entry_witness :
  (UrlGuard.domain_matches "cdn.example.com" "Example.com" = true <->
     "cdn.example.com" = "example.com" \/
     exists pre, "cdn.example.com" = pre +:+ "." +:+ "example.com")
  /\ UrlGuard.domain_matches "cdn.example.com" "*.Example.com"
     = UrlGuard.domain_matches "cdn.example.com" "Example.com".
Proof.
  apply (X7_allowlist_entry "cdn.example.com" "Example.com"). reflexivity.
Defined.

(** ** The probe and the validation built on it *)

Section ProbeInvariants.
Import Probe VideoValidation.

Lemma stream_step_untouched (acc : VideoInfo * bool) (s : FfprobeStream) :
  untouched (fst acc) (fst (stream_step acc s)) /\
  (snd (stream_step acc s) = true -> snd acc = true \/ codec_type s = "video").
Proof.
  destruct acc as [i b]. unfold stream_step, untouched.
  destruct (String.eqb (codec_type s) "video") eqn:Ev;
    [apply String.eqb_eq in Ev |];
    destruct (negb (bool_decide (is_Some (vi_video_codec i))));
    cbn [andb];
    match goal with |- context [if ?c then _ else _] => destruct c end;
    cbn; auto 10.
Qed.

Lemma streams_untouched (ss : list FfprobeStream) :
  forall acc,
  untouched (fst acc) (fst (fold_left stream_step ss acc)) /\
  (snd (fold_left stream_step ss acc) = true ->
   snd acc = true \/ exists s, s ∈ ss /\ codec_type s = "video").
Proof.
  induction ss as [| s ss IH]; intros acc.
  - cbn. unfold untouched. auto 10.
  - cbn [fold_left].
    destruct (IH (stream_step acc s)) as [(U1 & U2 & U3 & U4 & U5) Hb].
    destruct (stream_step_untouched acc s) as [(V1 & V2 & V3 & V4 & V5) Hs].
    split.
    + unfold untouched. repeat split; congruence.
    + intros H. destruct (Hb H) as [H1 | (s' & Hin & Hv)].
      * destruct (Hs H1) as [H2 | H2]; [now left | right].
        exists s. split; [apply list_elem_of_here | exact H2].
      * right. exists s'. split; [now apply list_elem_of_further | exact Hv].
Qed.

(** What a valid probe result carries. *)
Lemma getVideoInfo_valid (fs : FileSystem) (ffprobe : string -> FfprobeOutcome)
    (p : string) :
  vi_valid (getVideoInfo fs ffprobe p) = true ->
  vi_corrupted (getVideoInfo fs ffprobe p) = false /\
  vi_error (getVideoInfo fs ffprobe p) = None /\
  (0 < vi_duration (getVideoInfo fs ffprobe p))%Q /\
  0 < vi_width (getVideoInfo fs ffprobe p) /\
  0 < vi_height (getVideoInfo fs ffprobe p) /\
  Fs.statSize fs p = Some (vi_file_size (getVideoInfo fs ffprobe p)) /\
  exists md ss s,
    ffprobe p = ProbeData (Some md) /\ streams md = Some ss /\
    s ∈ ss /\ codec_type s = "video".
Proof.
  unfold getVideoInfo.
  destruct (Fs.statSize fs p) as [size |]; [| discriminate].
  destruct (ffprobe p) as [m | [md |]]; try discriminate.
  destruct (streams md) as [ss |] eqn:Ess; [| discriminate].
  match goal with |- context [fold_left stream_step ss ?a] =>
    destruct (streams_untouched ss a) as [(U1 & U2 & U3 & U4 & U5) Hb];
    destruct (fold_left stream_step ss a) as [i hasVideo] end.
  cbn [fst snd] in U1, U2, U3, U4, U5, Hb.
  assert (F : forall f j, vi_valid (apply_format j f) = vi_valid j /\
                          vi_corrupted (apply_format j f) = vi_corrupted j /\
                          vi_error (apply_format j f) = vi_error j /\
                          vi_file_size (apply_format j f) = vi_file_size j).
  { intros [f |] j; cbn; auto. }
  match type of U2 with _ = vi_corrupted (apply_format ?j ?f) =>
    destruct (F f j) as (F0 & F1 & F2 & F3) end.
  rewrite F0 in U1. rewrite F1 in U2. rewrite F2 in U3. rewrite F3 in U5.
  cbn in U1, U2, U3, U5.
  destruct hasVideo; cbn [negb]; [| cbn; congruence].
  destruct (Qle_bool (vi_duration i) 0) eqn:Ed; [cbn; congruence |].
  destruct (Z.leb_spec (vi_width i) 0); [cbn; congruence |].
  destruct (Z.leb_spec (vi_height i) 0); [cbn; congruence |].
  cbn. intros _. repeat split; try assumption; try lia.
  - apply Qnot_le_lt. intros L. apply Qle_bool_iff in L. congruence.
  - now rewrite U5.
  - destruct (Hb eq_refl) as [Hfalse | (s & Hin & Hv)]; [discriminate |].
    exists md, ss, s. auto.
Qed.

Lemma getVideoInfo_verdict (fs : FileSystem) (ffprobe : string -> FfprobeOutcome)
    (p : string) :
  vi_valid (getVideoInfo fs ffprobe p) = negb (vi_corrupted (getVideoInfo fs ffprobe p)) /\
  (vi_corrupted (getVideoInfo fs ffprobe p) = true ->
   is_Some (vi_error (getVideoInfo fs ffprobe p))).
Proof.
  destruct (vi_valid (getVideoInfo fs ffprobe p)) eqn:Ev.
  - destruct (getVideoInfo_valid fs ffprobe p Ev) as (Hc & _). rewrite Hc.
    split; [reflexivity | discriminate].
  - revert Ev. unfold getVideoInfo.
    assert (C : forall j e,
              vi_valid (set_corrupted j e) = false ->
              false = negb (vi_corrupted (set_corrupted j e)) /\
              (vi_corrupted (set_corrupted j e) = true ->
               is_Some (vi_error (set_corrupted j e)))).
    { intros j e _. split; [reflexivity |]. intros _. now exists e. }
    destruct (Fs.statSize fs p) as [size |]; [| apply C].
    destruct (ffprobe p) as [m | [md |]]; try apply C.
    destruct (streams md) as [ss |]; [| apply C].
    destruct (fold_left stream_step ss _) as [i hasVideo].
    destruct (negb hasVideo); [apply C |].
    destruct (_ || _); [apply C | discriminate].
Qed.

(** X8. The probe's verdict is two-valued: a result is valid exactly when it
    is not marked corrupted, and a corrupted result always carries an error
    message.  A valid result was read from an existing file whose recorded
    size is the file's, it has a positive duration, width and height, and the
    probe reported at least one video stream. *)
Theorem X8_probe_verdict (fs : FileSystem) (ffprobe : string -> FfprobeOutcome)
    (p : string) :
  let i := getVideoInfo fs ffprobe p in
  vi_valid i = negb (vi_corrupted i) /\
  (vi_corrupted i = true -> is_Some (vi_error i)) /\
  (vi_valid i = true ->
     (0 < vi_duration i)%Q /\ 0 < vi_width i /\ 0 < vi_height i /\
     files fs !! p = Some (vi_file_size i) /\
     exists md ss s,
       ffprobe p = ProbeData (Some md) /\ streams md = Some ss /\
       s ∈ ss /\ codec_type s = "video").
Proof.
  cbn zeta. destruct (getVideoInfo_verdict fs ffprobe p) as [H1 H2].
  split; [exact H1 |]. split; [exact H2 |].
  intros Hv. destruct (getVideoInfo_valid fs ffprobe p Hv) as (_ & _ & H).
  exact H.
Qed.

(** X9. A video that validation accepts exists, has at most 100 MiB, and its
    attached probe result is the probe's own, is valid, lasts more than 0 s
    and at most 300 s, has positive dimensions, and names either no video
    codec or one of the allowed codecs. *)
Theorem X9_accepted_video (fs : FileSystem) (ffprobe : string -> FfprobeOutcome)
    (p : string) :
  vr_valid (validateInputVideo fs ffprobe p) = true ->
  let i := getVideoInfo fs ffprobe p in
  vr_video_info (validateInputVideo fs ffprobe p) = Some i /\
  (exists size, files fs !! p = Some size /\ size <= 100 * 1024 * 1024
                /\ vi_file_size i = size) /\
  vi_valid i = true /\
  (0 < vi_duration i)%Q /\ (vi_duration i <= 300)%Q /\
  0 < vi_width i /\ 0 < vi_height i /\
  match nonempty (vi_video_codec i) with
  | Some codec => codec ∈ VIDEO_VALIDATION.ALLOWED_CODECS
  | None => True
  end.
Proof.
  cbn zeta. unfold validateInputVideo.
  destruct (Fs.statSize fs p) as [size |] eqn:Es; [| discriminate].
  rewrite size_test.
  destruct (Z.ltb_spec 104857600 size) as [Hbig | Hsmall]; [discriminate |].
  destruct (vi_corrupted (getVideoInfo fs ffprobe p)) eqn:Ec; [discriminate |].
  destruct (vi_valid (getVideoInfo fs ffprobe p)) eqn:Ev; [| discriminate].
  cbn [orb negb].
  destruct (Num.Qgtb _ _) eqn:Ed; [discriminate |].
  apply Qgtb_false in Ed.
  destruct (getVideoInfo_valid fs ffprobe p Ev) as (_ & _ & Hd & Hw & Hh & Hs & _).
  assert (Hsz : vi_file_size (getVideoInfo fs ffprobe p) = size) by congruence.
  destruct (nonempty (vi_video_codec (getVideoInfo fs ffprobe p))) as [codec |] eqn:En.
  - destruct (includes VIDEO_VALIDATION.ALLOWED_CODECS codec) eqn:Ei; [| discriminate].
    intros _. repeat split; try assumption.
    + exists size. repeat split; [exact Es | lia | exact Hsz].
    + revert Ei. unfold VIDEO_VALIDATION.ALLOWED_CODECS. cbn [includes].
      rewrite !orb_true_iff, !String.eqb_eq.
      intros H. apply list_elem_of_In. cbn. intuition congruence.
  - intros _. repeat split; try assumption.
    exists size. repeat split; [exact Es | lia | exact Hsz].
Qed.

(** X10. A validation result is of one of two shapes.  Either it is valid,
    with no error message and no error code; or it is invalid, with exactly
    one error message and one of five error codes, and it then carries the
    probe's result unless the file is missing or too large, which is decided
    before the probe is run. *)
Theorem X10_validation_result_shape (fs : FileSystem)
    (ffprobe : string -> FfprobeOutcome) (p : string) :
  let r := validateInputVideo fs ffprobe p in
  (vr_valid r = true /\ vr_errors r = [] /\ vr_error_code r = None)
  \/
  (vr_valid r = false /\
   exists message code,
     vr_errors r = [message] /\ vr_error_code r = Some code /\
     ((code = ERROR_CODES.FILE_NOT_FOUND /\ files fs !! p = None /\
       vr_video_info r = None)
      \/ (code = ERROR_CODES.FILE_TOO_LARGE /\ vr_video_info r = None /\
          exists size, files fs !! p = Some size /\ 100 * 1024 * 1024 < size)
      \/ ((code = ERROR_CODES.VIDEO_CORRUPTED \/ code = ERROR_CODES.DURATION_TOO_LONG
           \/ code = ERROR_CODES.INVALID_CODEC) /\
          vr_video_info r = Some (getVideoInfo fs ffprobe p)))).
Proof.
  cbn zeta. unfold validateInputVideo.
  destruct (Fs.statSize fs p) as [size |] eqn:Es.
  2:{ right. split; [reflexivity |]. eexists _, _. cbn. eauto 10. }
  rewrite size_test.
  destruct (Z.ltb_spec 104857600 size) as [Hbig | Hsmall].
  { right. split; [reflexivity |]. eexists _, _. cbn.
    split; [reflexivity |]. split; [reflexivity |]. right. left.
    repeat split. exists size. split; [exact Es | lia]. }
  destruct (_ || _).
  { right. split; [reflexivity |]. eexists _, _. cbn. eauto 10. }
  destruct (Num.Qgtb _ _).
  { right. split; [reflexivity |]. eexists _, _. cbn. eauto 10. }
  destruct (nonempty _) as [codec |]; [| left; cbn; auto].
  destruct (includes _ codec); cbn [negb]; [left; cbn; auto |].
  right. split; [reflexivity |]. eexists _, _. cbn. eauto 10.
Qed.

End ProbeInvariants.

Lemma X9_accepted_video_witness :
  let fs := one_file "/uploads/a.mp4" 5242880 in
  let ffprobe := one_video_stream 300 "mov,mp4,m4a,3gp,3g2,mj2" "h264" in
  let i := Probe.getVideoInfo fs ffprobe "/uploads/a.mp4" in
  vr_video_info (VideoValidation.validateInputVideo fs ffprobe "/uploads/a.mp4") = Some i /\
  (exists size, files fs !! "/uploads/a.mp4" = Some size /\ size <= 100 * 1024 * 1024
                /\ vi_file_size i = size) /\
  vi_valid i = true /\
  (0 < vi_duration i)%Q /\ (vi_duration i <= 300)%Q /\
  0 < vi_width i /\ 0 < vi_height i /\
  match Probe.nonempty (vi_video_codec i) with
  | Some codec => codec ∈ VIDEO_VALIDATION.ALLOWED_CODECS
  | None => True
  end.
Proof.
  apply (X9_accepted_video (one_file "/uploads/a.mp4" 5242880)
           (one_video_stream 300 "mov,mp4,m4a,3gp,3g2,mj2" "h264") "/uploads/a.mp4").
  reflexivity.
Defined.

(** ** The transcode and the files it touches *)

Section TranscodeFrame.
Import Ffmpeg.

Lemma after_run_other fs p w q :
  q <> p -> files (after_run fs p w) !! q = files fs !! q.
Proof.
  intros Hq. destruct w; [| reflexivity]. cbn. now apply lookup_insert_ne.
Qed.

(** X11. Of the regular files, a transcode changes none but its output file:
    every other path, the input among them when it differs from the output,
    holds afterwards what it held before.  The directory of the output path
    is created, when it is missing, before the input file is looked for; when
    that throws, the call is rejected with the error and no file is touched.
    When the directory is there and the input file is missing, the transcoder
    is not run at all: the call resolves with the same failure for every
    transcoder and no regular file is changed. *)
Theorem X11_transcode_touches_only_its_output (mkdirOutputDir : string -> option string)
    (fs : FileSystem) (transcoder : string -> string -> string -> TranscoderRun)
    (inputPath outputPath quality : string) :
  let '(outcome, fs') :=
    FfmpegIO.compressVideo mkdirOutputDir fs transcoder inputPath outputPath quality in
  (forall q, q <> outputPath -> files fs' !! q = files fs !! q)
  /\ locked fs' = locked fs
  /\ (forall m, mkdirOutputDir outputPath = Some m -> outcome = Threw m /\ fs' = fs)
  /\ (mkdirOutputDir outputPath = None -> files fs !! inputPath = None ->
      outcome = Returned (failure ("Input file not found: " +:+ inputPath)) /\ fs' = fs).
Proof.
  unfold FfmpegIO.compressVideo.
  destruct (mkdirOutputDir outputPath) as [m |].
  { split; [reflexivity |]. split; [reflexivity |]. split; [| discriminate].
    intros m' [= <-]. split; reflexivity. }
  destruct (compressVideo fs transcoder inputPath outputPath quality)
    as [outcome fs'] eqn:E.
  assert (Hfs : fs' = snd (compressVideo fs transcoder inputPath outputPath quality))
    by now rewrite E.
  assert (Hout : outcome = fst (compressVideo fs transcoder inputPath outputPath quality))
    by now rewrite E.
  clear E.
  assert (M : files fs !! inputPath = None ->
              compressVideo fs transcoder inputPath outputPath quality
              = (failure ("Input file not found: " +:+ inputPath), fs)).
  { intros Hin. unfold compressVideo, Fs.existsSync. now rewrite Hin. }
  split; [| split; [| split; [discriminate |]]].
  3:{ intros _ Hin. rewrite Hout, Hfs, (M Hin). split; reflexivity. }
  all: subst fs'; clear Hout M outcome.
  all: unfold compressVideo, Fs.existsSync.
  all: destruct (files fs !! inputPath) as [sz |] eqn:Ein; cbn [negb]; [| reflexivity].
  all: assert (U : forall f q, q <> outputPath ->
            files (if match files f !! outputPath with Some _ => true | None => false end
                   then match Fs.unlinkSync f outputPath with
                        | Some fs' => fs' | None => f end
                   else f) !! q = files f !! q)
    by (intros f q Hq; unfold Fs.unlinkSync;
        destruct (files f !! outputPath); [| reflexivity];
        destruct (bool_decide _); [reflexivity |]; cbn; now apply lookup_delete_ne).
  all: assert (L : forall f,
            locked (if match files f !! outputPath with Some _ => true | None => false end
                    then match Fs.unlinkSync f outputPath with
                         | Some fs' => fs' | None => f end
                    else f) = locked f)
    by (intros f; unfold Fs.unlinkSync;
        destruct (files f !! outputPath); [| reflexivity];
        destruct (bool_decide _); reflexivity).
  all: destruct (transcoder inputPath outputPath quality) as [w | m w].
  - intros q Hq.
    destruct (Fs.statSize _ _); [destruct (_ <? _) |]; cbn [snd];
      now apply after_run_other.
  - intros q Hq. cbn [snd]. rewrite U by exact Hq. now apply after_run_other.
  - destruct (Fs.statSize _ _); [destruct (_ <? _) |]; cbn [snd];
      apply after_run_locked.
  - cbn [snd]. rewrite L. apply after_run_locked.
Qed.

(** X12. When the transcoder ends normally but leaves fewer than 1024 bytes,
    the quality is reported failed with [Output file too small], and, unlike
    after a transcoder error, no removal is attempted: the undersized file
    stays at the output path. *)
Theorem X12_undersized_output_is_kept (fs : FileSystem)
    (transcoder : string -> string -> string -> TranscoderRun)
    (inputPath outputPath quality : string) (size : Z) :
  Fs.existsSync fs inputPath = true ->
  transcoder inputPath outputPath quality = RunEnd (Some size) ->
  size < 1024 ->
  let '(outcome, fs') := compressVideo fs transcoder inputPath outputPath quality in
  co_success outcome = false /\ co_error outcome = Some "Output file too small" /\
  files fs' !! outputPath = Some size.
Proof.
  intros Hin Hrun Hsmall. unfold compressVideo. rewrite Hin, Hrun. cbn [negb after_run].
  assert (E : Fs.statSize (Fs.write fs outputPath size) outputPath = Some size).
  { unfold Fs.statSize, Fs.write. cbn. apply lookup_insert_eq. }
  rewrite E. destruct (Z.ltb_spec size 1024); [| lia].
  repeat split. exact E.
Qed.

End TranscodeFrame.

Lemma X12_undersized_output_is_kept_witness :
  let '(outcome, fs') :=
    Ffmpeg.compressVideo SampleTranscode.plain_fs (fun _ _ _ => RunEnd (Some 512))
      SampleTranscode.input SampleTranscode.output "240p" in
  co_success outcome = false /\ co_error outcome = Some "Output file too small" /\
  files fs' !! SampleTranscode.output = Some 512.
Proof.
  apply (X12_undersized_output_is_kept SampleTranscode.plain_fs
           (fun _ _ _ => RunEnd (Some 512))
           SampleTranscode.input SampleTranscode.output "240p" 512);
    [reflexivity | reflexivity | lia].
Defined.


(** ** Webhook delivery *)

Section Delivery.
Import Webhook.

Lemma send_attempts_trace endpoint payload (k : nat) :
  forall lastError sent r sent',
  send_attempts endpoint k lastError payload sent = (r, sent') ->
  exists n : nat,
    (n <= k)%nat /\ sent' = sent ++ replicate n payload /\
    (forall i : nat, (S i < n)%nat ->
       wr_success (sendWebhookOnce (endpoint (length sent + i)%nat payload)) = false) /\
    ((wr_success r = true /\ (1 <= n)%nat /\
      r = sendWebhookOnce (endpoint (length sent + n - 1)%nat payload))
     \/ (wr_success r = false /\ n = k /\
         forall i : nat, (i < k)%nat ->
           wr_success (sendWebhookOnce (endpoint (length sent + i)%nat payload)) = false)).
Proof.
  induction k as [| k IH]; intros lastError sent r sent' E.
  - cbn [send_attempts] in E. injection E as <- <-.
    exists 0%nat. split; [lia |]. split; [now rewrite app_nil_r |].
    split; [intros i Hi; lia |].
    right. split; [reflexivity |]. split; [reflexivity |]. intros i Hi; lia.
  - cbn [send_attempts] in E.
    destruct (wr_success (sendWebhookOnce (endpoint (length sent) payload))) eqn:Ok.
    + injection E as <- <-. exists 1%nat.
      split; [lia |]. split; [reflexivity |]. split; [intros i Hi; lia |].
      left. split; [exact Ok |]. split; [lia |].
      now replace (length sent + 1 - 1)%nat with (length sent) by lia.
    + destruct (IH _ _ _ _ E) as (n & Hn & Hs & Hfail & Hend).
      rewrite length_app in Hfail, Hend. cbn [length] in Hfail, Hend.
      exists (S n). split; [lia |]. split.
      { rewrite Hs, <- app_assoc. reflexivity. }
      split.
      { intros [| i] Hi.
        - now rewrite Nat.add_0_r.
        - replace (length sent + S i)%nat with (length sent + 1 + i)%nat by lia.
          apply Hfail. lia. }
      destruct Hend as [(H1 & H2 & H3) | (H1 & H2 & H3)]; [left | right].
      * split; [exact H1 |]. split; [lia |].
        now replace (length sent + S n - 1)%nat
          with (length sent + 1 + n - 1)%nat by lia.
      * split; [exact H1 |]. split; [lia |].
        intros [| i] Hi.
        -- now rewrite Nat.add_0_r.
        -- replace (length sent + S i)%nat with (length sent + 1 + i)%nat by lia.
           apply H3. lia.
Qed.

(** X13. With an endpoint configured, a webhook is posted at least once and
    at most three times, each time with the same payload, and the throttler
    is left alone.  Every attempt but the last one failed; a successful
    delivery stops the retries and is the response returned; a failed
    delivery means that all three attempts failed. *)
Theorem X13_webhook_attempts (cfg : Config)
    (endpoint : nat -> WebhookPayload -> HttpReply)
    (payload : WebhookPayload) (st : WebhookState) :
  wordpress_webhook_url cfg <> "" ->
  let '(r, st') := sendWebhook cfg endpoint payload st in
  let attempt (i : nat) := sendWebhookOnce (endpoint (length (posts st) + i)%nat payload) in
  exists n : nat,
    (1 <= n <= 3)%nat /\
    posts st' = posts st ++ replicate n payload /\
    throttler st' = throttler st /\
    (forall i : nat, (S i < n)%nat -> wr_success (attempt i) = false) /\
    (wr_success r = true -> r = attempt (n - 1)%nat) /\
    (wr_success r = false ->
       n = 3%nat /\ forall i : nat, (i < 3)%nat -> wr_success (attempt i) = false).
Proof.
  intros Hurl. unfold sendWebhook.
  destruct (wordpress_webhook_url cfg) eqn:E; [congruence |].
  cbn [Text.is_empty].
  destruct (send_attempts endpoint WEBHOOK_MAX_RETRIES None payload (posts st))
    as [r sent] eqn:Es.
  destruct (send_attempts_trace _ _ _ _ _ _ _ Es) as (n & Hn & Hsent & Hfail & Hend).
  unfold WEBHOOK_MAX_RETRIES in *.
  exists n. cbn [posts throttler].
  assert (H1 : (1 <= n)%nat) by (destruct Hend as [(_ & ? & _) | (_ & ? & _)]; lia).
  split; [lia |]. split; [exact Hsent |]. split; [reflexivity |].
  split; [exact Hfail |]. split.
  - intros Hr. destruct Hend as [(_ & _ & ->) | (Hf & _)]; [| congruence].
    now replace (length (posts st) + n - 1)%nat
      with (length (posts st) + (n - 1))%nat by lia.
  - intros Hr. destruct Hend as [(Ht & _) | (_ & Hk & H)]; [congruence |].
    split; [exact Hk | exact H].
Qed.

Lemma sendWebhook_posts cfg endpoint payload st :
  exists r (n : nat),
    sendWebhook cfg endpoint payload st
    = (r, {| throttler := throttler st; posts := posts st ++ replicate n payload |})
    /\ (wordpress_webhook_url cfg <> "" -> (1 <= n)%nat).
Proof.
  unfold sendWebhook.
  destruct (wordpress_webhook_url cfg) eqn:E; cbn [Text.is_empty].
  - eexists _, 0%nat. split; [| congruence].
    cbn [replicate]. rewrite app_nil_r. now destruct st.
  - unfold WEBHOOK_MAX_RETRIES.
    destruct (send_attempts_posts endpoint 2 None payload (posts st)) as (r & n & ->).
    exists r, (S n). split; [reflexivity | intros _; lia].
Qed.

(** X14. After a progress update for a job has passed the throttler, a
    further update for the same job that comes within 3000 ms, raises the
    percentage by less than 5 (or lowers it), and is not 100 % is dropped:
    it issues no POST and leaves the throttler as it was.  A repeated 0 % is
    dropped only when the update that passed was not 0 % itself. *)
Theorem X14_update_soon_after_a_send_is_dropped (cfg : Config)
    (endpoint : nat -> WebhookPayload -> HttpReply)
    (now : Z) (j : string) (pid : Z) (status : JobStatus) (p : Z) (stage : string)
    (st : WebhookState)
    (now' : Z) (status' : JobStatus) (p' : Z) (stage' : string) :
  fst (shouldSend (throttler st) now j p) = true ->
  now' - now <= 3000 -> p' - p < 5 -> p' <> 100 -> (p' <> 0 \/ p <> 0) ->
  let st1 := snd (sendProgressUpdate cfg endpoint now j pid status p stage st) in
  sendProgressUpdate cfg endpoint now' j pid status' p' stage' st1
  = ({| wr_success := true; wr_statusCode := None; wr_error := None |}, st1).
Proof.
  intros Hsent Hsoon Hstep H100 H0. cbn zeta.
  destruct (shouldSend (throttler st) now j p) as [ok t1] eqn:Es.
  cbn [fst] in Hsent. subst ok.
  destruct (sendWebhook_posts cfg endpoint (basic_payload j pid status p stage)
              {| throttler := t1; posts := posts st |}) as (r & n & Ew & _).
  assert (E1 : snd (sendProgressUpdate cfg endpoint now j pid status p stage st)
               = {| throttler := t1;
                    posts := posts st ++ replicate n (basic_payload j pid status p stage) |}).
  { unfold sendProgressUpdate. rewrite Es. cbn [negb]. now rewrite Ew. }
  rewrite E1.
  assert (Et : t1 = {| lastProgress := <[j := p]> (lastProgress (throttler st));
                       lastSentTime := <[j := now]> (lastSentTime (throttler st)) |}).
  { unfold shouldSend in Es. destruct (_ || _); [now injection Es as <- | discriminate]. }
  unfold sendProgressUpdate. cbn [throttler posts].
  assert (Ek : shouldSend t1 now' j p' = (false, t1)).
  { unfold shouldSend. rewrite Et. cbn [lastProgress lastSentTime].
    rewrite !lookup_insert_eq.
    assert (Ez : forall x, or_default (default 0 (Some x)) 0 = x).
    { intros x. unfold or_default. cbn. destruct (Z.eqb_spec x 0); congruence. }
    rewrite !Ez.
    destruct (Z.geb_spec (p' - p) 5); [lia |].
    destruct (Z.gtb_spec (now' - now) 3000); [lia |].
    destruct (Z.eqb_spec p' 100); [lia |].
    destruct (Z.eqb_spec p' 0); destruct (Z.eqb_spec p 0); try reflexivity. lia. }
  rewrite Ek. reflexivity.
Qed.

End Delivery.

Lemma X13_webhook_attempts_witness :
  exists n : nat,
    (1 <= n <= 3)%nat /\
    [Webhook.failure_payload "job_42_1700000000000" 42 "Compression failed"]
    = [] ++ replicate n (Webhook.failure_payload "job_42_1700000000000" 42 "Compression failed").
Proof.
  pose proof (X13_webhook_attempts Sample.cfg Sample.ok_endpoint
                (Webhook.failure_payload "job_42_1700000000000" 42 "Compression failed")
                {| throttler := Sample.at_fifty; posts := [] |}) as H.
  destruct (Webhook.sendWebhook _ _ _ _) as [r st'] eqn:E.
  destruct H as (n & Hn & Hp & _); [discriminate |].
  exists n. split; [exact Hn |].
  vm_compute in E. injection E as _ <-. exact Hp.
Defined.

Lemma X14_update_soon_after_a_send_is_dropped_witness :
  let st1 := snd (Webhook.sendProgressUpdate Sample.cfg Sample.ok_endpoint 1700000020000
                    "job_42_1700000000000" 42 processing 75 "hls_conversion"
                    {| throttler := Sample.at_fifty; posts := [] |}) in
  Webhook.sendProgressUpdate Sample.cfg Sample.ok_endpoint 1700000021000
    "job_42_1700000000000" 42 processing 75 "finalizing" st1
  = ({| wr_success := true; wr_statusCode := None; wr_error := None |}, st1).
Proof.
  apply (X14_update_soon_after_a_send_is_dropped Sample.cfg Sample.ok_endpoint
           1700000020000 "job_42_1700000000000" 42 processing 75 "hls_conversion"
           {| throttler := Sample.at_fifty; posts := [] |}
           1700000021000 processing 75 "finalizing");
    [reflexivity | lia | lia | lia | left; lia].
Defined.


(** ** The job handler *)

Section Handler.
Import Worker.









(** The callbacks may take their steps after the handler's last: then
    progress is written after 100 and updates with status [processing] are
    posted after the completion webhook. *)
Lemma callbacks_may_come_last :
  let run :=
    exec SampleDegraded.env (progressCallback SampleDegraded.env SampleDegraded.job)
      (fun n => if (n =? 17)%nat then [0; 1; 2; 0; 1; 2; 0; 1; 2]%nat else []) 0
      (processJob SampleDegraded.env SampleDegraded.job) Sample.fresh in
  progress_updates run.2 = [0; 75; 80; 100; 25; 25; 75] /\
  map (fun w => (wp_status w, wp_stage w)) (posts (webhook run.2))
  = [(processing, "queued"); (processing, "hls_conversion");
     (processing, "thumbnail_compression"); (completed, "complete");
     (completed, "complete"); (processing, "validating"); (processing, "finalizing")].
Proof. vm_compute. split; reflexivity. Qed.

End Handler.



(** ** The result of the HLS conversion *)

Section HlsResult.
Import HlsConverter PlaylistSpec.

Lemma includes_filter (P : string -> bool) (qs : list string) (q : string) :
  includes (filter (fun x => P x = true) qs) q = P q && includes qs q.
Proof.
  induction qs as [| x qs IH]; [now rewrite andb_false_r |].
  rewrite filter_cons. cbn [includes].
  destruct (String.eqb_spec x q) as [-> | Hne].
  - destruct (P q) eqn:Ep.
    + rewrite decide_True by reflexivity. cbn [includes]. now rewrite String.eqb_refl.
    + rewrite decide_False by discriminate. rewrite IH, ?Ep. reflexivity.
  - destruct (P x) eqn:Ep.
    + rewrite decide_True by reflexivity. cbn [includes].
      destruct (String.eqb_spec x q); [contradiction |]. exact IH.
    + rewrite decide_False by discriminate. exact IH.
Qed.

(** The playlist is written to [master.m3u8] in the HLS directory. *)
Lemma composed_master_path (fs : FileSystem) (ffprobe : string -> FfprobeOutcome)
    (hlsDir : string) (conv : gmap string ConvertedQuality) :
  mp_success (HlsConverter.generateMasterPlaylist fs ffprobe hlsDir conv) = true ->
  mp_path (HlsConverter.generateMasterPlaylist fs ffprobe hlsDir conv)
  = Some (hlsDir +:+ "/master.m3u8").
Proof.
  unfold HlsConverter.generateMasterPlaylist.
  destruct (fold_left _ _ _); [reflexivity | discriminate].
Qed.

(** When the directory can be created and the playlist written, the
    conversion is the one of [HlsConverter]. *)
Lemma hls_io_agrees (mkdirSync : string -> option string)
    (writeFileSync : string -> string -> option string)
    (fs : FileSystem) (ffprobe : string -> FfprobeOutcome)
    (convertToHLS : string -> string -> string -> Z -> bool -> SegmentResult)
    (cfg : Config) (paths : VideoPaths) (postId year month : Z) :
  mkdirSync (path_output_dir paths +:+ "/hls") = None ->
  (forall p c, writeFileSync p c = None) ->
  HlsIO.convertToHLSStreaming mkdirSync writeFileSync fs ffprobe convertToHLS cfg paths
    postId year month
  = HlsConverter.convertToHLSStreaming fs ffprobe convertToHLS cfg paths postId year month.
Proof.
  intros Hd Hw.
  unfold HlsIO.convertToHLSStreaming, HlsConverter.convertToHLSStreaming.
  rewrite Hd.
  destruct (converted fs convertToHLS cfg paths) as [conv avail].
  destruct avail as [| a avail]; [reflexivity |].
  assert (E : HlsIO.generateMasterPlaylist writeFileSync fs ffprobe
                (path_output_dir paths +:+ "/hls") conv
              = HlsConverter.generateMasterPlaylist fs ffprobe
                  (path_output_dir paths +:+ "/hls") conv).
  { unfold HlsIO.generateMasterPlaylist.
    destruct (mp_path _); [| reflexivity].
    destruct (mp_content _); [| reflexivity]. now rewrite Hw. }
  cbn zeta. rewrite E. reflexivity.
Qed.

(** X17. The HLS conversion succeeds exactly when the HLS directory is there
    or can be created, at least one of the four qualities could be segmented,
    and the master playlist could be written.  When creating the directory
    throws, the result is a failure with the error thrown; when no quality
    could be segmented, the failure says so and no master playlist is
    written; when writing the master playlist throws, the failure is
    [Failed to generate master playlist:] followed by the error, although
    qualities were segmented.  A successful result reports exactly the
    segmented qualities, in the order 480p, 360p, 240p, 144p; it carries the
    URL of the master playlist and, for each quality, the URL of its playlist
    when the quality was segmented and no URL when it was not; the segment
    duration reported lies between 2 and 3. *)
Theorem X17_hls_result_lists_the_segmented_qualities
    (mkdirSync : string -> option string)
    (writeFileSync : string -> string -> option string)
    (fs : FileSystem) (ffprobe : string -> FfprobeOutcome)
    (convertToHLS : string -> string -> string -> Z -> bool -> SegmentResult)
    (cfg : Config) (paths : VideoPaths) (postId year month : Z) :
  let '(r, written) :=
    HlsIO.convertToHLSStreaming mkdirSync writeFileSync fs ffprobe convertToHLS cfg paths
      postId year month in
  let hlsDir := path_output_dir paths +:+ "/hls" in
  let ok := segmented fs convertToHLS cfg paths in
  let done := filter (fun q => ok q = true) ["480p"; "360p"; "240p"; "144p"] in
  let content := master fs ffprobe convertToHLS cfg paths in
  let wrote := writeFileSync (hlsDir +:+ "/master.m3u8") content in
  let url q :=
    if ok q then Some (buildHLSUrl cfg postId year month (q +:+ ".m3u8")) else None in
  (hc_success r = true <-> mkdirSync hlsDir = None /\ done <> [] /\ wrote = None) /\
  (forall m, mkdirSync hlsDir = Some m -> r = hls_failure m /\ written = None) /\
  (mkdirSync hlsDir = None -> done = [] ->
     r = hls_failure "No quality levels were successfully converted to HLS" /\
     written = None) /\
  (forall m, mkdirSync hlsDir = None -> done <> [] -> wrote = Some m ->
     r = hls_failure ("Failed to generate master playlist: " +:+ m)) /\
  (hc_success r = true ->
     hc_error r = None /\ hc_qualities r = Some done /\
     written = Some content /\
     hc_hls_master_url r = Some (buildHLSUrl cfg postId year month "master.m3u8") /\
     hc_hls_urls r =
       Some {| hls_master := buildHLSUrl cfg postId year month "master.m3u8";
               hls_480p := url "480p"; hls_360p := url "360p";
               hls_240p := url "240p"; hls_144p := url "144p" |} /\
     exists d, hc_segment_duration r = Some d /\ 2 <= d <= 3).
Proof.
  unfold HlsIO.convertToHLSStreaming.
  destruct (mkdirSync (path_output_dir paths +:+ "/hls")) as [dm |] eqn:Ed.
  { cbn zeta. split; [split; [discriminate | intros [? _]; discriminate] |].
    split; [intros m [= <-]; split; reflexivity |].
    split; [discriminate |]. split; [discriminate | discriminate]. }
  pose proof (generated_master fs ffprobe convertToHLS cfg paths) as [Hc Hok].
  pose proof (composed_master_path fs ffprobe (path_output_dir paths +:+ "/hls")
                (converted fs convertToHLS cfg paths).1 Hok) as Hp.
  pose proof (available_fold fs convertToHLS cfg paths qualities ∅ []) as Hav.
  fold (converted fs convertToHLS cfg paths) in Hav.
  destruct (converted fs convertToHLS cfg paths) as [conv avail].
  cbn [fst snd] in Hc, Hok, Hp, Hav. rewrite app_nil_l in Hav.
  change qualities with ["480p"; "360p"; "240p"; "144p"] in Hav.
  destruct avail as [| a avail].
  - cbn zeta. rewrite <- Hav.
    split; [split; [discriminate | intros (_ & N & _); congruence] |].
    split; [discriminate |]. split; [split; reflexivity |].
    split; [intros m _ N; congruence | discriminate].
  - unfold HlsIO.generateMasterPlaylist. rewrite Hp, Hc.
    destruct (writeFileSync _ _) as [wm |] eqn:Ew.
    + cbn [mp_success negb mp_error default]. cbn zeta. rewrite ?Ew, <- Hav.
      split; [split; [discriminate | intros (_ & _ & N); discriminate] |].
      split; [discriminate |]. split; [discriminate |].
      split; [intros m _ _ [= <-]; reflexivity | discriminate].
    + rewrite Hok. cbn [negb]. cbn zeta. rewrite ?Ew, <- Hav.
      split; [split; [intros _; repeat split; discriminate | reflexivity] |].
      split; [discriminate |]. split; [discriminate |].
      split; [discriminate |]. intros _.
      split; [reflexivity |]. split; [reflexivity |]. split; [exact Hc |].
      split; [reflexivity |]. split.
      * cbn [hc_hls_urls]. rewrite Hav. rewrite !includes_filter.
        cbn [includes String.eqb Ascii.eqb Bool.eqb orb].
        rewrite !andb_true_r. reflexivity.
      * eexists. split; [reflexivity |].
        unfold getHlsSegmentDuration. lia.
Qed.

End HlsResult.

(** ** Several ranges in one header *)

Section MultiRange.
Import Text ContentRoute.

Lemma match_range_first (g1 g2 t : string) :
  all_digits g1 = true -> all_digits g2 = true -> no_leading_digit t = true ->
  match_range ("bytes=" +:+ g1 +:+ "-" +:+ g2 +:+ t) = Some (g1, g2).
Proof.
  intros H1 H2 Ht. apply match_range_hit. unfold match_range_here.
  rewrite startsWith_app.
  change 6%nat with (String.length "bytes="). rewrite drop_app.
  rewrite take_digits_app by (assumption || reflexivity).
  rewrite str_app_cons, str_app_nil.
  now rewrite take_digits_app by assumption.
Qed.

(** X27. Only the first range of a Range header is served.  Text that
    follows the first range and does not begin with a digit, such as a comma
    and further ranges, changes nothing: the response is the one for the
    first range alone, a single-part 206 or a 416. *)
Theorem X27_only_the_first_range_is_served (ext : string) (size a b : Z) (rest : string) :
  0 <= a -> 0 <= b -> no_leading_digit rest = true ->
  GET_file ext size (Some (range_explicit a b +:+ rest))
  = GET_file ext size (Some (range_explicit a b)).
Proof.
  intros Ha Hb Hrest.
  assert (E : parseRangeHeader (range_explicit a b +:+ rest) size
              = parseRangeHeader (range_explicit a b) size).
  { rewrite parseRange_explicit by assumption.
    unfold parseRangeHeader, range_explicit.
    rewrite !Z_to_string_nonneg by assumption.
    rewrite !str_app_assoc.
    rewrite match_range_first by (apply dec_digits || assumption).
    rewrite !is_empty_dec. cbn [negb andb].
    unfold parseInt. rewrite !parse_dec. now rewrite !Z2N.id. }
  assert (N1 : is_empty (range_explicit a b +:+ rest) = false).
  { unfold range_explicit. rewrite !str_app_assoc.
    change "bytes=" with (String "b" "ytes="). apply range_header_nonempty. }
  assert (N2 : is_empty (range_explicit a b) = false).
  { unfold range_explicit.
    change "bytes=" with (String "b" "ytes="). apply range_header_nonempty. }
  unfold GET_file. rewrite N1, N2. cbn [negb andb].
  destruct (includes STREAMABLE_EXTENSIONS ext); [| reflexivity].
  now rewrite E.
Qed.

End MultiRange.

Lemma X27_only_the_first_range_is_served_witness :
  ContentRoute.GET_file ".mp4" 1000
    (Some (ContentRoute.range_explicit 0 99 +:+ ",200-299"))
  = ContentRoute.GET_file ".mp4" 1000 (Some (ContentRoute.range_explicit 0 99)).
Proof.
  apply (X27_only_the_first_range_is_served ".mp4" 1000 0 99 ",200-299");
    [lia | lia | reflexivity].
Defined.

(** ** Progress reported while transcoding *)

Section Milestones.
Import CompressJob.

Lemma round_share (percent : Z) :
  Num.Math_round ((inject_Z percent / 100) * inject_Z progressPerQuality)%Q
  = (6 * percent + 25) / 50.
Proof.
  unfold Num.Math_round, progressPerQuality, Qfloor, Qplus, Qmult, Qdiv, Qinv, inject_Z.
  simpl.
  change (Z.pos (1 * 100 * 1 * 2)) with (4 * 50).
  change (Z.pos (1 * 100 * 1)) with 100.
  replace (percent * 1 * 12 * 2 + 1 * 100) with (4 * (6 * percent + 25)) by lia.
  apply Z.div_mul_cancel_l; lia.
Qed.

(** X18. While a quality is transcoded with the transcoder reporting between
    0 and 100 percent, the progress passed on is 25 for 480p and for 360p,
    25 for 240p up to 4 percent and 50 from 5 percent on, and 50 for 144p.
    So it never falls back below 25, never reaches 75, and never decreases
    from one quality to the next or within a quality.  The table
    [PROGRESS_STAGES] lists 25 for 480p as well, but 50 for 360p and 75 for
    144p, which are not what is passed on. *)
Theorem X18_transcoding_milestones (qualityIndex : nat) (percent : Z) :
  (qualityIndex < 4)%nat -> 0 <= percent <= 100 ->
  transcode_progress qualityIndex percent =
    match qualityIndex with
    | 0%nat => (25, "compressing_480p")
    | 1%nat => (25, "compressing_360p")
    | 2%nat => (if percent <? 5 then 25 else 50, "compressing_240p")
    | _ => (50, "compressing_144p")
    end
  /\ (forall qualityIndex' percent',
        (qualityIndex <= qualityIndex' < 4)%nat -> percent <= percent' <= 100 ->
        fst (transcode_progress qualityIndex percent)
        <= fst (transcode_progress qualityIndex' percent'))
  /\ transcode_progress 0 percent = PROGRESS_STAGES.COMPRESSING_480P
  /\ transcode_progress 1 percent <> PROGRESS_STAGES.COMPRESSING_360P
  /\ transcode_progress 3 percent <> PROGRESS_STAGES.COMPRESSING_144P.
Proof.
  intros Hq Hp.
  assert (M : forall (q : nat) (p : Z), (q < 4)%nat -> 0 <= p <= 100 ->
            fst (transcode_progress q p)
            = match q with
              | 0%nat | 1%nat => 25
              | 2%nat => if p <? 5 then 25 else 50
              | _ => 50
              end).
  { intros q p Hq' Hp'. unfold transcode_progress, overallProgress. cbn [fst].
    rewrite round_share.
    assert (B : 0 <= (6 * p + 25) / 50 <= 12).
    { split; [apply Z.div_pos; lia |].
      assert ((6 * p + 25) / 50 < 13) by (apply Z.div_lt_upper_bound; lia). lia. }
    assert (B5 : p < 5 -> (6 * p + 25) / 50 = 0).
    { intros H. apply Z.div_small. lia. }
    assert (B6 : 5 <= p -> 1 <= (6 * p + 25) / 50).
    { intros H. apply Z.div_le_lower_bound; lia. }
    unfold milestone, progressPerQuality.
    destruct q as [| [| [| [| q]]]]; try lia;
      repeat match goal with |- context [?a >=? ?b] => destruct (Z.geb_spec a b) end;
      try destruct (Z.ltb_spec p 5); try reflexivity; lia. }
  assert (E : transcode_progress qualityIndex percent
              = (fst (transcode_progress qualityIndex percent),
                 "compressing_" +:+ nth qualityIndex qualities "undefined"))
    by reflexivity.
  split; [| split; [| split; [| split]]].
  - rewrite E, (M _ _ Hq Hp).
    destruct qualityIndex as [| [| [| [| q]]]]; try lia; reflexivity.
  - intros q' p' Hq' Hp'. rewrite (M _ _ Hq Hp), (M q' p') by lia.
    destruct qualityIndex as [| [| [| [| q]]]]; try lia;
      destruct q' as [| [| [| [| q']]]]; try lia;
      repeat match goal with |- context [?a <? 5] => destruct (Z.ltb_spec a 5) end; lia.
  - pose proof (M 0%nat percent ltac:(lia) Hp) as H0.
    unfold transcode_progress in *. cbn [fst] in H0. rewrite H0. reflexivity.
  - pose proof (M 1%nat percent ltac:(lia) Hp) as H1.
    unfold transcode_progress in *. cbn [fst] in H1. rewrite H1. discriminate.
  - pose proof (M 3%nat percent ltac:(lia) Hp) as H3.
    unfold transcode_progress in *. cbn [fst] in H3. rewrite H3. discriminate.
Qed.

End Milestones.

Lemma X18_transcoding_milestones_witness :
  CompressJob.transcode_progress 2 40 = (50, "compressing_240p").
Proof.
  destruct (X18_transcoding_milestones 2 40) as [H _]; [lia | lia |]. exact H.
Defined.

(** ** Restarts and reconnections *)

Section Restarts.
Import Lifecycle.

Lemma restart_delay (n : nat) :
  Z.min (WORKER_RESTART_DELAY_BASE * 2 ^ Z.of_nat (Nat.min (S n) 4)) WORKER_RESTART_DELAY_MAX
  = if (n <? 3)%nat then 10000 * 2 ^ Z.of_nat n else 60000.
Proof.
  unfold WORKER_RESTART_DELAY_BASE, WORKER_RESTART_DELAY_MAX.
  destruct n as [| [| [| n]]]; try reflexivity.
  replace (Nat.min (S (S (S (S n)))) 4) with 4%nat by lia. reflexivity.
Qed.

Lemma schedule_idle (s : State) :
  isShuttingDown s = false -> isRestartScheduled s = false -> isRestarting s = false ->
  scheduleWorkerRestart s
  = ({| isShuttingDown := false; isRestartScheduled := true; isRestarting := false;
        restartAttempts := S (restartAttempts s) |},
     Timer (if (restartAttempts s <? 3)%nat
            then 10000 * 2 ^ Z.of_nat (restartAttempts s) else 60000)).
Proof.
  intros H1 H2 H3. unfold scheduleWorkerRestart, calculateRestartDelay.
  rewrite H1, H2, H3. cbn [orb andb restartAttempts].
  change (WORKER_MAX_RESTART_ATTEMPTS >? 0) with false. cbn [andb].
  now rewrite restart_delay.
Qed.

Lemma later_restarts_delays (n : nat) :
  forall a : nat,
  later_restarts n {| isShuttingDown := false; isRestartScheduled := true;
                      isRestarting := false; restartAttempts := a |}
  = map (fun k : nat => if (a + k <? 3)%nat then 10000 * 2 ^ Z.of_nat (a + k) else 60000)
        (seq 0 n).
Proof.
  induction n as [| n IH]; intros a; [reflexivity |].
  cbn [later_restarts]. unfold restart_timer_fires. cbn [isShuttingDown restartAttempts].
  rewrite schedule_idle by reflexivity. cbn [restartAttempts].
  rewrite IH. cbn [seq map]. rewrite Nat.add_0_r. f_equal.
  rewrite <- seq_shift, map_map. apply map_ext. intros k.
  now replace (S a + k)%nat with (a + S k)%nat by lia.
Qed.

(** X19. A restart requested while the worker is neither shutting down nor
    already restarting is always scheduled, never refused for too many
    attempts.  If it fails to start the worker, and so do the restarts that
    follow, the waits are 10, 20 and 40 seconds and 60 seconds from then on,
    counted from the last successful start: the base delay of 5 seconds is
    never used, because the attempt counter is incremented before the delay
    is computed. *)
Theorem X19_restart_backoff (n : nat) (s : State) :
  isShuttingDown s = false -> isRestartScheduled s = false -> isRestarting s = false ->
  failing_restarts n s
  = map (fun k : nat =>
           if (restartAttempts s + k <? 3)%nat
           then 10000 * 2 ^ Z.of_nat (restartAttempts s + k) else 60000)
        (seq 0 (S n))
  /\ Forall (fun d => 10000 <= d <= 60000) (failing_restarts n s)
  /\ (restartAttempts s = 0%nat ->
      firstn 5 (failing_restarts n s) = firstn (S n) [10000; 20000; 40000; 60000; 60000]).
Proof.
  intros H1 H2 H3.
  assert (E : failing_restarts n s
              = map (fun k : nat =>
                       if (restartAttempts s + k <? 3)%nat
                       then 10000 * 2 ^ Z.of_nat (restartAttempts s + k) else 60000)
                    (seq 0 (S n))).
  { unfold failing_restarts. rewrite schedule_idle by assumption.
    rewrite later_restarts_delays. cbn [seq map]. rewrite Nat.add_0_r. f_equal.
    rewrite <- seq_shift, map_map. apply map_ext. intros k.
    now replace (S (restartAttempts s) + k)%nat with (restartAttempts s + S k)%nat by lia. }
  split; [exact E |]. split.
  - rewrite E. apply Forall_forall. intros d Hd.
    apply list_elem_of_In, in_map_iff in Hd as (k & <- & _).
    destruct (Nat.ltb_spec (restartAttempts s + k) 3) as [Hk | Hk]; [| lia].
    destruct (restartAttempts s + k)%nat as [| [| [| m]]]; cbn; lia.
  - intros Ha. rewrite E, Ha. cbn [Nat.add].
    destruct n as [| [| [| [| n]]]]; try reflexivity.
    cbn [seq map firstn]. destruct n; reflexivity.
Qed.

(** X20. Requesting a restart twice in a row schedules it once: the second
    request changes nothing and sets no timer.  During a shutdown a request
    changes nothing, and a timer that fires only clears the flag.  A restart
    that starts the worker resets the attempt counter and both flags. *)
Theorem X20_restart_requests_are_guarded (s : State) (started : bool) :
  scheduleWorkerRestart (fst (scheduleWorkerRestart s))
    = (fst (scheduleWorkerRestart s), Skipped)
  /\ snd (scheduleWorkerRestart s) <> Exited
  /\ (isShuttingDown s = true ->
      scheduleWorkerRestart s = (s, Skipped) /\
      snd (restart_timer_fires s started) = Skipped /\
      isRestartScheduled (fst (restart_timer_fires s started)) = false /\
      restartAttempts (fst (restart_timer_fires s started)) = restartAttempts s)
  /\ (isShuttingDown s = false ->
      restart_timer_fires s true
      = ({| isShuttingDown := false; isRestartScheduled := false;
            isRestarting := false; restartAttempts := 0 |}, Skipped)).
Proof.
  unfold restart_timer_fires, scheduleWorkerRestart.
  change (WORKER_MAX_RESTART_ATTEMPTS >? 0) with false. cbn [andb].
  destruct s as [[] [] [] a]; cbn; repeat split; try discriminate; intros; discriminate.
Qed.

(** X21. The delay before the n-th reconnection to Redis, n counted from 1,
    is 1000 ms doubled n - 1 times, capped at 30000 ms: 1, 2, 4, 8 and 16
    seconds, then 30 seconds for every later attempt.  It is always a
    positive number, so the client never stops reconnecting. *)
Theorem X21_redis_reconnection_delay (times : Z) :
  1 <= times ->
  Redis.createResilientRetryStrategy times
    = (if times <=? 5 then 1000 * 2 ^ (times - 1) else 30000)
  /\ 1000 <= Redis.createResilientRetryStrategy times <= 30000
  /\ Redis.createResilientRetryStrategy times
     <= Redis.createResilientRetryStrategy (times + 1).
Proof.
  intros H.
  assert (E : forall t, 1 <= t ->
              Redis.createResilientRetryStrategy t
              = if t <=? 5 then 1000 * 2 ^ (t - 1) else 30000).
  { intros t Ht. unfold Redis.createResilientRetryStrategy,
      Redis.BASE_RETRY_DELAY, Redis.MAX_RETRY_DELAY.
    destruct (Z.leb_spec t 5) as [H5 | H5].
    - assert (C : t = 1 \/ t = 2 \/ t = 3 \/ t = 4 \/ t = 5) by lia.
      destruct C as [-> | [-> | [-> | [-> | ->]]]]; reflexivity.
    - replace (Z.min (t - 1) 5) with 5 by lia. reflexivity. }
  rewrite (E times H), (E (times + 1)) by lia.
  destruct (Z.leb_spec times 5) as [H5 | H5].
  - assert (C : times = 1 \/ times = 2 \/ times = 3 \/ times = 4 \/ times = 5) by lia.
    destruct C as [-> | [-> | [-> | [-> | ->]]]];
      (split; [reflexivity |]; split;
       [split; apply Z.leb_le; reflexivity | apply Z.leb_le; reflexivity]).
  - destruct (Z.leb_spec (times + 1) 5); [lia |]. repeat split; lia.
Qed.

End Restarts.

Lemma X19_restart_backoff_witness :
  Lifecycle.failing_restarts 5
    {| Lifecycle.isShuttingDown := false; Lifecycle.isRestartScheduled := false;
       Lifecycle.isRestarting := false; Lifecycle.restartAttempts := 0 |}
  = map (fun k : nat =>
           if (0 + k <? 3)%nat then 10000 * 2 ^ Z.of_nat (0 + k) else 60000)
        (seq 0 6).
Proof.
  destruct (X19_restart_backoff 5
              {| Lifecycle.isShuttingDown := false; Lifecycle.isRestartScheduled := false;
                 Lifecycle.isRestarting := false; Lifecycle.restartAttempts := 0 |})
    as [H _]; [reflexivity | reflexivity | reflexivity |]. exact H.
Defined.

Lemma X21_redis_reconnection_delay_witness :
  Redis.createResilientRetryStrategy 3 = 4000.
Proof.
  destruct (X21_redis_reconnection_delay 3) as [H _]; [lia |]. exact H.
Defined.

(** ** Rate limiting *)

Section RateLimit.
Import Middleware.

Lemma rate_limit_in_window (m : gmap string RateLimitData) (ip : string) (now : Z)
    (d : RateLimitData) :
  m !! ip = Some d -> now - windowStart d <= 60000 -> 1 <= count d ->
  rate_limit m ip now =
    if count d <? 100
    then (Pass (100 - (count d + 1)),
          <[ip := {| count := count d + 1; windowStart := windowStart d |}]> m)
    else (TooManyRequests (ceil_div (60000 - (now - windowStart d)) 1000)
            (ceil_div (windowStart d + 60000) 1000), m).
Proof.
  intros Hm Hw Hc. unfold rate_limit, RATE_LIMIT_WINDOW, RATE_LIMIT_MAX. rewrite Hm.
  change (60 * 1000) with 60000.
  destruct (Z.gtb_spec (now - windowStart d) 60000); [lia |].
  destruct (Z.geb_spec (count d) 100); destruct (Z.ltb_spec (count d) 100); try lia;
    [reflexivity |].
  rewrite lookup_insert_eq. cbn. unfold or_default.
  destruct (Z.eqb_spec (count d + 1) 0); [lia |].
  f_equal. f_equal. lia.
Qed.

Lemma rate_limit_new_window (m : gmap string RateLimitData) (ip : string) (now : Z) :
  match m !! ip with
  | Some d => 60000 < now - windowStart d
  | None => True
  end ->
  rate_limit m ip now = (Pass 99, <[ip := {| count := 1; windowStart := now |}]> m).
Proof.
  intros H. unfold rate_limit, RATE_LIMIT_WINDOW, RATE_LIMIT_MAX.
  change (60 * 1000) with 60000.
  destruct (m !! ip) as [d |].
  - destruct (Z.gtb_spec (now - windowStart d) 60000); [| lia].
    rewrite lookup_insert_eq. reflexivity.
  - rewrite lookup_insert_eq. reflexivity.
Qed.

Lemma serve_in_window (times : list Z) :
  forall (m : gmap string RateLimitData) (ip : string) (d : RateLimitData),
  m !! ip = Some d -> 1 <= count d <= 100 ->
  Forall (fun t => t - windowStart d <= 60000) times ->
  map passed (serve m ip times)
  = map (fun i : nat => Z.of_nat i <? 100 - count d) (seq 0 (length times)).
Proof.
  induction times as [| t times IH]; intros m ip d Hm Hc Hw; [reflexivity |].
  apply Forall_cons in Hw as [Ht Hw].
  cbn [serve length seq map].
  rewrite (rate_limit_in_window m ip t d Hm Ht) by lia.
  destruct (Z.ltb_spec (count d) 100) as [Hlt | Hge].
  - cbn [map passed]. f_equal; [symmetry; apply Z.ltb_lt; lia |].
    rewrite (IH _ ip {| count := count d + 1; windowStart := windowStart d |});
      [| apply lookup_insert_eq | cbn; lia | exact Hw].
    rewrite <- seq_shift, map_map. apply map_ext. intros i. cbn [count].
    destruct (Z.ltb_spec (Z.of_nat i) (100 - (count d + 1)));
      destruct (Z.ltb_spec (Z.of_nat (S i)) (100 - count d)); try reflexivity; lia.
  - cbn [map passed]. f_equal; [symmetry; apply Z.ltb_ge; lia |].
    rewrite (IH _ ip d Hm Hc Hw).
    rewrite <- seq_shift, map_map. apply map_ext. intros i.
    destruct (Z.ltb_spec (Z.of_nat i) (100 - count d));
      destruct (Z.ltb_spec (Z.of_nat (S i)) (100 - count d)); try reflexivity; lia.
Qed.

(** X22. Of the requests a client makes within 60 seconds of its first
    request, exactly the first 100 pass, each announcing how many requests
    remain, and every further one is answered 429.  The client is one the
    limiter has no entry for, or one whose window began more than 60 seconds
    before the first request. *)
Theorem X22_hundred_requests_per_window (m : gmap string RateLimitData)
    (ip : string) (first : Z) (later : list Z) :
  match m !! ip with
  | Some d => 60000 < first - windowStart d
  | None => True
  end ->
  Forall (fun t => t - first <= 60000) later ->
  map passed (serve m ip (first :: later))
  = map (fun i : nat => (i <? 100)%nat) (seq 0 (S (length later)))
  /\ firstn 100 (serve m ip (first :: later))
     = map (fun i : nat => Pass (99 - Z.of_nat i)) (seq 0 (Nat.min 100 (S (length later)))).
Proof.
  intros Hnew Hw. cbn [serve]. rewrite (rate_limit_new_window m ip first Hnew).
  set (m1 := <[ip := {| count := 1; windowStart := first |}]> m).
  assert (Hm1 : m1 !! ip = Some {| count := 1; windowStart := first |})
    by apply lookup_insert_eq.
  split.
  - cbn [map passed seq]. f_equal.
    rewrite (serve_in_window later m1 ip _ Hm1); [| cbn; lia | exact Hw].
    rewrite <- seq_shift, map_map. apply map_ext. intros i. cbn [count].
    destruct (Z.ltb_spec (Z.of_nat i) (100 - 1)); destruct (Nat.ltb_spec (S i) 100);
      try reflexivity; lia.
  - assert (G : forall (times : list Z) (mm : gmap string RateLimitData) (c : Z) (k : nat),
              mm !! ip = Some {| count := c; windowStart := first |} ->
              1 <= c -> c + Z.of_nat k = 100 ->
              Forall (fun t => t - first <= 60000) times ->
              firstn k (serve mm ip times)
              = map (fun i : nat => Pass (99 - c - Z.of_nat i))
                    (seq 0 (Nat.min k (length times)))).
    { induction times as [| t times IH]; intros mm c k Hmm Hc Hk Hall.
      - rewrite Nat.min_0_r. now destruct k.
      - apply Forall_cons in Hall as [Ht Hall].
        destruct k as [| k]; [reflexivity |].
        cbn [serve]. rewrite (rate_limit_in_window mm ip t _ Hmm) by (cbn; lia).
        cbn [count windowStart].
        destruct (Z.ltb_spec c 100); [| lia].
        cbn [firstn length Nat.min seq map]. f_equal; [f_equal; lia |].
        rewrite (IH _ (c + 1) k); [| apply lookup_insert_eq | lia | lia | exact Hall].
        rewrite <- seq_shift, map_map. apply map_ext. intros i. f_equal. lia. }
    change 100%nat with (S 99) at 1. cbn [firstn length Nat.min seq map].
    change (Nat.min 100 (S (length later))) with (S (Nat.min 99 (length later))).
    cbn [seq map]. f_equal.
    rewrite (G later m1 1 99%nat Hm1); [| lia | lia | exact Hw].
    rewrite <- seq_shift, map_map. apply map_ext. intros i. f_equal. lia.
Qed.

(** X23. A client that has used up its window is refused as long as no more
    than 60 seconds have passed since the window began, with a Retry-After
    between 0 and 60 seconds when the clock has not gone back; at exactly 60
    seconds it is still refused, with Retry-After 0.  Once more than 60
    seconds have passed its next request passes and begins a new window.
    Neither answer touches the entry of another client, and no entry is ever
    removed. *)
Theorem X23_window_expiry (m : gmap string RateLimitData) (ip : string) (now : Z)
    (d : RateLimitData) :
  m !! ip = Some d -> 100 <= count d ->
  (now - windowStart d <= 60000 ->
     exists retryAfter reset,
       rate_limit m ip now = (TooManyRequests retryAfter reset, m) /\
       (windowStart d <= now -> 0 <= retryAfter <= 60) /\
       (now - windowStart d = 60000 -> retryAfter = 0))
  /\ (60000 < now - windowStart d ->
        rate_limit m ip now = (Pass 99, <[ip := {| count := 1; windowStart := now |}]> m))
  /\ (forall other, other <> ip ->
        snd (rate_limit m ip now) !! other = m !! other)
  /\ (forall client, is_Some (m !! client) ->
        is_Some (snd (rate_limit m ip now) !! client)).
Proof.
  intros Hm Hc.
  assert (Hin : now - windowStart d <= 60000 ->
                rate_limit m ip now
                = (TooManyRequests (ceil_div (60000 - (now - windowStart d)) 1000)
                     (ceil_div (windowStart d + 60000) 1000), m)).
  { intros Hw. rewrite (rate_limit_in_window m ip now d Hm Hw) by lia.
    destruct (Z.ltb_spec (count d) 100); [lia | reflexivity]. }
  assert (Hout : 60000 < now - windowStart d ->
                 rate_limit m ip now
                 = (Pass 99, <[ip := {| count := 1; windowStart := now |}]> m)).
  { intros Hw. apply rate_limit_new_window. now rewrite Hm. }
  split; [| split; [exact Hout | split]].
  - intros Hw. eexists _, _. split; [exact (Hin Hw) |]. unfold ceil_div. split.
    + intros Hnow.
      assert (- 60 <= - (60000 - (now - windowStart d)) / 1000)
        by (apply Z.div_le_lower_bound; lia).
      assert (- (60000 - (now - windowStart d)) / 1000 <= 0)
        by (apply Z.div_le_upper_bound; lia).
      lia.
    + intros ->. reflexivity.
  - intros other Hne.
    destruct (Z.le_gt_cases (now - windowStart d) 60000) as [Hw | Hw].
    + now rewrite (Hin Hw).
    + rewrite (Hout ltac:(lia)). cbn [snd]. now apply lookup_insert_ne.
  - intros client Hcl.
    destruct (Z.le_gt_cases (now - windowStart d) 60000) as [Hw | Hw].
    + now rewrite (Hin Hw).
    + rewrite (Hout ltac:(lia)). cbn [snd].
      destruct (decide (client = ip)) as [-> | Hne].
      * rewrite lookup_insert_eq. eauto.
      * now rewrite lookup_insert_ne by congruence.
Qed.

End RateLimit.

Lemma X22_hundred_requests_per_window_witness :
  map Middleware.passed
    (Middleware.serve ∅ "203.0.113.7" (1700000000000 :: replicate 120 1700000030000))
  = map (fun i : nat => (i <? 100)%nat) (seq 0 (S (length (replicate 120 1700000030000)))).
Proof.
  destruct (X22_hundred_requests_per_window ∅ "203.0.113.7" 1700000000000
              (replicate 120 1700000030000)) as [H _].
  - rewrite lookup_empty. exact I.
  - apply Forall_forall. intros t Ht. apply elem_of_replicate in Ht as [-> _]. lia.
  - exact H.
Defined.

Lemma X23_window_expiry_witness :
  Middleware.rate_limit {[ "203.0.113.7" := {| count := 100; windowStart := 1700000000000 |} ]}
    "203.0.113.7" 1700000060001
  = (Pass 99,
     <["203.0.113.7" := {| count := 1; windowStart := 1700000060001 |}]>
       {[ "203.0.113.7" := {| count := 100; windowStart := 1700000000000 |} ]}).
Proof.
  destruct (X23_window_expiry
              {[ "203.0.113.7" := {| count := 100; windowStart := 1700000000000 |} ]}
              "203.0.113.7" 1700000060001
              {| count := 100; windowStart := 1700000000000 |})
    as (_ & H & _).
  - apply lookup_singleton_eq.
  - cbn. lia.
  - apply H. cbn. lia.
Defined.

(** ** Helpers *)

Section Helpers.
Import Utils.

Lemma take_length (n : nat) (s : string) :
  String.length (Webhook.take n s) = Nat.min n (String.length s).
Proof.
  revert s. induction n as [| n IH]; intros [| c s]; cbn; try reflexivity.
  now rewrite IH.
Qed.

(** X24. [truncateString] returns a string no longer than [maxLength]
    whenever [maxLength] is at least 3: the string itself when it fits, and
    otherwise its first [maxLength - 3] characters followed by three dots.
    For a smaller [maxLength] a string that does not fit is replaced by the
    three dots alone, which is longer than [maxLength]. *)
Theorem X24_truncated_length (str : string) (maxLength : Z) :
  (Z.of_nat (String.length str) <= maxLength -> truncateString str maxLength = str)
  /\ (3 <= maxLength ->
      Z.of_nat (String.length (truncateString str maxLength)) <= maxLength)
  /\ (maxLength < 3 -> maxLength < Z.of_nat (String.length str) ->
      truncateString str maxLength = "...").
Proof.
  unfold truncateString.
  destruct (Z.leb_spec (Z.of_nat (String.length str)) maxLength) as [Hfit | Hlong].
  - repeat split; intros; try reflexivity; lia.
  - split; [lia |]. split.
    + intros H3. rewrite length_str_app, take_length. cbn [String.length]. lia.
    + intros H3 _. replace (Z.to_nat (maxLength - 3)) with 0%nat by lia.
      now destruct str.
Qed.

Lemma retry_loop_trace {A : Type} (fn : nat -> Outcome A) (maxRetries delay backoff : Z)
    (remaining : nat) :
  forall (attempt : nat) (lastError : option string),
  Z.of_nat (attempt + remaining) = maxRetries ->
  let '(r, sleeps, calls) :=
    retry_loop fn maxRetries delay backoff remaining attempt lastError in
  (attempt <= calls <= attempt + remaining)%nat /\
  (forall i : nat, (attempt <= i)%nat -> (S i < calls)%nat ->
     exists m, fn i = Threw m) /\
  match r with
  | Resolved a =>
      (attempt < calls)%nat /\ fn (calls - 1)%nat = Returned a /\
      sleeps = map (fun i : nat => delay * backoff ^ Z.of_nat i)
                 (seq attempt (calls - 1 - attempt))
  | Rejected e =>
      calls = (attempt + remaining)%nat /\
      (forall i : nat, (attempt <= i < calls)%nat -> exists m, fn i = Threw m) /\
      (remaining = 0%nat -> e = lastError) /\
      ((0 < remaining)%nat -> exists m, fn (calls - 1)%nat = Threw m /\ e = Some m) /\
      sleeps = map (fun i : nat => delay * backoff ^ Z.of_nat i)
                 (seq attempt (remaining - 1))
  end.
Proof.
  induction remaining as [| k IH]; intros attempt lastError Hmax.
  - cbn [retry_loop]. split; [lia |]. split; [intros; lia |].
    split; [lia |]. split; [intros; lia |]. split; [reflexivity |].
    split; [intros; lia | reflexivity].
  - cbn [retry_loop]. destruct (fn attempt) as [a | m] eqn:Ef.
    + split; [lia |]. split; [intros; lia |].
      split; [lia |]. replace (S attempt - 1)%nat with attempt by lia.
      split; [exact Ef |]. now replace (attempt - attempt)%nat with 0%nat by lia.
    + specialize (IH (S attempt) (Some m) ltac:(lia)).
      assert (Step : forall (r : Settled A) (sleeps : list Z) (calls : nat) (w : list Z),
                w = (if (0 <? k)%nat then [delay * backoff ^ Z.of_nat attempt] else []) ->
                ((S attempt <= calls <= S attempt + k)%nat /\
                 (forall i : nat, (S attempt <= i)%nat -> (S i < calls)%nat ->
                    exists m, fn i = Threw m) /\
                 match r with
                 | Resolved a =>
                     (S attempt < calls)%nat /\ fn (calls - 1)%nat = Returned a /\
                     sleeps = map (fun i : nat => delay * backoff ^ Z.of_nat i)
                                (seq (S attempt) (calls - 1 - S attempt))
                 | Rejected e =>
                     calls = (S attempt + k)%nat /\
                     (forall i : nat, (S attempt <= i < calls)%nat ->
                        exists m, fn i = Threw m) /\
                     (k = 0%nat -> e = Some m) /\
                     ((0 < k)%nat -> exists m, fn (calls - 1)%nat = Threw m /\ e = Some m) /\
                     sleeps = map (fun i : nat => delay * backoff ^ Z.of_nat i)
                                (seq (S attempt) (k - 1))
                 end) ->
                (attempt <= calls <= attempt + S k)%nat /\
                (forall i : nat, (attempt <= i)%nat -> (S i < calls)%nat ->
                   exists m, fn i = Threw m) /\
                match r with
                | Resolved a =>
                    (attempt < calls)%nat /\ fn (calls - 1)%nat = Returned a /\
                    w ++ sleeps = map (fun i : nat => delay * backoff ^ Z.of_nat i)
                                    (seq attempt (calls - 1 - attempt))
                | Rejected e =>
                    calls = (attempt + S k)%nat /\
                    (forall i : nat, (attempt <= i < calls)%nat ->
                       exists m, fn i = Threw m) /\
                    (S k = 0%nat -> e = lastError) /\
                    ((0 < S k)%nat ->
                     exists m, fn (calls - 1)%nat = Threw m /\ e = Some m) /\
                    w ++ sleeps = map (fun i : nat => delay * backoff ^ Z.of_nat i)
                                    (seq attempt (S k - 1))
                end).
      { intros r sleeps calls w Hw (Hc & Hthrew & Hr).
        assert (Hall : forall i : nat, (attempt <= i)%nat -> (S i < calls)%nat ->
                         exists m, fn i = Threw m).
        { intros i Hi1 Hi2. destruct (decide (i = attempt)) as [-> | Hne]; [eauto |].
          apply Hthrew; lia. }
        split; [lia |]. split; [exact Hall |].
        destruct r as [a | e].
        - destruct Hr as (H1 & H2 & ->). split; [lia |]. split; [exact H2 |].
          destruct k as [| k]; [lia |]. subst w. cbn [Nat.ltb Nat.leb app].
          replace (calls - 1 - attempt)%nat with (S (calls - 1 - S attempt)) by lia.
          reflexivity.
        - destruct Hr as (-> & H2 & H3 & H4 & ->).
          split; [lia |]. split.
          { intros i Hi. destruct (decide (i = attempt)) as [-> | Hne]; [eauto |].
            apply H2; lia. }
          split; [lia |]. split.
          { intros _. destruct k as [| k].
            - exists m. replace (S attempt + 0 - 1)%nat with attempt by lia.
              split; [exact Ef | now apply H3].
            - apply H4. lia. }
          subst w. destruct k as [| k]; [reflexivity |].
          cbn [Nat.ltb Nat.leb app]. replace (S (S k) - 1)%nat with (S (S k - 1)) by lia.
          reflexivity. }
      destruct (Z.ltb_spec (Z.of_nat attempt) (maxRetries - 1)) as [Hw | Hw].
      * destruct (retry_loop fn maxRetries delay backoff k (S attempt) (Some m))
          as [[r sleeps] calls].
        apply (Step r sleeps calls [delay * backoff ^ Z.of_nat attempt]); [| exact IH].
        destruct k; [lia | reflexivity].
      * destruct (retry_loop fn maxRetries delay backoff k (S attempt) (Some m))
          as [[r sleeps] calls].
        apply (Step r sleeps calls []); [| exact IH].
        destruct k; [reflexivity | lia].
Qed.

(** X25. [retry] calls the function at most [maxRetries] times and stops at
    the first call that returns, resolving with its value; every call before
    it threw.  It rejects exactly when all [maxRetries] calls threw, with the
    error of the last call.  Between two calls, and never after the last one,
    it sleeps [delay] times [backoff] to the power of the number of calls
    made before.  With a [maxRetries] of 0 or less the function is never
    called and the promise rejects with an undefined error. *)
Theorem X25_retry_attempts {A : Type} (fn : nat -> Outcome A)
    (maxRetries delay backoff : Z) :
  let '(r, sleeps, calls) := retry fn maxRetries delay backoff in
  Z.of_nat calls <= Z.max maxRetries 0 /\
  (forall i : nat, (S i < calls)%nat -> exists m, fn i = Threw m) /\
  sleeps = map (fun i : nat => delay * backoff ^ Z.of_nat i) (seq 0 (calls - 1)) /\
  match r with
  | Resolved a => (0 < calls)%nat /\ fn (calls - 1)%nat = Returned a
  | Rejected e =>
      Z.of_nat calls = Z.max maxRetries 0 /\
      (forall i : nat, (i < calls)%nat -> exists m, fn i = Threw m) /\
      (maxRetries <= 0 -> e = None) /\
      (0 < maxRetries -> exists m, fn (calls - 1)%nat = Threw m /\ e = Some m)
  end.
Proof.
  unfold retry.
  destruct (Z.le_gt_cases maxRetries 0) as [Hle | Hgt].
  - replace (Z.to_nat maxRetries) with 0%nat by lia. cbn [retry_loop].
    split; [lia |]. split; [intros; lia |]. split; [reflexivity |].
    split; [lia |]. split; [intros; lia |]. split; [reflexivity | lia].
  - pose proof (retry_loop_trace fn maxRetries delay backoff (Z.to_nat maxRetries)
                  0%nat None ltac:(lia)) as H.
    destruct (retry_loop fn maxRetries delay backoff (Z.to_nat maxRetries) 0 None)
      as [[r sleeps] calls].
    destruct H as (Hc & Hthrew & Hr).
    split; [lia |]. split; [intros i Hi; apply Hthrew; lia |].
    destruct r as [a | e].
    + destruct Hr as (H1 & H2 & ->). rewrite Nat.sub_0_r. auto.
    + destruct Hr as (-> & H2 & H3 & H4 & ->). cbn [Nat.add].
      split; [reflexivity |]. split; [lia |].
      split; [intros i Hi; apply H2; lia |]. split; [lia |].
      intros _. apply H4. lia.
Qed.

End Helpers.

(** ** The status of a job *)

Section JobStatus.
Import Worker.

Lemma traces_settled_bind {A B} Qs Qw Qp (c : Prog A) (k : A -> Prog B) :
  traces Qs Qw Qp settled c [] ->
  (forall a, traces Qs Qw Qp settled (k a) []) ->
  traces Qs Qw Qp settled (bind c k) [].
Proof.
  intros H Hk. apply (traces_bind_any _ _ _ settled); auto.
Qed.

Lemma resolved_settled {A} Qs Qw Qp (P : A -> Prop) (c : Prog A) :
  traces Qs Qw Qp (resolved P) c [] -> traces Qs Qw Qp settled c [].
Proof.
  apply traces_mono. intros [[a | m] |]; cbn; auto.
Qed.

(** With stages that settle, the part of [processJob] that follows a
    successful compression settles. *)
Lemma success_path_settles (e : Env) (job : VideoJobData) (c : JobResult) :
  (forall paths, settled
     (run_convertToHLSStreaming (env_stages e) paths (postId job) (year job) (month job))) ->
  (forall u, settled
     (run_compressThumbnail (env_stages e) (postId job) (year job) (month job) u
        (wpThumbnailPath job))) ->
  traces (fun _ _ => True) (fun _ => True) (fun _ => True) settled
    (r1 <- hls_step e job c ;;
     r2 <- thumbnail_step e job r1 ;;
     updateJobProgress (jobId job) 100 ;;;
     sendProgressUpdate e (jobId job) (postId job) completed 100 "complete" ;;;
     sendCompletionWebhook e (jobId job) (postId job) r2 ;;;
     Ret r2) [].
Proof.
  intros Hhls Hthumb.
  assert (W : forall p, traces (fun _ _ => True) (fun _ => True) (fun _ => True) settled
                (updateJobProgress (jobId job) p) []).
  { intros p. unfold updateJobProgress. apply tr_write_skip; [exact I |]. now constructor. }
  assert (U : forall status p s,
            traces (fun _ _ => True) (fun _ => True) (fun _ => True) settled
              (sendProgressUpdate e (jobId job) (postId job) status p s) []).
  { intros. apply (resolved_settled _ _ _ (fun _ => True)).
    now apply sendProgressUpdate_safe. }
  apply traces_settled_bind.
  { unfold hls_step. destruct (jr_paths c) as [paths |]; [| now constructor].
    apply traces_settled_bind; [apply W | intros _].
    apply traces_settled_bind; [apply U | intros _].
    specialize (Hhls paths).
    destruct (run_convertToHLSStreaming _ _ _ _ _) as [[h | m] |]; cbn in Hhls;
      try contradiction; cbn [await bind]; [| now constructor].
    destruct (hc_success h); [| now constructor].
    destruct (hc_hls_urls h); now constructor. }
  intros r1. apply traces_settled_bind.
  { unfold thumbnail_step.
    destruct (Probe.nonempty (wpThumbnailUrl job)) as [u |]; [| now constructor].
    apply traces_settled_bind; [apply W | intros _].
    apply traces_settled_bind; [apply U | intros _].
    specialize (Hthumb u).
    destruct (run_compressThumbnail _ _ _ _ _ _) as [[t | m] |]; cbn in Hthumb;
      try contradiction; cbn [await bind]; [| now constructor].
    destruct (ic_success t); [| now constructor].
    destruct (Probe.nonempty (ic_publicUrl t)); now constructor. }
  intros r2. apply traces_settled_bind; [apply W | intros _].
  apply traces_settled_bind; [apply U | intros _].
  apply traces_settled_bind; [| intros _; now constructor].
  apply (resolved_settled _ _ _ (fun _ => True)). now apply sendCompletionWebhook_safe.
Qed.

(** X26. When the stages of the pipeline of a job that a running worker has
    claimed settle, whatever they report or throw, the processor's promise
    resolves and is never rejected; by the broker's contract the job is then
    completed after its first attempt, and the status endpoint reports it as
    [completed], never as [failed], and with no error; that the pipeline
    failed shows only in the [success] field of the result: when the
    compression stage reports failure, the result is the stage's.  When the
    compression stage never settles, the processor's promise stays pending:
    the job stays active and the status endpoint reports it as
    [processing]. *)
Theorem X26_failed_pipeline_is_reported_completed (e : Env) (job : VideoJobData)
    (sched : nat -> nat -> list nat) (st : WorkerState)
    (events : list (Z * string)) (outcome : Promise JobResult) :
  run_compressVideoJob (env_stages e) job = (events, outcome) ->
  (forall paths, settled
     (run_convertToHLSStreaming (env_stages e) paths (postId job) (year job) (month job))) ->
  (forall u, settled
     (run_compressThumbnail (env_stages e) (postId job) (year job) (month job) u
        (wpThumbnailPath job))) ->
  let '(promise, _) := processor e sched false job 0%nat st in
  let '(final, attemptsMade, delays, _) :=
    Broker.run_job (processor e sched false job) st in
  attemptsMade = 1%nat /\ delays = [] /\
  match outcome with
  | Settles o =>
      exists r,
        promise = Settles (Returned r) /\
        final = Some (Broker.Completed r) /\
        Queue.getJobStatus (Broker.Completed r) = (completed, Some r, None) /\
        (forall c, o = Returned c -> jr_success c = false -> r = c)
  | Pending =>
      promise = Pending /\
      final = Some Broker.Active /\
      Queue.getJobStatus Broker.Active = (processing, None, None)
  end.
Proof.
  intros Hrun Hhls Hthumb.
  set (Qbody := fun o : Promise JobResult =>
         match outcome, o with
         | Pending, Pending => True
         | Settles (Threw _), Settles _ => True
         | Settles (Returned c), Settles (Returned r) =>
             jr_success c = false -> r = c
         | Settles (Returned c), Settles (Threw _) => jr_success c = true
         | _, _ => False
         end).
  set (Qout := fun o : Promise JobResult =>
         match outcome, o with
         | Pending, Pending => True
         | Settles (Threw _), Settles (Returned _) => True
         | Settles (Returned c), Settles (Returned r) =>
             jr_success c = false -> r = c
         | _, _ => False
         end).
  assert (T : traces (fun _ _ => True) (fun _ => True) (fun _ => True) Qout
                (processJob e job) []).
  { unfold processJob. rewrite Hrun.
    apply (traces_try_catch _ _ _ Qbody).
    - apply (traces_then _ _ _ (fun _ => True) _ _ _ [] []);
        [apply tr_write_skip; [exact I | now constructor] | intros _ _].
      apply (traces_then _ _ _ (fun _ => True) _ _ _ [] []);
        [now apply sendProgressUpdate_safe | intros _ _].
      apply start_callbacks_traces; [now apply Forall_forall |].
      unfold Qbody. destruct outcome as [[c | m] |]; cbn [await bind].
      + destruct (jr_success c) eqn:Ec; cbn [negb].
        * eapply traces_mono; [| now apply success_path_settles].
          intros [[r | m] |]; cbn; [discriminate | auto | auto].
        * apply (traces_then _ _ _ (fun _ => True) _ _ _ [] []);
            [now apply sendFailureWebhook_safe | intros _ _].
          now constructor.
      + now constructor.
      + now constructor.
    - unfold Qbody, Qout. intros a. destruct outcome as [[c | m] |]; auto.
    - unfold Qbody, Qout. destruct outcome as [[c | m] |]; auto.
    - unfold Qbody, Qout. intros m Hm.
      apply (traces_then _ _ _ (fun _ => True) _ _ _ [] []);
        [now apply sendFailureWebhook_safe | intros _ _].
      constructor. destruct outcome as [[c | m'] |]; [| exact I | contradiction].
      intros Hc. congruence. }
  unfold Broker.run_job, Broker.enqueue_options. cbn [Broker.attempts Broker.run].
  unfold processor.
  destruct (exec_sound e (progressCallback e job) (fun _ _ => True) (fun _ => True)
              (fun _ => True) (fun p s _ => traces_any _) _ _ _ T (sched 0%nat) 0%nat st)
    as (_ & _ & HQ & _).
  { apply Forall_forall. intros t _. apply traces_any. }
  destruct (exec _ _ _ _ _ _) as [o st']. cbn [fst] in HQ. unfold Qout in HQ.
  destruct outcome as [[c | m] |]; destruct o as [[r | m'] |]; try contradiction;
    cbn [Broker.settle]; (split; [reflexivity |]); (split; [reflexivity |]).
  - exists r. split; [reflexivity |]. split; [reflexivity |]. split; [reflexivity |].
    intros c' [= <-]. exact HQ.
  - exists r. split; [reflexivity |]. split; [reflexivity |]. split; [reflexivity |].
    discriminate.
  - repeat split.
Qed.

End JobStatus.

Lemma X26_failed_pipeline_is_reported_completed_witness :
  let '(promise, _) :=
    Worker.processor Sample.env (fun _ => Worker.alone) false Sample.job 0%nat
      Sample.fresh in
  let '(final, attemptsMade, delays, _) :=
    Broker.run_job (Worker.processor Sample.env (fun _ => Worker.alone) false Sample.job)
      Sample.fresh in
  attemptsMade = 1%nat /\ delays = [] /\
  exists r,
    promise = Settles (Returned r) /\
    final = Some (Broker.Completed r) /\
    Queue.getJobStatus (Broker.Completed r) = (completed, Some r, None) /\
    (forall c,
       Returned (Worker.failure_result Sample.job
                   "Download failed: Private/internal hosts not allowed") = Returned c ->
       jr_success c = false -> r = c).
Proof.
  apply (X26_failed_pipeline_is_reported_completed Sample.env Sample.job
           (fun _ => Worker.alone) Sample.fresh [(0, "downloading")]
           (Settles (Returned (Worker.failure_result Sample.job
                                 "Download failed: Private/internal hosts not allowed"))));
    [reflexivity | intros; exact I | intros; exact I].
Defined.

(** ** Path sanitising *)

Section SanitizedPaths.
Import Text Sanitize.

Lemma remove_dotdot_three (sep c c1 c2 : ascii) (rest : string) :
  remove_dotdot sep (String c (String c1 (String c2 rest)))
  = if Ascii.eqb c "." && Ascii.eqb c1 "." && Ascii.eqb c2 sep
    then remove_dotdot sep rest
    else String c (remove_dotdot sep (String c1 (String c2 rest))).
Proof. reflexivity. Qed.

Lemma remove_dotdot_short (sep c : ascii) (s : string) :
  (String.length s <= 1)%nat ->
  remove_dotdot sep (String c s) = String c s.
Proof.
  intros H. destruct s as [| c1 [| c2 s]]; [reflexivity | reflexivity |].
  cbn [String.length] in H. lia.
Qed.

Lemma starts_dotdot (sep c c1 c2 : ascii) (rest : string) :
  startsWith (String "." (String "." (String sep ""))) (String c (String c1 (String c2 rest)))
  = Ascii.eqb c "." && Ascii.eqb c1 "." && Ascii.eqb c2 sep.
Proof.
  cbn [startsWith].
  rewrite (Ascii.eqb_sym "." c), (Ascii.eqb_sym "." c1), (Ascii.eqb_sym sep c2).
  destruct (Ascii.eqb c "."), (Ascii.eqb c1 "."), (Ascii.eqb c2 sep); reflexivity.
Qed.

Lemma includes_short (p : string) (s : string) :
  (String.length s < String.length p)%nat -> includes_str p s = false.
Proof.
  assert (G : forall (q t : string), (String.length t < String.length q)%nat ->
              startsWith q t = false).
  { induction q as [| a q IH]; intros t Ht; [cbn in Ht; lia |].
    destruct t as [| b t]; [reflexivity |]. cbn [startsWith].
    destruct (Ascii.eqb a b); [| reflexivity]. apply IH. cbn [String.length] in Ht. lia. }
  induction s as [| c s IH]; intros H.
  - cbn [includes_str]. rewrite G by exact H. reflexivity.
  - cbn [includes_str]. rewrite G by exact H.
    apply IH. cbn [String.length] in H. lia.
Qed.

Lemma remove_dotdot_length (sep : ascii) (n : nat) :
  forall s : string, (String.length s <= n)%nat ->
  (String.length (remove_dotdot sep s) <= String.length s)%nat /\
  (includes_str (String "." (String "." (String sep ""))) s = true ->
   (String.length (remove_dotdot sep s) < String.length s)%nat).
Proof.
  induction n as [| n IH]; intros s Hn.
  - destruct s; [| cbn in Hn; lia]. cbn. split; [lia | discriminate].
  - destruct s as [| c s]; [cbn; split; [lia | discriminate] |].
    cbn [String.length] in Hn.
    destruct (IH s ltac:(lia)) as [Hle Hlt].
    destruct s as [| c1 [| c2 rest]].
    + rewrite remove_dotdot_short by (cbn; lia).
      split; [lia |]. now rewrite includes_short by (cbn; lia).
    + rewrite remove_dotdot_short by (cbn; lia).
      split; [lia |]. now rewrite includes_short by (cbn; lia).
    + rewrite remove_dotdot_three.
      destruct (IH rest ltac:(cbn [String.length] in Hn; lia)) as [Hle' _].
      cbn [includes_str]. rewrite starts_dotdot.
      destruct (Ascii.eqb c "." && Ascii.eqb c1 "." && Ascii.eqb c2 sep).
      * cbn [String.length] in *. split; [lia | intros _; lia].
      * cbn [String.length orb] in *. split; [lia |].
        intros Hin. specialize (Hlt Hin). lia.
Qed.

Lemma remove_dotdot_none (sep : ascii) (n : nat) :
  forall s : string, (String.length s <= n)%nat ->
  includes_str (String "." (String "." (String sep ""))) s = false ->
  remove_dotdot sep s = s.
Proof.
  induction n as [| n IH]; intros s Hn Hi.
  - destruct s; [reflexivity | cbn in Hn; lia].
  - destruct s as [| c s]; [reflexivity |].
    cbn [String.length] in Hn.
    destruct s as [| c1 [| c2 rest]]; try (apply remove_dotdot_short; cbn; lia).
    rewrite remove_dotdot_three.
    cbn [includes_str] in Hi. rewrite starts_dotdot in Hi.
    apply orb_false_iff in Hi as [Hs Hi]. rewrite Hs.
    f_equal. apply IH; [lia | exact Hi].
Qed.

Lemma strip_loop_ends (fuel : nat) :
  forall s : string, (String.length s < fuel)%nat ->
  exists r, strip_loop fuel s = Some r /\ has_traversal r = false.
Proof.
  induction fuel as [| fuel IH]; intros s Hf; [lia |].
  cbn [strip_loop]. destruct (has_traversal s) eqn:Ht; [| eauto].
  destruct fuel as [| fuel'].
  - exfalso. destruct s; [discriminate | cbn in Hf; lia].
  - apply IH.
    pose proof (remove_dotdot_length "/" _ s (Nat.le_refl _)) as [L1 S1].
    pose proof (remove_dotdot_length "\" _ (remove_dotdot "/" s) (Nat.le_refl _)) as [L2 S2].
    unfold has_traversal in Ht. apply orb_true_iff in Ht as [Ht | Ht].
    + specialize (S1 Ht). lia.
    + destruct (includes_str "../" s) eqn:E1; [specialize (S1 eq_refl); lia |].
      rewrite (remove_dotdot_none "/" _ s (Nat.le_refl _) E1) in *.
      specialize (S2 Ht). lia.
Qed.

(** The characters of a string, as a property of all of them. *)
Lemma remove_dotdot_chars (P : ascii -> Prop) (sep : ascii) (n : nat) :
  forall s : string, (String.length s <= n)%nat ->
  Forall P (list_ascii_of_string s) ->
  Forall P (list_ascii_of_string (remove_dotdot sep s)).
Proof.
  induction n as [| n IH]; intros s Hn Hs.
  - destruct s; [constructor | cbn in Hn; lia].
  - destruct s as [| c s]; [constructor |].
    cbn [String.length] in Hn.
    destruct s as [| c1 [| c2 rest]];
      try (rewrite remove_dotdot_short by (cbn; lia); exact Hs).
    rewrite remove_dotdot_three.
    cbn [list_ascii_of_string] in Hs.
    apply Forall_cons in Hs as [Hc Hs].
    destruct (_ && _).
    + apply IH; [cbn [String.length] in Hn; lia |].
      apply Forall_cons in Hs as [_ Hs]. apply Forall_cons in Hs as [_ Hs]. exact Hs.
    + cbn [list_ascii_of_string]. constructor; [exact Hc |].
      apply (IH (String c1 (String c2 rest))); [lia |].
      exact Hs.
Qed.

Lemma strip_loop_chars (P : ascii -> Prop) (fuel : nat) :
  forall s r, strip_loop fuel s = Some r ->
  Forall P (list_ascii_of_string s) -> Forall P (list_ascii_of_string r).
Proof.
  induction fuel as [| fuel IH]; intros s r E Hs; cbn [strip_loop] in E.
  - destruct (has_traversal s); [discriminate | now injection E as <-].
  - destruct (has_traversal s); [| now injection E as <-].
    apply (IH _ _ E).
    apply (remove_dotdot_chars P _ _ _ (Nat.le_refl _)).
    apply (remove_dotdot_chars P _ _ _ (Nat.le_refl _)). exact Hs.
Qed.

Lemma clean_chars (s : string) :
  Forall (fun c => c <> "000"%char /\ c <> "\"%char)
    (list_ascii_of_string (backslash_to_slash (remove_nul s))).
Proof.
  induction s as [| c s IH]; [constructor |].
  cbn [remove_nul]. destruct (Ascii.eqb_spec c "000") as [-> | Hn]; [exact IH |].
  cbn [backslash_to_slash list_ascii_of_string]. constructor; [| exact IH].
  destruct (Ascii.eqb_spec c "\") as [-> | Hb]; split; try assumption; discriminate.
Qed.

(** X28. [sanitizePath] ends on every path, with one outcome: its loop
    stops, since every turn shortens the path.  A path that it returns holds
    no NUL character, no backslash, and nowhere two dots in a row; nor does
    it hold the escaped forms %2e%2e or %252e in any case.  Every other path
    is refused with an error. *)
Theorem X28_sanitized_path_has_no_dot_dot
    (decodeURIComponent : string -> Outcome string) (path : string) :
  exists outcome,
    (exists fuel, sanitizePath decodeURIComponent fuel path = Some outcome) /\
    (forall fuel o, sanitizePath decodeURIComponent fuel path = Some o -> o = outcome) /\
    (forall sanitized, outcome = Returned sanitized ->
       includes_str ".." sanitized = false /\
       Forall (fun c => c <> "000"%char /\ c <> "\"%char) (list_ascii_of_string sanitized) /\
       includes_str "%2e%2e" (toLowerCase sanitized) = false /\
       includes_str "%252e" (toLowerCase sanitized) = false).
Proof.
  unfold sanitizePath.
  destruct (decodeURIComponent path) as [once | m] eqn:E1.
  2:{ exists (Threw m). split; [exists 0%nat; reflexivity |].
      split; [intros fuel o E; congruence | discriminate]. }
  destruct (decodeURIComponent once) as [twice | m] eqn:E2.
  2:{ exists (Threw m). split; [exists 0%nat; reflexivity |].
      split; [intros fuel o E; congruence | discriminate]. }
  set (s0 := backslash_to_slash (remove_nul twice)).
  destruct (strip_loop_ends (S (String.length s0)) s0 ltac:(lia)) as (r & Er & Hr).
  assert (Mono : forall fuel r', strip_loop fuel s0 = Some r' -> r' = r).
  { assert (G : forall f1 f2 s a b,
              strip_loop f1 s = Some a -> strip_loop f2 s = Some b -> a = b).
    { induction f1 as [| f1 IH]; intros f2 s a b Ea Eb.
      - cbn [strip_loop] in Ea. destruct (has_traversal s) eqn:Ht; [discriminate |].
        destruct f2; cbn [strip_loop] in Eb; rewrite Ht in Eb; congruence.
      - cbn [strip_loop] in Ea. destruct (has_traversal s) eqn:Ht.
        + destruct f2; cbn [strip_loop] in Eb; rewrite Ht in Eb; [discriminate |].
          exact (IH _ _ _ _ Ea Eb).
        + destruct f2; cbn [strip_loop] in Eb; rewrite Ht in Eb; congruence. }
    intros fuel r' E. exact (G _ _ _ _ _ E Er). }
  exists (if forbidden r then Threw "Path contains forbidden sequences" else Returned r).
  split; [| split].
  - exists (S (String.length s0)). rewrite Er. now destruct (forbidden r).
  - intros fuel o E. destruct (strip_loop fuel s0) as [r' |] eqn:Ef; [| discriminate].
    rewrite (Mono _ _ Ef) in E. destruct (forbidden r); congruence.
  - intros sanitized Hs. destruct (forbidden r) eqn:Ef; [discriminate |].
    injection Hs as <-. unfold forbidden in Ef.
    apply orb_false_iff in Ef as [Ef E3]. apply orb_false_iff in Ef as [Ef1 Ef2].
    repeat split; try assumption.
    apply (strip_loop_chars _ _ _ _ Er), clean_chars.
Qed.

End SanitizedPaths.
